(** * A shallow embedding of the CSP Sudoku solver

    Sources embedded here:
    - [sudoku_solver/utils.py]: [is_valid_board], [validate_solution],
      [print_board], [copy_board];
    - [sudoku_solver/solver.py]: the class [SudokuSolver] with its domain
      bookkeeping, forward checking, AC-3 and the backtracking driver.

    Conventions of the embedding:
    - an integer cell is a [Z]; a board is a list of rows, as in Python;
    - a [dict] is an association list kept in insertion order (Python
      dictionaries iterate in insertion order, and MRV depends on it);
    - a [set] of digits or of positions is a duplicate-free list; wherever the
      source iterates over a set and the order can be observed, the order is
      taken from the class [SetIteration], so that nothing proved below
      depends on the hashing order of the interpreter;
    - the mutable fields of the solver object are threaded explicitly; an
      unbounded loop or recursion takes a fuel argument and may answer
      [OutOfFuel]; a Python exception is the answer [Raise];
    - [print_board] returns the text it writes to the standard output;
      [copy_board], whose point is the identity of the row objects, works
      on a store of rows addressed by position;
    - the solver keeps the list it was given and writes to it in place. The
      functions of the section [Solver] rewrite one row of the board, which
      is what the write does on a board whose rows are distinct objects;
      the module [InPlace] has the search on a board whose rows may be one
      object, and [run_in_place] relates the two. The module [Heap] has the
      constructor on the objects of the interpreter, and the write of the
      search, which [setitem2_in_place] relates to the one of [InPlace]. *)

From Stdlib Require Import ZArith List Bool Arith Lia Permutation.
From Stdlib Require Sorted String Ascii DecimalString.
Import ListNotations.

Set Implicit Arguments.

(** ** Python values, boards and positions *)

(** A cell of the board handed to the constructor: an [int] (a [bool] counts
    as the integer it equals) or any other object. *)
Inductive pyval : Type :=
  | PyInt (z : Z)
  | PyOther.

Definition pyboard := list (list pyval).
Definition grid := list (list Z).
Definition pos := (nat * nat)%type.

Definition pos_eqb (p q : pos) : bool :=
  (fst p =? fst q) && (snd p =? snd q).

(** [range(9)], [range(1, 10)] and the row-major enumeration of the cells
    produced by the two nested [for] loops over [range(self.size)]. *)
Definition range9 : list nat := seq 0 9.
Definition digits : list Z := [1; 2; 3; 4; 5; 6; 7; 8; 9]%Z.
Definition all_positions : list pos :=
  flat_map (fun i => map (fun j => (i, j)) range9) range9.

(** [board[i][j]]; every index used by the solver lies in [range(9)] and the
    board has been checked to be 9x9, so the read never fails. *)
Definition cell (b : grid) (i j : nat) : Z := nth j (nth i b []) 0%Z.

Fixpoint list_set {A : Type} (l : list A) (n : nat) (x : A) : list A :=
  match l, n with
  | [], _ => []
  | _ :: t, O => x :: t
  | h :: t, S n' => h :: list_set t n' x
  end.

(** [board[i][j] = v] on a board whose rows are distinct objects: the row
    [i] changes, and no other. [set_cell_in_place] is the write on any
    board. *)
Definition set_cell (b : grid) (i j : nat) (v : Z) : grid :=
  list_set b i (list_set (nth i b []) j v).

(** ** utils.py *)

Definition out_of_range (x : pyval) : bool :=
  match x with
  | PyInt z => (z <? 0)%Z || (z >? 9)%Z
  | PyOther => true
  end.

Definition is_valid_board (board : pyboard) : bool :=
  if negb (length board =? 9) || existsb (fun row => negb (length row =? 9)) board
  then false
  else if existsb (fun row => existsb out_of_range row) board then false
  else true.

(** [all(x in l for x in range(1, 10))] *)
Definition has_all_digits (l : list Z) : bool :=
  forallb (fun x => existsb (Z.eqb x) l) digits.

Definition validate_solution (board : grid) : bool :=
  if negb (forallb has_all_digits board) then false
  else if negb (forallb (fun col =>
                 has_all_digits (map (fun row => cell board row col) range9))
               range9) then false
  else if negb (forallb (fun box_row =>
                 forallb (fun box_col =>
                   has_all_digits
                     (flat_map (fun i =>
                        map (fun j => cell board (box_row + i) (box_col + j))
                            (seq 0 3)) (seq 0 3)))
                   [0; 3; 6]) [0; 3; 6]) then false
  else true.

(** The integers of a board that passed [is_valid_board]. *)
Definition int_of (x : pyval) : Z :=
  match x with PyInt z => z | PyOther => 0%Z end.
Definition ints_of (board : pyboard) : grid := map (map int_of) board.
Definition py_of (g : grid) : pyboard := map (map PyInt) g.

(** ** Dictionaries and sets *)

Section Dict.
Variable V : Type.

Definition dict := list (pos * V).

(** [k in d] *)
Definition dict_mem (k : pos) (d : dict) : bool :=
  existsb (fun kv => pos_eqb (fst kv) k) d.

(** [d[k]], [None] standing for [KeyError] *)
Fixpoint dict_get (k : pos) (d : dict) : option V :=
  match d with
  | [] => None
  | (k', v) :: t => if pos_eqb k' k then Some v else dict_get k t
  end.

(** [d[k] = v]: a present key keeps its place, a new one goes last *)
Fixpoint dict_set (d : dict) (k : pos) (v : V) : dict :=
  match d with
  | [] => [(k, v)]
  | (k', v') :: t =>
      if pos_eqb k' k then (k', v) :: t else (k', v') :: dict_set t k v
  end.

(** [del d[k]] on a present key *)
Definition dict_del (d : dict) (k : pos) : dict :=
  filter (fun kv => negb (pos_eqb (fst kv) k)) d.

(** an in-place update of the object stored under [k] *)
Definition dict_upd (d : dict) (k : pos) (f : V -> V) : dict :=
  map (fun kv => if pos_eqb (fst kv) k then (fst kv, f (snd kv)) else kv) d.
End Dict.

Definition domain_map := dict (list Z).

(** [s.discard(v)] and [s.remove(v)] on a set of digits *)
Definition discard (v : Z) (s : list Z) : list Z :=
  filter (fun x => negb (x =? v)%Z) s.

(** sets of positions; conflict sets are never iterated, the set of
    neighbours is, through [iter_cells] *)
Definition pos_mem (p : pos) (s : list pos) : bool := existsb (pos_eqb p) s.
Definition pos_add (s : list pos) (p : pos) : list pos :=
  if pos_mem p s then s else s ++ [p].
Definition pos_update (s t : list pos) : list pos := fold_left pos_add t s.
Definition pos_minus (s : list pos) (p : pos) : list pos :=
  filter (fun q => negb (pos_eqb q p)) s.

(** [sorted(l, key=key)]: a stable sort *)
Section Sorted.
Variable A : Type.
Variable key : A -> Z.

Fixpoint insert_sorted (x : A) (l : list A) : list A :=
  match l with
  | [] => [x]
  | y :: t => if (key x <=? key y)%Z then x :: l else y :: insert_sorted x t
  end.

Definition sorted (l : list A) : list A := fold_right insert_sorted [] l.
End Sorted.

(** The order in which the interpreter enumerates a set. *)
Class SetIteration : Type := {
  iter_values : list Z -> list Z;
  iter_values_perm : forall l, Permutation (iter_values l) l;
  iter_cells : list pos -> list pos;
  iter_cells_perm : forall l, Permutation (iter_cells l) l
}.

(** ** Outcomes of a call *)

Inductive exn : Type := ValueError | KeyError | IndexError.

Inductive outcome (A : Type) : Type :=
  | Done (a : A)
  | Raise (e : exn)
  | OutOfFuel.

Arguments Raise {A} e.
Arguments OutOfFuel {A}.

Definition bind {A B : Type} (m : outcome A) (k : A -> outcome B) : outcome B :=
  match m with
  | Done a => k a
  | Raise e => Raise e
  | OutOfFuel => OutOfFuel
  end.

Notation "x <- m ;; k" := (bind m (fun x => k))
  (at level 61, m at next level, right associativity).
Notation "' p <- m ;; k" := (bind m (fun p => k))
  (at level 61, p pattern, m at next level, right associativity).

(** ** utils.py: printing and copying *)

(** [str(x)] for an integer [x]. *)
Definition str_int (z : Z) : String.string :=
  DecimalString.NilZero.string_of_int (Z.to_int z).

(** The texts that [print_board] writes between the cells. *)
Module Text.
Import String.
Definition bar : string := "| ".
Definition dashes : string := "- - - - - - - - - - - -".
Definition space : string := " ".
Definition newline : string := String (Ascii.ascii_of_nat 10) EmptyString.
End Text.

(** What a call has written to the standard output, and the exception that
    ended it, if any. *)
Definition printed := (String.string * option exn)%type.

(** The loop [for j in range(len(board[0]))] over the columns still to be
    printed, [out] being the text written so far. *)
Fixpoint print_cells (row : list Z) (js : list nat) (out : String.string)
  : printed :=
  match js with
  | [] => (out, None)
  | j :: rest =>
      let out1 := if (j mod 3 =? 0) && negb (j =? 0)
                  then String.append out Text.bar else out in
      match nth_error row j with
      | None => (out1, Some IndexError)
      | Some x =>
          print_cells row rest
            (if j =? 8
             then String.append out1 (String.append (str_int x) Text.newline)
             else String.append out1 (String.append (str_int x) Text.space))
      end
  end.

(** The loop [for i in range(len(board))] over the rows still to be
    printed. *)
Fixpoint print_rows (board : grid) (rows : list nat) (out : String.string)
  : printed :=
  match rows with
  | [] => (out, None)
  | i :: rest =>
      let out1 := if (i mod 3 =? 0) && negb (i =? 0)
                  then String.append out
                         (String.append Text.dashes Text.newline)
                  else out in
      match print_cells (nth i board []) (seq 0 (length (hd [] board))) out1
      with
      | (out2, Some e) => (out2, Some e)
      | (out2, None) => print_rows board rest out2
      end
  end.

Definition print_board (board : grid) : printed :=
  print_rows board (seq 0 (length board)) String.EmptyString.

(** Lists are objects: the rows of a board live in a store, each at an
    address, and the outer list of a board holds the addresses of its
    rows. Two boards may share a row, and a board may hold a row twice. *)
Definition store := list (list Z).
Definition board_ref := list nat.

Definition row_at (h : store) (a : nat) : list Z := nth a h [].

(** The grid that a board of the store holds. *)
Definition contents (h : store) (b : board_ref) : grid := map (row_at h) b.

(** [[row[:] for row in board]]: each [row[:]] allocates a new row. *)
Definition copy_board (h : store) (b : board_ref) : store * board_ref :=
  fold_left (fun (acc : store * board_ref) (a : nat) =>
               (fst acc ++ [row_at (fst acc) a],
                snd acc ++ [length (fst acc)]))
            b (h, []).

(** [board[i][j] = v], in place. *)
Definition store_cell (h : store) (b : board_ref) (i j : nat) (v : Z)
  : store :=
  list_set h (nth i b 0) (list_set (row_at h (nth i b 0)) j v).

(** ** solver.py: the solver object *)

(** The fields of [SudokuSolver]. [history] is a ghost field: it records the
    pair (board, domains) after every write to either of them, most recent
    first, so that "at every point of the search" can be stated. *)
Record SudokuSolver : Type := mkSolver {
  board : grid;
  use_mrv : bool;
  use_forward_checking : bool;
  use_ac3 : bool;
  use_lcv : bool;
  domains : domain_map;
  conflict_sets : dict (list pos);
  assignment_order : list pos;
  history : list (grid * domain_map)
}.

Definition with_board (s : SudokuSolver) (b : grid) : SudokuSolver :=
  mkSolver b (use_mrv s) (use_forward_checking s) (use_ac3 s) (use_lcv s)
           (domains s) (conflict_sets s) (assignment_order s)
           ((b, domains s) :: history s).

Definition with_domains (s : SudokuSolver) (d : domain_map) : SudokuSolver :=
  mkSolver (board s) (use_mrv s) (use_forward_checking s) (use_ac3 s)
           (use_lcv s) d (conflict_sets s) (assignment_order s)
           ((board s, d) :: history s).

Definition with_conflict_sets (s : SudokuSolver) (c : dict (list pos))
  : SudokuSolver :=
  mkSolver (board s) (use_mrv s) (use_forward_checking s) (use_ac3 s)
           (use_lcv s) (domains s) c (assignment_order s) (history s).

Definition with_assignment_order (s : SudokuSolver) (a : list pos)
  : SudokuSolver :=
  mkSolver (board s) (use_mrv s) (use_forward_checking s) (use_ac3 s)
           (use_lcv s) (domains s) (conflict_sets s) a (history s).

(** The test [i == row or j == col or (i//3 == row//3 and j//3 == col//3)]
    shared by forward checking and LCV. *)
Definition same_unit (i j row col : nat) : bool :=
  (i =? row) || (j =? col) || ((i / 3 =? row / 3) && (j / 3 =? col / 3)).

(** *** Domains at construction *)

Definition update_domain (b : grid) (p : pos) (doms : domain_map)
  : domain_map :=
  if negb (dict_mem p doms) then doms
  else
    let (row, col) := p in
    let strike (d : domain_map) (i j : nat) : domain_map :=
      if negb (cell b i j =? 0)%Z then dict_upd d p (discard (cell b i j))
      else d in
    let d1 := fold_left (fun d j => strike d row j) range9 doms in
    let d2 := fold_left (fun d i => strike d i col) range9 d1 in
    let box_row := 3 * (row / 3) in
    let box_col := 3 * (col / 3) in
    fold_left (fun d i => fold_left (fun d' j => strike d' i j) (seq box_col 3) d)
              (seq box_row 3) d2.

Definition initialize_domains (b : grid) : domain_map :=
  fold_left (fun doms i =>
    fold_left (fun doms' j =>
      if (cell b i j =? 0)%Z
      then update_domain b (i, j) (dict_set doms' (i, j) digits)
      else doms') range9 doms) range9 [].

(** [SudokuSolver(board, use_mrv, use_forward_checking, use_ac3, use_lcv)] *)
Definition init (brd : pyboard) (mrv fc ac3 lcv : bool)
  : outcome SudokuSolver :=
  if negb (is_valid_board brd) then Raise ValueError
  else
    let b := ints_of brd in
    let d := initialize_domains b in
    Done (mkSolver b mrv fc ac3 lcv d [] [] [(b, d)]).

(** *** Safety of a placement *)

Definition is_safe (b : grid) (p : pos) (value : Z) : bool :=
  let (row, col) := p in
  if existsb (fun j => (cell b row j =? value)%Z) range9 then false
  else if existsb (fun i => (cell b i col =? value)%Z) range9 then false
  else
    let box_row := 3 * (row / 3) in
    let box_col := 3 * (col / 3) in
    if existsb (fun i => existsb (fun j => (cell b i j =? value)%Z)
                                 (seq box_col 3)) (seq box_row 3)
    then false
    else true.

(** *** Variable and value selection *)

Definition get_first_empty (b : grid) : option pos :=
  find (fun p => (cell b (fst p) (snd p) =? 0)%Z) all_positions.

(** [min_length] starts at infinity, written [None] here. *)
Definition get_mrv_variable (doms : domain_map) : option pos :=
  snd (fold_left
         (fun (acc : option nat * option pos) (kv : pos * list Z) =>
            let domain_length := length (snd kv) in
            let smaller := match fst acc with
                           | None => true
                           | Some min_length => domain_length <? min_length
                           end in
            if smaller then (Some domain_length, Some (fst kv)) else acc)
         doms (None, None)).

Definition get_next_variable (s : SudokuSolver) : option pos :=
  if negb (use_mrv s) then get_first_empty (board s)
  else get_mrv_variable (domains s).

Definition count_constraints (s : SudokuSolver) (var : pos) (value : Z) : Z :=
  let (row, col) := var in
  fold_left
    (fun (count : Z) (p : pos) =>
       let (i, j) := p in
       if negb (pos_eqb (i, j) var) && (cell (board s) i j =? 0)%Z
          && same_unit i j row col
          && existsb (Z.eqb value)
                     (match dict_get (i, j) (domains s) with
                      | Some d => d
                      | None => []
                      end)
       then (count + 1)%Z else count)
    all_positions 0%Z.

Section Solver.
Context {iteration : SetIteration}.

Definition get_ordered_values (s : SudokuSolver) (var : pos)
  : outcome (list Z) :=
  match dict_get var (domains s) with
  | None => Raise KeyError
  | Some d =>
      if negb (use_lcv s) then Done (sorted (fun x => x) (iter_values d))
      else Done (sorted (count_constraints s var) (iter_values d))
  end.

(** *** Forward checking *)

(** The two nested loops of [forward_check_with_conflicts], over the cells
    still to be visited. *)
Fixpoint forward_check_loop (s : SudokuSolver) (var : pos) (value : Z)
         (cells : list pos) : option (list pos) * SudokuSolver :=
  match cells with
  | [] => (None, s)
  | (i, j) :: rest =>
      if (cell (board s) i j =? 0)%Z && same_unit i j (fst var) (snd var)
      then
        let curr_pos := (i, j) in
        let s1 := with_domains s (dict_upd (domains s) curr_pos (discard value)) in
        if dict_mem curr_pos (domains s1)
           && match dict_get curr_pos (domains s1) with
              | Some [] => true
              | _ => false
              end
        then (Some (pos_add [] var), s1)
        else forward_check_loop s1 var value rest
      else forward_check_loop s var value rest
  end.

Definition forward_check_with_conflicts (s : SudokuSolver) (var : pos)
           (value : Z) : option (list pos) * SudokuSolver :=
  forward_check_loop s var value all_positions.

(** *** AC-3 *)

Definition get_all_edges (s : SudokuSolver) : list (pos * pos) :=
  flat_map
    (fun p : pos =>
       let (i, j) := p in
       if dict_mem (i, j) (domains s) then
         let row_edges :=
           flat_map (fun k => if negb (k =? j) && dict_mem (i, k) (domains s)
                              then [((i, j), (i, k))] else []) range9 in
         let col_edges :=
           flat_map (fun k => if negb (k =? i) && dict_mem (k, j) (domains s)
                              then [((i, j), (k, j))] else []) range9 in
         let box_i := 3 * (i / 3) in
         let box_j := 3 * (j / 3) in
         let box_edges :=
           flat_map (fun k =>
             flat_map (fun l =>
               if negb (pos_eqb (k, l) (i, j)) && dict_mem (k, l) (domains s)
               then [((i, j), (k, l))] else []) (seq box_j 3)) (seq box_i 3) in
         row_edges ++ col_edges ++ box_edges
       else [])
    all_positions.

Definition get_neighbors (s : SudokuSolver) (var : pos) : list pos :=
  let (row, col) := var in
  let n1 :=
    fold_left (fun n j => if negb (j =? col) && dict_mem (row, j) (domains s)
                          then pos_add n (row, j) else n) range9 [] in
  let n2 :=
    fold_left (fun n i => if negb (i =? row) && dict_mem (i, col) (domains s)
                          then pos_add n (i, col) else n) range9 n1 in
  let box_row := 3 * (row / 3) in
  let box_col := 3 * (col / 3) in
  fold_left (fun n i =>
    fold_left (fun n' j =>
      if negb (pos_eqb (i, j) var) && dict_mem (i, j) (domains s)
      then pos_add n' (i, j) else n') (seq box_col 3) n) (seq box_row 3) n2.

(** The loop of [remove_inconsistent_values] over the copy [xi_domain].
    [self.domains[xi].remove(x)] cannot fail: [x] is drawn from a copy of
    that very set and each element is visited once. *)
Fixpoint remove_inconsistent_loop (s : SudokuSolver) (xi xj : pos)
         (xs : list Z) (removed : bool) : outcome (bool * SudokuSolver) :=
  match xs with
  | [] => Done (removed, s)
  | x :: rest =>
      match dict_get xj (domains s) with
      | None => Raise KeyError
      | Some dj =>
          if negb (existsb (fun y => negb (y =? x)%Z) dj)
          then remove_inconsistent_loop
                 (with_domains s (dict_upd (domains s) xi (discard x)))
                 xi xj rest true
          else remove_inconsistent_loop s xi xj rest removed
      end
  end.

Definition remove_inconsistent_values (s : SudokuSolver) (xi xj : pos)
  : outcome (bool * SudokuSolver) :=
  match dict_get xi (domains s) with
  | None => Raise KeyError
  | Some xi_domain =>
      remove_inconsistent_loop s xi xj (iter_values xi_domain) false
  end.

(** The [while queue:] loop of [ac3_with_conflicts]. *)
Fixpoint ac3_loop (fuel : nat) (queue : list (pos * pos)) (s : SudokuSolver)
  : outcome (option (list pos) * SudokuSolver) :=
  match fuel with
  | O => OutOfFuel
  | S fuel' =>
      match queue with
      | [] => Done (None, s)
      | (xi, xj) :: queue' =>
          '(removed, s1) <- remove_inconsistent_values s xi xj ;;
          if removed : bool then
            match dict_get xi (domains s1) with
            | None => Raise KeyError
            | Some [] => Done (Some (pos_add (pos_add [] xi) xj), s1)
            | Some _ =>
                ac3_loop fuel'
                  (queue' ++ map (fun xk => (xk, xi))
                     (filter (fun xk => negb (pos_eqb xk xj))
                             (iter_cells (get_neighbors s1 xi))))
                  s1
            end
          else ac3_loop fuel' queue' s1
      end
  end.

Definition ac3_with_conflicts (fuel : nat) (s : SudokuSolver)
  : outcome (option (list pos) * SudokuSolver) :=
  ac3_loop fuel (get_all_edges s) s.

(** *** Backtracking search *)

(** The assignment of [backtrack_with_conflicts]: the board write, the
    append to [assignment_order] and [del self.domains[var]]. *)
Definition assign (s : SudokuSolver) (var : pos) (value : Z)
  : outcome SudokuSolver :=
  let s1 := with_board s (set_cell (board s) (fst var) (snd var) value) in
  let s2 := with_assignment_order s1 (assignment_order s1 ++ [var]) in
  if dict_mem var (domains s2)
  then Done (with_domains s2 (dict_del (domains s2) var))
  else Raise KeyError.

Definition restore_state (s : SudokuSolver) (var : pos)
           (old_domains : domain_map) (old_conflicts : dict (list pos))
  : outcome SudokuSolver :=
  let s1 := with_board s (set_cell (board s) (fst var) (snd var) 0%Z) in
  let s2 := with_domains s1 old_domains in
  let s3 := with_conflict_sets s2 old_conflicts in
  match assignment_order s3 with
  | [] => Raise IndexError
  | _ :: _ =>
      Done (with_assignment_order s3 (removelast (assignment_order s3)))
  end.

Definition search_result := (bool * list pos * SudokuSolver)%type.

(** The [for value in ...] loop of [backtrack_with_conflicts] over the values
    still to be tried; [recurse] is the recursive call and [fuel] the budget
    handed to AC-3. The snapshots are taken by value, which is what
    [copy.deepcopy] achieves. *)
Fixpoint try_values (recurse : SudokuSolver -> outcome search_result)
         (fuel : nat) (var : pos) (values : list Z)
         (current_conflicts : list pos) (s : SudokuSolver)
  : outcome search_result :=
  match values with
  | [] =>
      Done (false, current_conflicts,
            with_conflict_sets s
              (dict_set (conflict_sets s) var current_conflicts))
  | value :: rest =>
      if is_safe (board s) var value then
        let old_domains := domains s in
        let old_conflicts := conflict_sets s in
        s1 <- assign s var value ;;
        let '(fc_conflicts, s2) :=
          if use_forward_checking s1
          then forward_check_with_conflicts s1 var value
          else (None, s1) in
        match fc_conflicts with
        | Some fc =>
            s3 <- restore_state s2 var old_domains old_conflicts ;;
            try_values recurse fuel var rest
              (pos_update current_conflicts (pos_minus fc var)) s3
        | None =>
            '(ac3_conflicts, s3) <-
              (if use_ac3 s2 then ac3_with_conflicts fuel s2
               else Done (None, s2)) ;;
            match ac3_conflicts with
            | Some ac =>
                s4 <- restore_state s3 var old_domains old_conflicts ;;
                try_values recurse fuel var rest
                  (pos_update current_conflicts (pos_minus ac var)) s4
            | None =>
                '(success, new_conflicts, s4) <- recurse s3 ;;
                if success : bool then Done (true, [], s4)
                else
                  s5 <- restore_state s4 var old_domains old_conflicts ;;
                  try_values recurse fuel var rest
                    (pos_update current_conflicts (pos_minus new_conflicts var))
                    s5
            end
        end
      else try_values recurse fuel var rest current_conflicts s
  end.

Fixpoint backtrack_with_conflicts (fuel : nat) (s : SudokuSolver)
  : outcome search_result :=
  match fuel with
  | O => OutOfFuel
  | S fuel' =>
      match get_next_variable s with
      | None => Done (true, [], s)
      | Some var =>
          values <- get_ordered_values s var ;;
          try_values (backtrack_with_conflicts fuel') fuel' var values [] s
      end
  end.

Definition solve (fuel : nat) (s : SudokuSolver)
  : outcome (bool * SudokuSolver) :=
  '(initial_conflicts, s1) <-
    (if use_ac3 s then ac3_with_conflicts fuel s else Done (None, s)) ;;
  match initial_conflicts with
  | Some _ => Done (false, s1)
  | None =>
      '(success, _, s2) <- backtrack_with_conflicts fuel s1 ;;
      Done (success, s2)
  end.

End Solver.

(** The enumeration used when a run is evaluated on a concrete board: digits
    and positions in the order in which the model stores them. *)
#[export] Instance stored_order : SetIteration :=
  {| iter_values := fun l => l;
     iter_values_perm := fun l => Permutation_refl l;
     iter_cells := fun l => l;
     iter_cells_perm := fun l => Permutation_refl l |}.

(** [solver.solve()] on a freshly constructed solver. *)
Definition run {iteration : SetIteration} (fuel : nat) (brd : pyboard)
           (mrv fc ac3 lcv : bool) : outcome (bool * SudokuSolver) :=
  s <- init brd mrv fc ac3 lcv ;; solve fuel s.

(** ** The search on the caller's list *)

(** The solver keeps the list it was given ([self.board = board]) and writes
    through its row objects. [refs] gives, for each index of the outer
    list, the address of the row object stored there: two indices with the
    same address are one row, and a write to a cell of that row shows under
    both. *)
Definition set_cell_in_place (refs : board_ref) (b : grid) (i j : nat)
           (v : Z) : grid :=
  map (fun k => if nth k refs 0 =? nth i refs 0
                then list_set (nth k b []) j v
                else nth k b [])
      (seq 0 (length b)).

Module InPlace.
Section Solver.
Context {iteration : SetIteration}.
Variable refs : board_ref.

Definition assign (s : SudokuSolver) (var : pos) (value : Z)
  : outcome SudokuSolver :=
  let s1 := with_board s (set_cell_in_place refs (board s) (fst var)
                                            (snd var) value) in
  let s2 := with_assignment_order s1 (assignment_order s1 ++ [var]) in
  if dict_mem var (domains s2)
  then Done (with_domains s2 (dict_del (domains s2) var))
  else Raise KeyError.

Definition restore_state (s : SudokuSolver) (var : pos)
           (old_domains : domain_map) (old_conflicts : dict (list pos))
  : outcome SudokuSolver :=
  let s1 := with_board s (set_cell_in_place refs (board s) (fst var)
                                            (snd var) 0%Z) in
  let s2 := with_domains s1 old_domains in
  let s3 := with_conflict_sets s2 old_conflicts in
  match assignment_order s3 with
  | [] => Raise IndexError
  | _ :: _ =>
      Done (with_assignment_order s3 (removelast (assignment_order s3)))
  end.

Fixpoint try_values (recurse : SudokuSolver -> outcome search_result)
         (fuel : nat) (var : pos) (values : list Z)
         (current_conflicts : list pos) (s : SudokuSolver)
  : outcome search_result :=
  match values with
  | [] =>
      Done (false, current_conflicts,
            with_conflict_sets s
              (dict_set (conflict_sets s) var current_conflicts))
  | value :: rest =>
      if is_safe (board s) var value then
        let old_domains := domains s in
        let old_conflicts := conflict_sets s in
        s1 <- assign s var value ;;
        let '(fc_conflicts, s2) :=
          if use_forward_checking s1
          then forward_check_with_conflicts s1 var value
          else (None, s1) in
        match fc_conflicts with
        | Some fc =>
            s3 <- restore_state s2 var old_domains old_conflicts ;;
            try_values recurse fuel var rest
              (pos_update current_conflicts (pos_minus fc var)) s3
        | None =>
            '(ac3_conflicts, s3) <-
              (if use_ac3 s2 then ac3_with_conflicts fuel s2
               else Done (None, s2)) ;;
            match ac3_conflicts with
            | Some ac =>
                s4 <- restore_state s3 var old_domains old_conflicts ;;
                try_values recurse fuel var rest
                  (pos_update current_conflicts (pos_minus ac var)) s4
            | None =>
                '(success, new_conflicts, s4) <- recurse s3 ;;
                if success : bool then Done (true, [], s4)
                else
                  s5 <- restore_state s4 var old_domains old_conflicts ;;
                  try_values recurse fuel var rest
                    (pos_update current_conflicts (pos_minus new_conflicts var))
                    s5
            end
        end
      else try_values recurse fuel var rest current_conflicts s
  end.

Fixpoint backtrack_with_conflicts (fuel : nat) (s : SudokuSolver)
  : outcome search_result :=
  match fuel with
  | O => OutOfFuel
  | S fuel' =>
      match get_next_variable s with
      | None => Done (true, [], s)
      | Some var =>
          values <- get_ordered_values s var ;;
          try_values (backtrack_with_conflicts fuel') fuel' var values [] s
      end
  end.

Definition solve (fuel : nat) (s : SudokuSolver)
  : outcome (bool * SudokuSolver) :=
  '(initial_conflicts, s1) <-
    (if use_ac3 s then ac3_with_conflicts fuel s else Done (None, s)) ;;
  match initial_conflicts with
  | Some _ => Done (false, s1)
  | None =>
      '(success, _, s2) <- backtrack_with_conflicts fuel s1 ;;
      Done (success, s2)
  end.

End Solver.

(** [SudokuSolver(board, ...).solve()] on a board of rows [refs]. *)
Definition run {iteration : SetIteration} (refs : board_ref) (fuel : nat)
           (brd : pyboard) (mrv fc ac3 lcv : bool)
  : outcome (bool * SudokuSolver) :=
  s <- init brd mrv fc ac3 lcv ;; solve refs fuel s.

End InPlace.

(** ** The constructor on the objects of the interpreter *)

(** The board handed to the constructor is a list object whose items are
    row objects; the constructor creates a dictionary and, for each empty
    cell, a set, and [discard] changes such a set in place. Here the
    objects live in a heap and are named by their address, so that a write
    to an object of the caller could be expressed. *)
Module Heap.

Inductive obj : Type :=
  | Rows (rows : list nat)
  | Cells (cells : list pyval)
  | Digits (values : list Z)
  | Domains (items : dict nat)
  | Conflicts (items : dict (list pos))
  | Order (cells : list pos).

Definition heap := list obj.

Inductive raised : Type := Exn (e : exn) | TypeError.

(** A statement: it reads and writes the heap, and returns or raises. *)
Definition M (A : Type) : Type := heap -> (A * heap) + raised.

Definition ret {A : Type} (a : A) : M A := fun h => inl (a, h).
Definition throw {A : Type} (e : raised) : M A := fun _ => inr e.
Definition mbind {A B : Type} (m : M A) (k : A -> M B) : M B :=
  fun h => match m h with
           | inl (a, h') => k a h'
           | inr e => inr e
           end.

Notation "x <~ m ;; k" := (mbind m (fun x => k))
  (at level 61, m at next level, right associativity).

(** a new object *)
Definition alloc (o : obj) : M nat := fun h => inl (length h, h ++ [o]).

(** [board[i][j]] *)
Definition getitem2 (b i j : nat) : M pyval := fun h =>
  match nth_error h b with
  | Some (Rows rows) =>
      match nth_error rows i with
      | Some r =>
          match nth_error h r with
          | Some (Cells cells) =>
              match nth_error cells j with
              | Some x => inl (x, h)
              | None => inr (Exn IndexError)
              end
          | _ => inr TypeError
          end
      | None => inr (Exn IndexError)
      end
  | _ => inr TypeError
  end.

(** [board[i][j] = v], the write that the search makes; the constructor
    has no such statement. *)
Definition setitem2 (b i j : nat) (v : pyval) : M unit := fun h =>
  match nth_error h b with
  | Some (Rows rows) =>
      match nth_error rows i with
      | Some r =>
          match nth_error h r with
          | Some (Cells cells) =>
              if j <? length cells
              then inl (tt, list_set h r (Cells (list_set cells j v)))
              else inr (Exn IndexError)
          | _ => inr TypeError
          end
      | None => inr (Exn IndexError)
      end
  | _ => inr TypeError
  end.

(** [k in domains] *)
Definition contains (d : nat) (k : pos) : M bool := fun h =>
  match nth_error h d with
  | Some (Domains items) => inl (dict_mem k items, h)
  | _ => inr TypeError
  end.

(** [domains[k]] *)
Definition getitem (d : nat) (k : pos) : M nat := fun h =>
  match nth_error h d with
  | Some (Domains items) =>
      match dict_get k items with
      | Some a => inl (a, h)
      | None => inr (Exn KeyError)
      end
  | _ => inr TypeError
  end.

(** [domains[k] = a] *)
Definition setitem (d : nat) (k : pos) (a : nat) : M unit := fun h =>
  match nth_error h d with
  | Some (Domains items) =>
      inl (tt, list_set h d (Domains (dict_set items k a)))
  | _ => inr TypeError
  end.

(** [a.discard(v)] *)
Definition set_discard (a : nat) (v : Z) : M unit := fun h =>
  match nth_error h a with
  | Some (Digits values) => inl (tt, list_set h a (Digits (discard v values)))
  | _ => inr TypeError
  end.

Fixpoint for_each {A : Type} (l : list A) (body : A -> M unit) : M unit :=
  match l with
  | [] => ret tt
  | x :: t => _ <~ body x ;; for_each t body
  end.

(** [if self.board[i][j] != self.empty:
        domains[pos].discard(self.board[i][j])]; the board has passed
    [is_valid_board] when its cells are read, and [int_of] gives the
    integer that a cell is. *)
Definition strike (b d : nat) (p : pos) (i j : nat) : M unit :=
  x <~ getitem2 b i j ;;
  if negb (int_of x =? 0)%Z
  then a <~ getitem d p ;; y <~ getitem2 b i j ;; set_discard a (int_of y)
  else ret tt.

Definition update_domain (b d : nat) (p : pos) : M unit :=
  c <~ contains d p ;;
  if negb c then ret tt
  else
    let (row, col) := p in
    _ <~ for_each range9 (fun j => strike b d p row j) ;;
    _ <~ for_each range9 (fun i => strike b d p i col) ;;
    let box_row := 3 * (row / 3) in
    let box_col := 3 * (col / 3) in
    for_each (seq box_row 3)
             (fun i => for_each (seq box_col 3) (fun j => strike b d p i j)).

Definition initialize_domains (b : nat) : M nat :=
  d <~ alloc (Domains []) ;;
  _ <~ for_each range9 (fun i =>
         for_each range9 (fun j =>
           x <~ getitem2 b i j ;;
           if (int_of x =? 0)%Z
           then a <~ alloc (Digits digits) ;;
                _ <~ setitem d (i, j) a ;;
                update_domain b d (i, j)
           else ret tt)) ;;
  ret d.

(** The attributes of the solver object. *)
Record solver : Type := mkSolver {
  board : nat;
  use_mrv : bool;
  use_forward_checking : bool;
  use_ac3 : bool;
  use_lcv : bool;
  domains : nat;
  conflict_sets : nat;
  assignment_order : nat
}.

(** What a list of rows holds, when each of its items is a row. *)
Definition cells_at (h : heap) (a : nat) : option (list pyval) :=
  match nth_error h a with
  | Some (Cells cells) => Some cells
  | _ => None
  end.

Fixpoint rows_at (h : heap) (rows : list nat) : option pyboard :=
  match rows with
  | [] => Some []
  | a :: t =>
      match cells_at h a, rows_at h t with
      | Some r, Some rs => Some (r :: rs)
      | _, _ => None
      end
  end.

Definition board_at (h : heap) (b : nat) : option pyboard :=
  match nth_error h b with
  | Some (Rows rows) => rows_at h rows
  | _ => None
  end.

(** What a dictionary of sets holds. *)
Fixpoint sets_at (h : heap) (items : dict nat) : option domain_map :=
  match items with
  | [] => Some []
  | (k, a) :: t =>
      match nth_error h a, sets_at h t with
      | Some (Digits values), Some rest => Some ((k, values) :: rest)
      | _, _ => None
      end
  end.

Definition domains_at (h : heap) (d : nat) : option domain_map :=
  match nth_error h d with
  | Some (Domains items) => sets_at h items
  | _ => None
  end.

(** [is_valid_board(board)] has no assignment and calls no method of the
    board: it reads the board. *)
Definition read_board (b : nat) : M pyboard := fun h =>
  match board_at h b with
  | Some brd => inl (brd, h)
  | None => inr TypeError
  end.

(** [SudokuSolver(board, use_mrv, use_forward_checking, use_ac3, use_lcv)],
    [board] being the address of the caller's list. *)
Definition init (b : nat) (mrv fc ac3 lcv : bool) : M solver :=
  brd <~ read_board b ;;
  if negb (is_valid_board brd) then throw (Exn ValueError)
  else
    d <~ initialize_domains b ;;
    c <~ alloc (Conflicts []) ;;
    o <~ alloc (Order []) ;;
    ret (mkSolver b mrv fc ac3 lcv d c o).

End Heap.

(** * Vocabulary of the statements *)

Definition in_range (p : pos) : Prop := fst p < 9 /\ snd p < 9.

Definition cellp (b : grid) (p : pos) : Z := cell b (fst p) (snd p).

(** Two distinct cells of one row, column or box. *)
Definition peer (p q : pos) : bool :=
  negb (pos_eqb p q) && same_unit (fst p) (snd p) (fst q) (snd q).

(** A board of nine rows of nine cells. *)
Definition wf_grid (b : grid) : Prop :=
  length b = 9 /\ Forall (fun row => length row = 9) b.

(** The keys of a dictionary, in iteration order. *)
Definition keys {V : Type} (d : dict V) : list pos := map fst d.

(** No two peers carry the same non-zero value. *)
Definition consistent (b : grid) : Prop :=
  forall p q, in_range p -> in_range q -> peer p q = true ->
              cellp b p <> 0%Z -> cellp b p <> cellp b q.

(** [g] completes [b]: it keeps the filled cells of [b] and gives every empty
    cell of [b] a digit that none of its peers carries in [g]. *)
Definition fills (b g : grid) : Prop :=
  wf_grid g /\
  (forall p, in_range p -> cellp b p <> 0%Z -> cellp g p = cellp b p) /\
  (forall p, in_range p -> cellp b p = 0%Z ->
     (1 <= cellp g p <= 9)%Z /\
     forall q, in_range q -> peer q p = true -> cellp g q <> cellp g p).

(** * Elementary facts *)

Arguments range9 : simpl never.
Arguments all_positions : simpl never.
Arguments digits : simpl never.

Ltac div3 x :=
  let H1 := fresh in let H2 := fresh in
  pose proof (Nat.div_mod_eq x 3) as H1;
  pose proof (Nat.mod_upper_bound x 3) as H2.

Lemma pos_eqb_eq (p q : pos) : pos_eqb p q = true <-> p = q.
Proof.
  destruct p as [a b], q as [c d]; unfold pos_eqb; simpl.
  rewrite andb_true_iff, !Nat.eqb_eq. split.
  - intros [-> ->]; reflexivity.
  - intros H; inversion H; auto.
Qed.

Lemma pos_eqb_refl (p : pos) : pos_eqb p p = true.
Proof. apply pos_eqb_eq; reflexivity. Qed.

Lemma pos_eqb_neq (p q : pos) : pos_eqb p q = false <-> p <> q.
Proof.
  rewrite <- pos_eqb_eq. destruct (pos_eqb p q); split; congruence.
Qed.

Lemma pos_eqb_sym (p q : pos) : pos_eqb p q = pos_eqb q p.
Proof.
  destruct (pos_eqb p q) eqn:E.
  - apply pos_eqb_eq in E; subst; symmetry; apply pos_eqb_refl.
  - symmetry; apply pos_eqb_neq. apply pos_eqb_neq in E. congruence.
Qed.

Lemma pos_eq_dec (p q : pos) : {p = q} + {p <> q}.
Proof. decide equality; apply Nat.eq_dec. Defined.

Lemma in_range9 (i : nat) : In i range9 <-> i < 9.
Proof. unfold range9. rewrite in_seq. lia. Qed.

Lemma in_all_positions (p : pos) : In p all_positions <-> in_range p.
Proof.
  unfold all_positions, in_range. rewrite in_flat_map. split.
  - intros [i [Hi Hp]]. apply in_map_iff in Hp as [j [<- Hj]].
    apply in_range9 in Hi, Hj. simpl; auto.
  - intros [Hi Hj]. exists (fst p). split; [apply in_range9; auto|].
    apply in_map_iff. exists (snd p). split; [destruct p; auto|].
    apply in_range9; auto.
Qed.

Lemma NoDup_all_positions : NoDup all_positions.
Proof.
  replace all_positions with (nodup pos_eq_dec all_positions)
    by (vm_compute; reflexivity).
  apply NoDup_nodup.
Qed.

Lemma same_unit_sym (i j r c : nat) : same_unit i j r c = same_unit r c i j.
Proof.
  unfold same_unit.
  rewrite (Nat.eqb_sym i r), (Nat.eqb_sym j c),
          (Nat.eqb_sym (i / 3) (r / 3)), (Nat.eqb_sym (j / 3) (c / 3)).
  reflexivity.
Qed.

Lemma peer_sym (p q : pos) : peer p q = peer q p.
Proof. unfold peer. rewrite pos_eqb_sym, same_unit_sym. reflexivity. Qed.

Lemma same_unit_true (i j r c : nat) :
  same_unit i j r c = true <->
  i = r \/ j = c \/ (i / 3 = r / 3 /\ j / 3 = c / 3).
Proof.
  unfold same_unit.
  rewrite !orb_true_iff, andb_true_iff, !Nat.eqb_eq. tauto.
Qed.

Lemma in_box_seq (i r : nat) :
  In i (seq (3 * (r / 3)) 3) <-> i / 3 = r / 3.
Proof. rewrite in_seq. div3 i. div3 r. lia. Qed.

Lemma box_seq_range (i r : nat) :
  r < 9 -> In i (seq (3 * (r / 3)) 3) -> i < 9.
Proof. rewrite in_seq. div3 r. lia. Qed.

(** ** Lists and boards *)

Lemma list_set_length {A : Type} (l : list A) (n : nat) (x : A) :
  length (list_set l n x) = length l.
Proof.
  revert n; induction l as [|h t IH]; intros [|n]; simpl; auto.
Qed.

Lemma nth_list_set {A : Type} (l : list A) (n m : nat) (x d : A) :
  n < length l ->
  nth m (list_set l n x) d = if m =? n then x else nth m l d.
Proof.
  revert n m; induction l as [|h t IH]; intros [|n] [|m]; simpl;
    try lia; auto.
  intros H. rewrite IH by lia. reflexivity.
Qed.

Lemma list_set_same {A : Type} (l : list A) (n : nat) (d : A) :
  list_set l n (nth n l d) = l.
Proof.
  revert n; induction l as [|h t IH]; intros [|n]; simpl; auto.
  rewrite IH; reflexivity.
Qed.

Lemma list_set_twice {A : Type} (l : list A) (n : nat) (x y : A) :
  list_set (list_set l n x) n y = list_set l n y.
Proof.
  revert n; induction l as [|h t IH]; intros [|n]; simpl; auto.
  rewrite IH; reflexivity.
Qed.

Lemma list_set_overflow {A : Type} (l : list A) (n : nat) (x : A) :
  length l <= n -> list_set l n x = l.
Proof.
  revert n; induction l as [|h t IH]; intros [|n]; simpl; auto; try lia.
  intros H. rewrite IH by lia. reflexivity.
Qed.

Lemma list_set_Forall {A : Type} (P : A -> Prop) (l : list A) (n : nat) (x : A) :
  Forall P l -> P x -> Forall P (list_set l n x).
Proof.
  intros Hl Hx. revert n; induction Hl; intros [|n]; simpl; auto.
Qed.

Lemma wf_grid_row (b : grid) (i : nat) :
  wf_grid b -> i < 9 -> length (nth i b []) = 9.
Proof.
  intros [Hlen Hrows] Hi. rewrite Forall_forall in Hrows.
  apply Hrows. apply nth_In. lia.
Qed.

Lemma wf_set_cell (b : grid) (i j : nat) (v : Z) :
  wf_grid b -> wf_grid (set_cell b i j v).
Proof.
  intros [Hlen Hrows]. unfold set_cell. split.
  - rewrite list_set_length; auto.
  - destruct (Nat.lt_ge_cases i 9) as [Hi|Hi].
    + apply list_set_Forall; auto. rewrite list_set_length.
      apply wf_grid_row; [split|]; auto.
    + rewrite list_set_overflow by lia. auto.
Qed.

Lemma cell_set_cell (b : grid) (i j i' j' : nat) (v : Z) :
  wf_grid b -> i < 9 -> j < 9 ->
  cell (set_cell b i j v) i' j' =
  if (i' =? i) && (j' =? j) then v else cell b i' j'.
Proof.
  intros Hwf Hi Hj. unfold cell, set_cell.
  rewrite nth_list_set by (destruct Hwf; lia).
  destruct (i' =? i) eqn:Ei; simpl; auto.
  apply Nat.eqb_eq in Ei; subst i'.
  rewrite nth_list_set by (rewrite wf_grid_row; auto).
  reflexivity.
Qed.

Lemma cellp_set_cell (b : grid) (p q : pos) (v : Z) :
  wf_grid b -> in_range p ->
  cellp (set_cell b (fst p) (snd p) v) q =
  if pos_eqb q p then v else cellp b q.
Proof.
  intros Hwf [Hi Hj]. unfold cellp. rewrite cell_set_cell; auto.
Qed.

Lemma set_cell_undo (b : grid) (i j : nat) (v : Z) :
  cell b i j = 0%Z -> i < length b -> j < length (nth i b []) ->
  set_cell (set_cell b i j v) i j 0 = b.
Proof.
  intros Hc Hi Hj. unfold set_cell.
  rewrite list_set_twice.
  rewrite (nth_list_set _ _ _ _ Hi), Nat.eqb_refl.
  rewrite list_set_twice. unfold cell in Hc. rewrite <- Hc.
  rewrite list_set_same. apply list_set_same.
Qed.

(** ** Dictionaries *)

Section DictFacts.
Variable V : Type.
Implicit Types (d : dict V) (k p : pos).

Lemma dict_mem_keys k d : dict_mem k d = true <-> In k (keys d).
Proof.
  unfold dict_mem, keys. rewrite existsb_exists, in_map_iff.
  split; intros [kv [H1 H2]]; exists kv.
  - apply pos_eqb_eq in H2; auto.
  - split; auto. apply pos_eqb_eq; auto.
Qed.

Lemma dict_get_In k d v : dict_get k d = Some v -> In (k, v) d.
Proof.
  induction d as [|[k' v'] t IH]; simpl; [discriminate|].
  destruct (pos_eqb k' k) eqn:E.
  - apply pos_eqb_eq in E; subst. intros [= ->]; auto.
  - auto.
Qed.

Lemma dict_get_keys k d : In k (keys d) <-> exists v, dict_get k d = Some v.
Proof.
  induction d as [|[k' v'] t IH]; simpl.
  - split; [tauto | intros [v H]; discriminate].
  - destruct (pos_eqb k' k) eqn:E.
    + apply pos_eqb_eq in E; subst. split; eauto.
    + apply pos_eqb_neq in E. rewrite <- IH. split; [intros [H|H]|]; tauto.
Qed.

Lemma dict_get_none k d : dict_get k d = None <-> ~ In k (keys d).
Proof.
  rewrite dict_get_keys. destruct (dict_get k d).
  - split; [discriminate | intros H; exfalso; eauto].
  - split; auto. intros _ [v H]; discriminate.
Qed.

Lemma keys_dict_upd d k (f : V -> V) : keys (dict_upd d k f) = keys d.
Proof.
  unfold keys, dict_upd. rewrite map_map. apply map_ext.
  intros [a b]; simpl. destruct (pos_eqb a k); reflexivity.
Qed.

Lemma In_dict_upd d k (f : V -> V) p v' :
  In (p, v') (dict_upd d k f) ->
  exists v, In (p, v) d /\ v' = if pos_eqb p k then f v else v.
Proof.
  unfold dict_upd. rewrite in_map_iff. intros [[a b] [H1 H2]]. simpl in H1.
  exists b.
  destruct (pos_eqb a k) eqn:E; inversion H1; subst; rewrite E; auto.
Qed.

Lemma dict_get_upd d k (f : V -> V) p :
  dict_get p (dict_upd d k f) =
  if pos_eqb p k then option_map f (dict_get p d) else dict_get p d.
Proof.
  induction d as [|[a b] t IH]; simpl.
  - destruct (pos_eqb p k); reflexivity.
  - destruct (pos_eqb a k) eqn:E1; simpl; destruct (pos_eqb a p) eqn:E2; auto.
    + apply pos_eqb_eq in E1, E2; subst. rewrite pos_eqb_refl. reflexivity.
    + apply pos_eqb_eq in E2; subst. rewrite E1. reflexivity.
Qed.

Lemma dict_upd_id d k : dict_upd d k (fun v => v) = d.
Proof.
  unfold dict_upd. rewrite <- (map_id d) at 2. apply map_ext.
  intros [a b]; simpl. destruct (pos_eqb a k); reflexivity.
Qed.

Lemma dict_upd_upd d k (f g : V -> V) :
  dict_upd (dict_upd d k f) k g = dict_upd d k (fun v => g (f v)).
Proof.
  unfold dict_upd. rewrite map_map. apply map_ext.
  intros [a b]; simpl. destruct (pos_eqb a k) eqn:E; simpl; rewrite E; auto.
Qed.

Lemma dict_upd_ext d k (f g : V -> V) :
  (forall v, f v = g v) -> dict_upd d k f = dict_upd d k g.
Proof.
  intros H. unfold dict_upd. apply map_ext.
  intros [a b]; simpl. rewrite H. reflexivity.
Qed.

Lemma dict_upd_absent d k (f : V -> V) :
  ~ In k (keys d) -> dict_upd d k f = d.
Proof.
  intros H. unfold dict_upd. rewrite <- (map_id d) at 2. apply map_ext_in.
  intros [a b] Hin; simpl. destruct (pos_eqb a k) eqn:E; auto.
  apply pos_eqb_eq in E; subst. exfalso; apply H.
  unfold keys. apply in_map_iff. exists (k, b); auto.
Qed.

Lemma dict_upd_app d1 d2 k (f : V -> V) :
  dict_upd (d1 ++ d2) k f = dict_upd d1 k f ++ dict_upd d2 k f.
Proof. unfold dict_upd. apply map_app. Qed.

Lemma dict_set_absent d k v :
  ~ In k (keys d) -> dict_set d k v = d ++ [(k, v)].
Proof.
  induction d as [|[a b] t IH]; simpl; auto.
  intros H. destruct (pos_eqb a k) eqn:E.
  - apply pos_eqb_eq in E; subst. tauto.
  - rewrite IH by tauto. reflexivity.
Qed.

Lemma keys_dict_del d k :
  keys (dict_del d k) = filter (fun p => negb (pos_eqb p k)) (keys d).
Proof.
  unfold keys, dict_del. induction d as [|[a b] t IH]; simpl; auto.
  destruct (pos_eqb a k); simpl; rewrite IH; reflexivity.
Qed.

Lemma In_dict_del d k p v :
  In (p, v) (dict_del d k) <-> In (p, v) d /\ p <> k.
Proof.
  unfold dict_del. rewrite filter_In. simpl.
  rewrite negb_true_iff, pos_eqb_neq. tauto.
Qed.

Lemma In_keys d p v : In (p, v) d -> In p (keys d).
Proof. intros H. unfold keys. apply in_map_iff. exists (p, v); auto. Qed.

End DictFacts.

(** ** Sorting and set iteration *)

Lemma In_insert_sorted {A : Type} (key : A -> Z) (x y : A) (l : list A) :
  In y (insert_sorted key x l) <-> y = x \/ In y l.
Proof.
  induction l as [|h t IH]; simpl.
  - split; intros [H|H]; auto.
  - destruct (key x <=? key h)%Z; simpl.
    + split; intros [H|H]; auto.
    + rewrite IH. split; intros H; tauto.
Qed.

Lemma In_sorted {A : Type} (key : A -> Z) (y : A) (l : list A) :
  In y (sorted key l) <-> In y l.
Proof.
  unfold sorted. induction l as [|h t IH]; simpl; [tauto|].
  rewrite In_insert_sorted, IH. split; intros [H|H]; auto.
Qed.

Lemma In_iter_values {iteration : SetIteration} (l : list Z) (x : Z) :
  In x (iter_values l) <-> In x l.
Proof.
  split; apply Permutation_in;
    [apply iter_values_perm | apply Permutation_sym, iter_values_perm].
Qed.

Lemma In_iter_cells {iteration : SetIteration} (l : list pos) (x : pos) :
  In x (iter_cells l) <-> In x l.
Proof.
  split; apply Permutation_in;
    [apply iter_cells_perm | apply Permutation_sym, iter_cells_perm].
Qed.

Lemma In_discard (v x : Z) (s : list Z) :
  In x (discard v s) <-> In x s /\ x <> v.
Proof.
  unfold discard. rewrite filter_In, negb_true_iff, Z.eqb_neq. tauto.
Qed.

Lemma existsb_In_eqb (v : Z) (l : list Z) :
  existsb (Z.eqb v) l = true <-> In v l.
Proof.
  rewrite existsb_exists. split.
  - intros [x [Hx E]]. apply Z.eqb_eq in E. subst; auto.
  - intros H. exists v. split; auto. apply Z.eqb_refl.
Qed.

Lemma discard_length (v : Z) (s : list Z) : length (discard v s) <= length s.
Proof. apply filter_length_le. Qed.

Lemma discard_length_lt (v : Z) (s : list Z) :
  In v s -> length (discard v s) < length s.
Proof.
  unfold discard. induction s as [|h t IH]; simpl; [tauto|].
  intros [->|H].
  - rewrite Z.eqb_refl; simpl.
    pose proof (filter_length_le (fun x => negb (x =? v)%Z) t). lia.
  - specialize (IH H). destruct (negb (h =? v)%Z); simpl; lia.
Qed.

(** ** The three scans over a row, a column and a box *)

Lemma existsb_false {A : Type} (f : A -> bool) (l : list A) :
  existsb f l = false <-> forall x, In x l -> f x = false.
Proof.
  induction l as [|h t IH]; simpl.
  - split; [intros _ x [] | auto].
  - rewrite orb_false_iff, IH. split.
    + intros [H1 H2] x [<-|Hx]; auto.
    + intros H; split; auto.
Qed.

(** [scan3 b p f]: some cell of the row, the column or the box of [p]
    satisfies [f], scanning in the order of [is_safe]. *)
Definition scan3 (p : pos) (f : nat -> nat -> bool) : bool :=
  existsb (fun j => f (fst p) j) range9
  || existsb (fun i => f i (snd p)) range9
  || existsb (fun i => existsb (fun j => f i j) (seq (3 * (snd p / 3)) 3))
             (seq (3 * (fst p / 3)) 3).

Lemma scan3_false (p : pos) (f : nat -> nat -> bool) :
  in_range p ->
  (scan3 p f = false <->
   forall q, in_range q ->
             same_unit (fst q) (snd q) (fst p) (snd p) = true ->
             f (fst q) (snd q) = false).
Proof.
  intros [Hr Hc]. unfold scan3.
  rewrite !orb_false_iff, !existsb_false. split.
  - intros [[H1 H2] H3] [i j] [Hi Hj] Hu; cbn [fst snd] in *.
    apply same_unit_true in Hu as [->|[->|[Hbi Hbj]]].
    + apply H1, in_range9; auto.
    + apply H2, in_range9; auto.
    + apply in_box_seq in Hbi, Hbj.
      specialize (H3 i Hbi). cbv beta in H3.
      rewrite existsb_false in H3. auto.
  - intros H. repeat split.
    + intros j Hj. apply in_range9 in Hj.
      apply (H (fst p, j)); [split; simpl; auto|].
      simpl. apply same_unit_true; auto.
    + intros i Hi. apply in_range9 in Hi.
      apply (H (i, snd p)); [split; simpl; auto|].
      simpl. apply same_unit_true; auto.
    + intros i Hi. apply existsb_false. intros j Hj.
      apply (H (i, j)).
      * split; simpl; [apply (box_seq_range Hr Hi) | apply (box_seq_range Hc Hj)].
      * simpl. apply same_unit_true. right; right.
        apply in_box_seq in Hi, Hj; auto.
Qed.

Lemma is_safe_scan (b : grid) (p : pos) (value : Z) :
  is_safe b p value = negb (scan3 p (fun i j => (cell b i j =? value)%Z)).
Proof.
  destruct p as [row col]. unfold is_safe, scan3; cbn [fst snd].
  repeat match goal with
         | |- context [existsb ?f ?l] => destruct (existsb f l)
         end; reflexivity.
Qed.

Lemma is_safe_true (b : grid) (p : pos) (value : Z) :
  in_range p ->
  (is_safe b p value = true <->
   forall q, in_range q ->
             same_unit (fst q) (snd q) (fst p) (snd p) = true ->
             cellp b q <> value).
Proof.
  intros Hp. rewrite is_safe_scan, negb_true_iff, scan3_false by auto.
  split; intros H q Hq Hu; specialize (H q Hq Hu).
  - apply Z.eqb_neq in H; auto.
  - apply Z.eqb_neq; auto.
Qed.

Lemma is_safe_false (b : grid) (p : pos) (value : Z) :
  in_range p -> is_safe b p value = false ->
  exists q, in_range q /\ same_unit (fst q) (snd q) (fst p) (snd p) = true
            /\ cellp b q = value.
Proof.
  intros [Hr Hc] H. rewrite is_safe_scan, negb_false_iff in H.
  unfold scan3 in H. rewrite !orb_true_iff, !existsb_exists in H.
  destruct H as [[[j [Hj H]]|[i [Hi H]]]|[i [Hi H]]].
  - apply in_range9 in Hj. apply Z.eqb_eq in H. exists (fst p, j).
    repeat split; simpl; auto. apply same_unit_true; auto.
  - apply in_range9 in Hi. apply Z.eqb_eq in H. exists (i, snd p).
    repeat split; simpl; auto. apply same_unit_true; auto.
  - apply existsb_exists in H as [j [Hj H]]. apply Z.eqb_eq in H.
    exists (i, j). repeat split; simpl; auto.
    + apply (box_seq_range Hr Hi).
    + apply (box_seq_range Hc Hj).
    + apply same_unit_true. right; right.
      apply in_box_seq in Hi, Hj; auto.
Qed.

Lemma peer_same_unit (q p : pos) :
  peer q p = true <->
  q <> p /\ same_unit (fst q) (snd q) (fst p) (snd p) = true.
Proof.
  unfold peer. rewrite andb_true_iff, negb_true_iff, pos_eqb_neq. tauto.
Qed.

(** ** Domains at construction *)

(** What [update_domain] leaves of the set stored under [p]. *)
Definition strike (b : grid) (p : pos) (dom : list Z) : list Z :=
  let (row, col) := p in
  let hit (s : list Z) (i j : nat) : list Z :=
    if negb (cell b i j =? 0)%Z then discard (cell b i j) s else s in
  let s1 := fold_left (fun s j => hit s row j) range9 dom in
  let s2 := fold_left (fun s i => hit s i col) range9 s1 in
  fold_left (fun s i => fold_left (fun s' j => hit s' i j)
                                  (seq (3 * (col / 3)) 3) s)
            (seq (3 * (row / 3)) 3) s2.

Lemma fold_left_ext {A B : Type} (f g : A -> B -> A) (l : list B) (a : A) :
  (forall a x, f a x = g a x) -> fold_left f l a = fold_left g l a.
Proof.
  intros H. revert a; induction l as [|h t IH]; intros a; simpl; auto.
  rewrite H. apply IH.
Qed.

Lemma fold_dict_upd {X : Type} (h : X -> list Z -> list Z) (l : list X)
      (d : domain_map) (p : pos) :
  fold_left (fun d x => dict_upd d p (h x)) l d =
  dict_upd d p (fun s => fold_left (fun s x => h x s) l s).
Proof.
  revert d; induction l as [|x t IH]; intros d; simpl.
  - symmetry. apply dict_upd_id.
  - rewrite IH, dict_upd_upd. reflexivity.
Qed.

Lemma fold_strike {X : Type} (c : X -> bool) (v : X -> Z) (l : list X)
      (d : domain_map) (p : pos) :
  fold_left (fun d x => if c x then dict_upd d p (discard (v x)) else d) l d =
  dict_upd d p (fun s => fold_left (fun s x => if c x then discard (v x) s else s) l s).
Proof.
  revert d; induction l as [|x t IH]; intros d; simpl.
  - symmetry. apply dict_upd_id.
  - destruct (c x); rewrite IH; [rewrite dict_upd_upd|]; reflexivity.
Qed.

Lemma update_domain_upd (b : grid) (p : pos) (d : domain_map) :
  update_domain b p d = dict_upd d p (strike b p).
Proof.
  unfold update_domain. destruct (dict_mem p d) eqn:Hm; cbn [negb].
  - destruct p as [row col]. unfold strike. cbv beta iota zeta.
    rewrite (fold_strike (fun j => negb (cell b row j =? 0)%Z)
                         (fun j => cell b row j)).
    rewrite (fold_strike (fun i => negb (cell b i col =? 0)%Z)
                         (fun i => cell b i col)).
    rewrite dict_upd_upd.
    erewrite (fold_left_ext
                (fun d i => fold_left _ (seq (3 * (col / 3)) 3) d)).
    2:{ intros a i.
        apply (fold_strike (fun j => negb (cell b i j =? 0)%Z)
                           (fun j => cell b i j)). }
    rewrite (fold_dict_upd
               (fun i s => fold_left
                  (fun s' j => if negb (cell b i j =? 0)%Z
                               then discard (cell b i j) s' else s')
                  (seq (3 * (col / 3)) 3) s)).
    rewrite dict_upd_upd. reflexivity.
  - symmetry. apply dict_upd_absent. rewrite <- dict_mem_keys. congruence.
Qed.

Lemma In_fold_discard {X : Type} (c : X -> bool) (v : X -> Z) (l : list X)
      (s : list Z) (x0 : Z) :
  In x0 (fold_left (fun s x => if c x then discard (v x) s else s) l s) <->
  In x0 s /\ existsb (fun x => c x && (v x =? x0)%Z) l = false.
Proof.
  revert s; induction l as [|x t IH]; intros s; simpl.
  - tauto.
  - rewrite IH, orb_false_iff. destruct (c x); simpl.
    + rewrite In_discard, Z.eqb_neq. split; intros H; intuition congruence.
    + tauto.
Qed.

Lemma In_fold_discard2 {X Y : Type} (c : X -> Y -> bool) (v : X -> Y -> Z)
      (l : list X) (l' : list Y) (s : list Z) (x0 : Z) :
  In x0 (fold_left (fun s x =>
           fold_left (fun s' y => if c x y then discard (v x y) s' else s')
                     l' s) l s) <->
  In x0 s /\
  existsb (fun x => existsb (fun y => c x y && (v x y =? x0)%Z) l') l = false.
Proof.
  revert s; induction l as [|x t IH]; intros s; simpl.
  - tauto.
  - rewrite IH, orb_false_iff, (In_fold_discard (c x) (v x)). tauto.
Qed.

Lemma In_strike (b : grid) (p : pos) (dom : list Z) (x0 : Z) :
  in_range p ->
  (In x0 (strike b p dom) <->
   In x0 dom /\
   forall q, in_range q ->
             same_unit (fst q) (snd q) (fst p) (snd p) = true ->
             cellp b q <> 0%Z -> cellp b q <> x0).
Proof.
  intros Hp.
  assert (E : In x0 (strike b p dom) <->
              In x0 dom /\
              scan3 p (fun i j => negb (cell b i j =? 0)%Z
                                  && (cell b i j =? x0)%Z) = false).
  { destruct p as [row col]. unfold strike, scan3; cbn [fst snd].
    rewrite (In_fold_discard2 (fun i j => negb (cell b i j =? 0)%Z)
                              (fun i j => cell b i j)).
    rewrite (In_fold_discard (fun i => negb (cell b i col =? 0)%Z)
                             (fun i => cell b i col)).
    rewrite (In_fold_discard (fun j => negb (cell b row j =? 0)%Z)
                             (fun j => cell b row j)).
    rewrite !orb_false_iff. tauto. }
  rewrite E, scan3_false by auto.
  split; intros [H1 H2]; split; auto; intros q Hq Hu; specialize (H2 q Hq Hu).
  - intros Hz. unfold cellp.
    apply andb_false_iff in H2 as [H2|H2].
    + apply negb_false_iff, Z.eqb_eq in H2. contradiction.
    + apply Z.eqb_neq; auto.
  - apply andb_false_iff. unfold cellp in H2.
    destruct (cell b (fst q) (snd q) =? 0)%Z eqn:Ez; simpl; auto.
    right. apply Z.eqb_neq, H2. apply Z.eqb_neq; auto.
Qed.

Lemma strike_length (b : grid) (p : pos) (dom : list Z) :
  length (strike b p dom) <= length dom.
Proof.
  assert (F1 : forall X (c : X -> bool) (v : X -> Z) l s,
             length (fold_left (fun s x => if c x then discard (v x) s else s) l s)
             <= length s).
  { intros X c v l. induction l as [|x t IH]; intros s; simpl; auto.
    etransitivity; [apply IH|]. destruct (c x); auto. apply discard_length. }
  destruct p as [row col]. unfold strike.
  set (s1 := fold_left _ range9 dom).
  set (s2 := fold_left _ range9 s1).
  assert (H1 : length s1 <= length dom)
    by apply (F1 _ (fun j => negb (cell b row j =? 0)%Z) (fun j => cell b row j)).
  assert (H2 : length s2 <= length s1)
    by apply (F1 _ (fun i => negb (cell b i col =? 0)%Z) (fun i => cell b i col)).
  enough (H3 : forall l s,
             length (fold_left (fun s i => fold_left
                       (fun s' j => if negb (cell b i j =? 0)%Z
                                    then discard (cell b i j) s' else s')
                       (seq (3 * (col / 3)) 3) s) l s) <= length s).
  { specialize (H3 (seq (3 * (row / 3)) 3) s2). lia. }
  intros l. induction l as [|x t IH]; intros s; [simpl; auto|].
  cbn [fold_left]. etransitivity; [apply IH|].
  apply (F1 _ (fun j => negb (cell b x j =? 0)%Z) (fun j => cell b x j)).
Qed.

Lemma fold_left_flat_map {A B C : Type} (f : A -> C -> A) (g : B -> list C)
      (l : list B) (a : A) :
  fold_left f (flat_map g l) a = fold_left (fun a x => fold_left f (g x) a) l a.
Proof.
  revert a; induction l as [|x t IH]; intros a; simpl; auto.
  rewrite fold_left_app. apply IH.
Qed.

Lemma fold_left_map {A B C : Type} (f : A -> C -> A) (h : B -> C)
      (l : list B) (a : A) :
  fold_left f (map h l) a = fold_left (fun a x => f a (h x)) l a.
Proof.
  revert a; induction l as [|x t IH]; intros a; simpl; auto.
Qed.

(** The domain map built by the constructor, in closed form: one entry per
    empty cell, in row-major order. *)
Definition initial_domains (b : grid) : domain_map :=
  map (fun p => (p, strike b p digits))
      (filter (fun p => (cellp b p =? 0)%Z) all_positions).

Lemma initialize_domains_eq (b : grid) :
  initialize_domains b = initial_domains b.
Proof.
  set (F := fun (d : domain_map) (p : pos) =>
              if (cellp b p =? 0)%Z
              then update_domain b p (dict_set d p digits) else d).
  assert (E : initialize_domains b = fold_left F all_positions []).
  { unfold initialize_domains, all_positions.
    rewrite fold_left_flat_map. apply fold_left_ext. intros a i.
    rewrite fold_left_map. reflexivity. }
  rewrite E. unfold initial_domains.
  enough (G : forall l acc,
             NoDup l -> (forall p, In p l -> ~ In p (keys acc)) ->
             fold_left F l acc =
             acc ++ map (fun p => (p, strike b p digits))
                        (filter (fun p => (cellp b p =? 0)%Z) l)).
  { apply (G all_positions []); [apply NoDup_all_positions | auto]. }
  induction l as [|p t IH]; intros acc Hnd Hacc.
  - simpl. rewrite app_nil_r. reflexivity.
  - inversion Hnd as [|? ? Hp Ht]; subst.
    cbn [fold_left filter]. unfold F at 2.
    destruct (cellp b p =? 0)%Z eqn:Ez.
    + rewrite update_domain_upd, dict_set_absent by (apply Hacc; left; auto).
      rewrite dict_upd_app, dict_upd_absent by (apply Hacc; left; auto).
      unfold dict_upd at 1. cbn [map fst snd]. rewrite pos_eqb_refl.
      rewrite IH; auto.
      * rewrite <- app_assoc. reflexivity.
      * intros q Hq. unfold keys. rewrite map_app, in_app_iff. simpl.
        intros [H|[H|[]]].
        -- apply (Hacc q); [right; auto | exact H].
        -- subst; contradiction.
    + apply IH; auto. intros q Hq. apply Hacc; right; auto.
Qed.

Lemma keys_initial_domains (b : grid) :
  keys (initial_domains b) =
  filter (fun p => (cellp b p =? 0)%Z) all_positions.
Proof.
  unfold keys, initial_domains. rewrite map_map. cbn [fst]. apply map_id.
Qed.

(** * Invariants of the search *)

(** [v] is not carried by any cell of [b0] in the row, column or box of [p]. *)
Definition clue_free (b0 : grid) (p : pos) (v : Z) : Prop :=
  forall q, in_range q ->
            same_unit (fst q) (snd q) (fst p) (snd p) = true ->
            cellp b0 q <> v.

(** Every stored set holds at most nine digits, none of them a clue of the
    initial board [b0] in a unit of its cell. *)
Definition dom_ok (b0 : grid) (d : domain_map) : Prop :=
  forall p dom, In (p, dom) d ->
    length dom <= 9 /\
    forall v, In v dom -> (1 <= v <= 9)%Z /\ clue_free b0 p v.

(** The clues of [b0] are in place, and every value placed on an empty cell
    of [b0] is a digit that no peer carries. *)
Definition placed_ok (b0 b : grid) : Prop :=
  (forall p, in_range p -> cellp b0 p <> 0%Z -> cellp b p = cellp b0 p) /\
  (forall p, in_range p -> cellp b0 p = 0%Z -> cellp b p <> 0%Z ->
     (1 <= cellp b p <= 9)%Z /\
     forall q, in_range q -> peer q p = true -> cellp b q <> cellp b p).

Definition snap_ok (b0 : grid) (snap : grid * domain_map) : Prop :=
  wf_grid (fst snap) /\ placed_ok b0 (fst snap) /\ dom_ok b0 (snd snap).

(** The domains keep the value that any completion of the board gives to
    their cell. *)
Definition sound (b : grid) (d : domain_map) : Prop :=
  forall g, fills b g -> forall p dom, In (p, dom) d -> In (cellp g p) dom.

Record inv (b0 : grid) (s : SudokuSolver) : Prop := mkInv {
  inv_wf : wf_grid (board s);
  inv_keys : forall p, In p (keys (domains s)) <->
                       in_range p /\ cellp (board s) p = 0%Z;
  inv_nodup : NoDup (keys (domains s));
  inv_dom : dom_ok b0 (domains s);
  inv_placed : placed_ok b0 (board s);
  inv_sound : sound (board s) (domains s);
  inv_hist : Forall (snap_ok b0) (history s)
}.

Definition same_flags (s s' : SudokuSolver) : Prop :=
  use_mrv s' = use_mrv s /\
  use_forward_checking s' = use_forward_checking s /\
  use_ac3 s' = use_ac3 s /\ use_lcv s' = use_lcv s.

(** What a propagation step may change: the stored sets and the history. *)
Definition propagated (s s' : SudokuSolver) : Prop :=
  board s' = board s /\
  keys (domains s') = keys (domains s) /\
  assignment_order s' = assignment_order s /\
  conflict_sets s' = conflict_sets s /\
  same_flags s s'.

Lemma same_flags_refl s : same_flags s s.
Proof. repeat split. Qed.

Lemma same_flags_trans s1 s2 s3 :
  same_flags s1 s2 -> same_flags s2 s3 -> same_flags s1 s3.
Proof. unfold same_flags. intuition congruence. Qed.

Lemma propagated_refl s : propagated s s.
Proof. repeat split. Qed.

Lemma propagated_trans s1 s2 s3 :
  propagated s1 s2 -> propagated s2 s3 -> propagated s1 s3.
Proof. unfold propagated, same_flags. intuition congruence. Qed.

Lemma digits_range (v : Z) : In v digits <-> (1 <= v <= 9)%Z.
Proof. unfold digits. simpl. lia. Qed.

(** ** The board handed to the constructor *)

Lemma is_valid_board_spec (brd : pyboard) :
  is_valid_board brd = true <->
  length brd = 9 /\
  forall row, In row brd ->
    length row = 9 /\
    forall x, In x row -> exists z, x = PyInt z /\ (0 <= z <= 9)%Z.
Proof.
  unfold is_valid_board.
  destruct (length brd =? 9) eqn:E1; simpl.
  2:{ apply Nat.eqb_neq in E1. split; [discriminate | tauto]. }
  apply Nat.eqb_eq in E1.
  destruct (existsb (fun row => negb (length row =? 9)) brd) eqn:E2.
  { apply existsb_exists in E2 as [row [Hin Hr]].
    apply negb_true_iff, Nat.eqb_neq in Hr.
    split; [discriminate|]. intros [_ H]. destruct (H row Hin); tauto. }
  rewrite existsb_false in E2.
  destruct (existsb (fun row => existsb out_of_range row) brd) eqn:E3.
  { apply existsb_exists in E3 as [row [Hin Hr]].
    apply existsb_exists in Hr as [x [Hx Ho]].
    split; [discriminate|]. intros [_ H].
    destruct (H row Hin) as [_ H']. destruct (H' x Hx) as [z [-> Hz]].
    simpl in Ho. lia. }
  rewrite existsb_false in E3.
  split; auto. intros _. split; auto. intros row Hin. split.
  - specialize (E2 row Hin). apply negb_false_iff, Nat.eqb_eq in E2; auto.
  - intros x Hx. specialize (E3 row Hin). rewrite existsb_false in E3.
    specialize (E3 x Hx). destruct x as [z|]; simpl in E3; [|discriminate].
    exists z. split; auto. lia.
Qed.

Lemma wf_ints_of (brd : pyboard) :
  is_valid_board brd = true -> wf_grid (ints_of brd).
Proof.
  intros H. apply is_valid_board_spec in H as [Hlen Hrows].
  unfold wf_grid, ints_of. rewrite length_map. split; auto.
  apply Forall_forall. intros row Hin.
  apply in_map_iff in Hin as [r [<- Hr]]. rewrite length_map.
  apply Hrows; auto.
Qed.

Lemma ints_of_py_of (g : grid) : ints_of (py_of g) = g.
Proof.
  unfold ints_of, py_of. rewrite map_map. rewrite <- (map_id g) at 2.
  apply map_ext. intros row. rewrite map_map. apply map_id.
Qed.

Lemma py_of_ints_of (brd : pyboard) :
  is_valid_board brd = true -> py_of (ints_of brd) = brd.
Proof.
  intros H. apply is_valid_board_spec in H as [_ Hrows].
  unfold py_of, ints_of. rewrite map_map.
  rewrite <- (map_id brd) at 2. apply map_ext_in. intros row Hin.
  rewrite map_map. rewrite <- (map_id row) at 2. apply map_ext_in.
  intros x Hx. destruct (Hrows row Hin) as [_ H].
  destruct (H x Hx) as [z [-> _]]. reflexivity.
Qed.

Lemma init_done (brd : pyboard) (mrv fc ac3 lcv : bool) :
  is_valid_board brd = true ->
  init brd mrv fc ac3 lcv =
  Done (mkSolver (ints_of brd) mrv fc ac3 lcv
                 (initial_domains (ints_of brd)) [] []
                 [(ints_of brd, initial_domains (ints_of brd))]).
Proof.
  intros H. unfold init. rewrite H. cbn [negb].
  rewrite initialize_domains_eq. reflexivity.
Qed.

Lemma In_initial_domains (b : grid) (p : pos) (dom : list Z) :
  In (p, dom) (initial_domains b) <->
  in_range p /\ cellp b p = 0%Z /\ dom = strike b p digits.
Proof.
  unfold initial_domains. rewrite in_map_iff. split.
  - intros [q [E Hq]]. inversion E; subst.
    apply filter_In in Hq as [Hq Hz].
    apply in_all_positions in Hq. apply Z.eqb_eq in Hz. auto.
  - intros [Hr [Hz ->]]. exists p. split; auto.
    apply filter_In. split; [apply in_all_positions; auto|].
    apply Z.eqb_eq; auto.
Qed.

Lemma dom_ok_initial (b : grid) : dom_ok b (initial_domains b).
Proof.
  intros p dom Hin. apply In_initial_domains in Hin as [Hr [Hz ->]].
  split.
  - etransitivity; [apply strike_length|]. reflexivity.
  - intros v Hv. apply In_strike in Hv as [Hd Hc]; auto.
    apply digits_range in Hd. split; auto.
    intros q Hq Hu E. destruct (Z.eq_dec (cellp b q) 0) as [E0|E0].
    + lia.
    + exact (Hc q Hq Hu E0 E).
Qed.

Lemma sound_initial (b : grid) : sound b (initial_domains b).
Proof.
  intros g [Hwf [Hkeep Hfill]] p dom Hin.
  apply In_initial_domains in Hin as [Hr [Hz ->]].
  destruct (Hfill p Hr Hz) as [Hd Hpeers].
  apply In_strike; auto. split; [apply digits_range; auto|].
  intros q Hq Hu Hnz E.
  apply (Hpeers q Hq).
  - apply peer_same_unit. split; auto. intros ->. contradiction.
  - rewrite (Hkeep q Hq Hnz). exact E.
Qed.

Lemma placed_ok_refl (b : grid) : placed_ok b b.
Proof. split; [auto | intros p _ H1 H2; contradiction]. Qed.

Lemma inv_init (brd : pyboard) (mrv fc ac3 lcv : bool) (s : SudokuSolver) :
  init brd mrv fc ac3 lcv = Done s ->
  is_valid_board brd = true /\ inv (ints_of brd) s /\
  board s = ints_of brd /\
  domains s = initial_domains (ints_of brd) /\
  assignment_order s = [] /\
  use_mrv s = mrv /\ use_forward_checking s = fc /\
  use_ac3 s = ac3 /\ use_lcv s = lcv.
Proof.
  intros H. destruct (is_valid_board brd) eqn:Hv.
  2:{ unfold init in H. rewrite Hv in H. discriminate. }
  rewrite init_done in H by auto. inversion H; subst; clear H.
  cbn [board domains assignment_order use_mrv use_forward_checking
       use_ac3 use_lcv].
  split; auto. split; [|repeat split].
  constructor; cbn [board domains history].
  - apply wf_ints_of; auto.
  - intros p.
    rewrite keys_initial_domains, filter_In, in_all_positions, Z.eqb_eq. tauto.
  - rewrite keys_initial_domains. apply NoDup_filter, NoDup_all_positions.
  - apply dom_ok_initial.
  - apply placed_ok_refl.
  - apply sound_initial.
  - constructor; [|constructor]. split; [|split]; cbn [fst snd].
    + apply wf_ints_of; auto.
    + apply placed_ok_refl.
    + apply dom_ok_initial.
Qed.

(** ** Pruning steps *)

(** [d'] has the keys of [d] and, under each, a part of what [d] stores. *)
Definition pruned (d d' : domain_map) : Prop :=
  keys d' = keys d /\
  forall p dom', In (p, dom') d' ->
    exists dom, In (p, dom) d /\ incl dom' dom /\ length dom' <= length dom.

Lemma pruned_discard (d : domain_map) (k : pos) (v : Z) :
  pruned d (dict_upd d k (discard v)).
Proof.
  split; [apply keys_dict_upd|].
  intros p dom' Hin. apply In_dict_upd in Hin as [dom [Hin ->]].
  exists dom. split; auto. destruct (pos_eqb p k).
  - split; [|apply discard_length].
    intros x Hx. apply In_discard in Hx. tauto.
  - split; [apply incl_refl | auto].
Qed.

Lemma pruned_refl (d : domain_map) : pruned d d.
Proof.
  split; auto. intros p dom Hin. exists dom.
  split; auto. split; [apply incl_refl | auto].
Qed.

Lemma pruned_trans (d1 d2 d3 : domain_map) :
  pruned d1 d2 -> pruned d2 d3 -> pruned d1 d3.
Proof.
  intros [K1 P1] [K2 P2]. split; [congruence|].
  intros p dom' Hin. destruct (P2 p dom' Hin) as [dom2 [Hin2 [I2 L2]]].
  destruct (P1 p dom2 Hin2) as [dom [Hin1 [I1 L1]]].
  exists dom. split; auto. split; [|lia].
  intros x Hx; auto.
Qed.

Lemma dom_ok_pruned (b0 : grid) (d d' : domain_map) :
  dom_ok b0 d -> pruned d d' -> dom_ok b0 d'.
Proof.
  intros Hd [_ Hp] p dom' Hin.
  destruct (Hp p dom' Hin) as [dom [Hin' [Hincl Hlen]]].
  destruct (Hd p dom Hin') as [H1 H2]. split; [lia|].
  intros v Hv. apply H2, Hincl, Hv.
Qed.

Lemma inv_with_domains (b0 : grid) (s : SudokuSolver) (d' : domain_map) :
  inv b0 s -> pruned (domains s) d' -> sound (board s) d' ->
  inv b0 (with_domains s d').
Proof.
  intros [Hwf Hkeys Hnd Hdom Hpl Hsound Hhist] Hpr Hs.
  pose proof (dom_ok_pruned Hdom Hpr) as Hdom'.
  destruct Hpr as [Hk _].
  constructor; cbn [board domains history with_domains]; auto.
  - rewrite Hk. auto.
  - rewrite Hk. auto.
  - constructor; auto. split; [|split]; auto.
Qed.

Lemma propagated_with_domains (s : SudokuSolver) (d' : domain_map) :
  keys d' = keys (domains s) -> propagated s (with_domains s d').
Proof. intros H. repeat split; auto. Qed.

Lemma fills_wf (b g : grid) : fills b g -> wf_grid g.
Proof. intros [H _]; exact H. Qed.

(** ** Forward checking *)

Section Propagation.
Context {iteration : SetIteration}.

Lemma sound_forward_step (b : grid) (d : domain_map) (var q : pos) (value : Z) :
  sound b d -> in_range var -> in_range q ->
  cellp b var = value -> value <> 0%Z -> cellp b q = 0%Z ->
  same_unit (fst q) (snd q) (fst var) (snd var) = true ->
  sound b (dict_upd d q (discard value)).
Proof.
  intros Hs Hvar Hq Hval Hnz Hqz Hu g Hg p dom' Hin.
  apply In_dict_upd in Hin as [dom [Hin ->]].
  pose proof (Hs g Hg p dom Hin) as Hgp.
  destruct (pos_eqb p q) eqn:E; auto.
  apply pos_eqb_eq in E; subst p.
  apply In_discard. split; auto.
  destruct Hg as [_ [Hkeep Hfill]].
  destruct (Hfill q Hq Hqz) as [_ Hpeers].
  intros Heq. apply (Hpeers var Hvar).
  - apply peer_same_unit. split.
    + intros ->. congruence.
    + rewrite same_unit_sym. exact Hu.
  - rewrite Hkeep by (auto; congruence). congruence.
Qed.

Lemma forward_check_loop_spec (b0 : grid) (var : pos) (value : Z)
      (cells : list pos) :
  forall s res s',
    inv b0 s -> in_range var -> cellp (board s) var = value ->
    value <> 0%Z -> (forall q, In q cells -> in_range q) ->
    forward_check_loop s var value cells = (res, s') ->
    inv b0 s' /\ propagated s s' /\ pruned (domains s) (domains s') /\
    (res <> None -> forall g, ~ fills (board s) g).
Proof.
  induction cells as [|[i j] rest IH]; intros s res s' Hinv Hvar Hval Hnz Hc H.
  - simpl in H. inversion H; subst.
    split; auto. split; [apply propagated_refl|].
    split; [apply pruned_refl | congruence].
  - cbn [forward_check_loop] in H.
    assert (Hq : in_range (i, j)) by (apply Hc; left; auto).
    assert (Hrest : forall q, In q rest -> in_range q)
      by (intros q Hin; apply Hc; right; auto).
    destruct ((cell (board s) i j =? 0)%Z && same_unit i j (fst var) (snd var))
      eqn:Econd.
    2:{ apply IH; auto. }
    apply andb_true_iff in Econd as [Ez Eu]. apply Z.eqb_eq in Ez.
    set (s1 := with_domains s (dict_upd (domains s) (i, j) (discard value)))
      in *.
    assert (Hs1 : sound (board s) (domains s1)).
    { apply sound_forward_step with (var := var); auto.
      apply (inv_sound Hinv). }
    assert (Hinv1 : inv b0 s1).
    { apply inv_with_domains; auto. apply pruned_discard. }
    assert (Hp1 : propagated s s1).
    { apply propagated_with_domains. apply keys_dict_upd. }
    assert (Hpr1 : pruned (domains s) (domains s1)) by apply pruned_discard.
    destruct (dict_mem (i, j) (domains s1)
              && match dict_get (i, j) (domains s1) with
                 | Some [] => true
                 | _ => false
                 end) eqn:Eempty.
    + inversion H; subst. split; auto. split; auto. split; auto.
      intros _ g Hg.
      apply andb_true_iff in Eempty as [_ Eg].
      destruct (dict_get (i, j) (domains s1)) as [[|x t]|] eqn:Eget;
        try discriminate.
      apply dict_get_In in Eget. exact (Hs1 g Hg _ _ Eget).
    + destruct (IH s1 res s' Hinv1 Hvar Hval Hnz Hrest H)
        as [Hinv' [Hp' [Hpr' Hno]]].
      split; auto. split; [eapply propagated_trans; eauto|].
      split; [eapply pruned_trans; eauto | exact Hno].
Qed.

End Propagation.

(** ** Outcomes with a postcondition *)

(** [ospec m post low]: [m] raises nothing, a result satisfies [post], and
    the fuel runs out only if [low] holds. *)
Definition ospec {A : Type} (m : outcome A) (post : A -> Prop) (low : Prop)
  : Prop :=
  match m with
  | Done a => post a
  | Raise _ => False
  | OutOfFuel => low
  end.

Lemma ospec_bind {A B : Type} (m : outcome A) (k : A -> outcome B)
      (P : A -> Prop) (Q : B -> Prop) (low : Prop) :
  ospec m P low -> (forall a, P a -> ospec (k a) Q low) ->
  ospec (bind m k) Q low.
Proof. destruct m; simpl; auto. Qed.

Lemma ospec_weaken {A : Type} (m : outcome A) (P Q : A -> Prop)
      (low low' : Prop) :
  ospec m P low -> (forall a, P a -> Q a) -> (low -> low') -> ospec m Q low'.
Proof. destruct m; simpl; auto. Qed.

Lemma ospec_done {A : Type} (m : outcome A) (P : A -> Prop) (low : Prop)
      (a : A) :
  ospec m P low -> m = Done a -> P a.
Proof. intros H ->. exact H. Qed.

(** ** Sets of positions *)

Lemma pos_mem_In (p : pos) (s : list pos) : pos_mem p s = true <-> In p s.
Proof.
  unfold pos_mem. rewrite existsb_exists. split.
  - intros [q [Hin E]]. apply pos_eqb_eq in E; subst; auto.
  - intros H. exists p. split; auto. apply pos_eqb_refl.
Qed.

Lemma In_pos_add (s : list pos) (p q : pos) :
  In q (pos_add s p) <-> q = p \/ In q s.
Proof.
  unfold pos_add. destruct (pos_mem p s) eqn:E.
  - apply pos_mem_In in E. split; [auto | intros [->|H]; auto].
  - rewrite in_app_iff. simpl. split; intros H; intuition auto.
Qed.

Lemma length_pos_add (s : list pos) (p : pos) :
  length (pos_add s p) <= S (length s).
Proof.
  unfold pos_add. destruct (pos_mem p s); [lia|].
  rewrite length_app. simpl. lia.
Qed.

Lemma In_fold_pos_add {X : Type} (c : X -> bool) (h : X -> pos) (l : list X)
      (n0 : list pos) (y : pos) :
  In y (fold_left (fun n x => if c x then pos_add n (h x) else n) l n0) ->
  In y n0 \/ exists x, In x l /\ c x = true /\ y = h x.
Proof.
  revert n0; induction l as [|x t IH]; intros n0; simpl; auto.
  intros H. apply IH in H as [H|[x' [H1 [H2 H3]]]].
  - destruct (c x) eqn:E; auto.
    apply In_pos_add in H as [->|H]; auto.
    right. exists x. auto.
  - right. exists x'. auto.
Qed.

Lemma length_fold_pos_add {X : Type} (c : X -> bool) (h : X -> pos)
      (l : list X) (n0 : list pos) :
  length (fold_left (fun n x => if c x then pos_add n (h x) else n) l n0)
  <= length n0 + length l.
Proof.
  revert n0; induction l as [|x t IH]; intros n0; simpl; [lia|].
  etransitivity; [apply IH|].
  destruct (c x); [pose proof (length_pos_add n0 (h x))|]; lia.
Qed.

Lemma length_flat_map_le {A B : Type} (f : A -> list B) (l : list A) (c : nat) :
  (forall x, length (f x) <= c) -> length (flat_map f l) <= c * length l.
Proof.
  intros H. induction l as [|x t IH]; simpl; [lia|].
  rewrite length_app. specialize (H x). lia.
Qed.

Lemma In_fold_pos_add2 {X Y : Type} (c : X -> Y -> bool) (h : X -> Y -> pos)
      (l : list X) (l' : list Y) (n0 : list pos) (y : pos) :
  In y (fold_left (fun n i =>
          fold_left (fun n' j => if c i j then pos_add n' (h i j) else n')
                    l' n) l n0) ->
  In y n0 \/ exists i j, In i l /\ In j l' /\ c i j = true /\ y = h i j.
Proof.
  revert n0; induction l as [|i t IH]; intros n0; simpl; auto.
  intros H. apply IH in H as [H|[i' [j [H1 [H2 [H3 H4]]]]]].
  - apply (In_fold_pos_add (c i) (h i)) in H as [H|[j [H1 [H2 H3]]]]; auto.
    right. exists i, j. auto.
  - right. exists i', j. auto.
Qed.

Lemma length_fold_pos_add2 {X Y : Type} (c : X -> Y -> bool)
      (h : X -> Y -> pos) (l : list X) (l' : list Y) (n0 : list pos) :
  length (fold_left (fun n i =>
            fold_left (fun n' j => if c i j then pos_add n' (h i j) else n')
                      l' n) l n0)
  <= length n0 + length l * length l'.
Proof.
  revert n0; induction l as [|i t IH]; intros n0; simpl; [lia|].
  etransitivity; [apply IH|].
  pose proof (length_fold_pos_add (c i) (h i) l' n0). lia.
Qed.

(** ** The constraint graph *)

Lemma get_neighbors_spec (s : SudokuSolver) (var xk : pos) :
  In xk (get_neighbors s var) ->
  In xk (keys (domains s)) /\ peer xk var = true.
Proof.
  destruct var as [row col]. unfold get_neighbors.
  intros H.
  apply (In_fold_pos_add2
           (fun i j => negb (pos_eqb (i, j) (row, col))
                       && dict_mem (i, j) (domains s))
           (fun i j => (i, j))) in H.
  destruct H as [H|[i [j [Hi [Hj [Hc ->]]]]]].
  - apply (In_fold_pos_add
             (fun i => negb (i =? row) && dict_mem (i, col) (domains s))
             (fun i => (i, col))) in H.
    destruct H as [H|[i [Hi [Hc ->]]]].
    + apply (In_fold_pos_add
               (fun j => negb (j =? col) && dict_mem (row, j) (domains s))
               (fun j => (row, j))) in H.
      destruct H as [[]|[j [Hj [Hc ->]]]].
      apply andb_true_iff in Hc as [Hne Hm].
      apply negb_true_iff, Nat.eqb_neq in Hne.
      split; [apply dict_mem_keys; auto|].
      apply peer_same_unit. split; [congruence|].
      apply same_unit_true; auto.
    + apply andb_true_iff in Hc as [Hne Hm].
      apply negb_true_iff, Nat.eqb_neq in Hne.
      split; [apply dict_mem_keys; auto|].
      apply peer_same_unit. split; [congruence|].
      apply same_unit_true; auto.
  - apply andb_true_iff in Hc as [Hne Hm].
    apply negb_true_iff, pos_eqb_neq in Hne.
    split; [apply dict_mem_keys; auto|].
    apply peer_same_unit. split; auto.
    apply same_unit_true. right; right. cbn [fst snd].
    apply in_box_seq in Hi, Hj. auto.
Qed.

Lemma length_get_neighbors (s : SudokuSolver) (var : pos) :
  length (get_neighbors s var) <= 27.
Proof.
  destruct var as [row col]. unfold get_neighbors.
  etransitivity; [apply length_fold_pos_add2|].
  rewrite !length_seq.
  match goal with
  | |- length (fold_left ?f range9 ?n1) + _ <= _ =>
      assert (H2 : length (fold_left f range9 n1) <= length n1 + 9)
        by apply (length_fold_pos_add
                    (fun i => negb (i =? row) && dict_mem (i, col) (domains s))
                    (fun i => (i, col)));
      assert (H1 : length n1 <= 0 + 9)
        by apply (length_fold_pos_add
                    (fun j => negb (j =? col) && dict_mem (row, j) (domains s))
                    (fun j => (row, j)))
  end.
  lia.
Qed.

Lemma In_get_all_edges (s : SudokuSolver) (a c : pos) :
  (forall p, In p (keys (domains s)) -> in_range p) ->
  (In (a, c) (get_all_edges s) <->
   In a (keys (domains s)) /\ In c (keys (domains s)) /\ peer a c = true).
Proof.
  intros Hrange. unfold get_all_edges. rewrite in_flat_map. split.
  - intros [[i j] [Hp H]].
    destruct (dict_mem (i, j) (domains s)) eqn:Hm; [|destruct H].
    apply dict_mem_keys in Hm.
    rewrite !in_app_iff, !in_flat_map in H.
    destruct H as [[k [Hk H]]|[[k [Hk H]]|[k [Hk H]]]].
    + destruct (negb (k =? j) && dict_mem (i, k) (domains s)) eqn:Hc;
        [|destruct H].
      destruct H as [H|[]]. inversion H; subst.
      apply andb_true_iff in Hc as [Hne Hm'].
      apply negb_true_iff, Nat.eqb_neq in Hne. apply dict_mem_keys in Hm'.
      repeat split; auto.
      apply peer_same_unit. split; [congruence|].
      apply same_unit_true; auto.
    + destruct (negb (k =? i) && dict_mem (k, j) (domains s)) eqn:Hc;
        [|destruct H].
      destruct H as [H|[]]. inversion H; subst.
      apply andb_true_iff in Hc as [Hne Hm'].
      apply negb_true_iff, Nat.eqb_neq in Hne. apply dict_mem_keys in Hm'.
      repeat split; auto.
      apply peer_same_unit. split; [congruence|].
      apply same_unit_true; auto.
    + apply in_flat_map in H as [l [Hl H]].
      destruct (negb (pos_eqb (k, l) (i, j)) && dict_mem (k, l) (domains s))
        eqn:Hc; [|destruct H].
      destruct H as [H|[]]. inversion H; subst.
      apply andb_true_iff in Hc as [Hne Hm'].
      apply negb_true_iff, pos_eqb_neq in Hne. apply dict_mem_keys in Hm'.
      repeat split; auto.
      apply peer_same_unit. split; [congruence|].
      apply same_unit_true. right; right. cbn [fst snd].
      apply in_box_seq in Hk, Hl. auto.
  - intros [Ha [Hc Hpeer]].
    pose proof (Hrange a Ha) as Hra. pose proof (Hrange c Hc) as Hrc.
    destruct a as [i j], c as [k l].
    apply peer_same_unit in Hpeer as [Hne Hu]. cbn [fst snd] in Hu.
    exists (i, j). split; [apply in_all_positions; auto|].
    pose proof Ha as Hma. apply dict_mem_keys in Hma. rewrite Hma.
    pose proof Hc as Hmc. apply dict_mem_keys in Hmc.
    destruct Hra as [Hi Hj], Hrc as [Hk Hl]. cbn [fst snd] in *.
    rewrite !in_app_iff, !in_flat_map.
    apply same_unit_true in Hu as [->|[->|[Hbi Hbj]]].
    + left. exists l. split; [apply in_range9; auto|].
      assert (E : (l =? j) = false) by (apply Nat.eqb_neq; congruence).
      rewrite E, Hmc. left; reflexivity.
    + right; left. exists k. split; [apply in_range9; auto|].
      assert (E : (k =? i) = false) by (apply Nat.eqb_neq; congruence).
      rewrite E, Hmc. left; reflexivity.
    + right; right. exists k. split; [apply in_box_seq; auto|].
      apply in_flat_map. exists l. split; [apply in_box_seq; auto|].
      assert (E : pos_eqb (k, l) (i, j) = false)
        by (apply pos_eqb_neq; congruence).
      rewrite E, Hmc. left; reflexivity.
Qed.

Lemma length_get_all_edges (s : SudokuSolver) :
  length (get_all_edges s) <= 27 * 81.
Proof.
  unfold get_all_edges.
  etransitivity; [apply length_flat_map_le with (c := 27)|reflexivity].
  intros [i j]. destruct (dict_mem (i, j) (domains s)); [|simpl; lia].
  rewrite !length_app.
  assert (F : forall (l : list nat) (g : nat -> list (pos * pos)),
             (forall k, length (g k) <= 1) ->
             length (flat_map g l) <= length l).
  { intros l g Hg. pose proof (length_flat_map_le g l Hg). lia. }
  pose proof (F range9
    (fun k => if negb (k =? j) && dict_mem (i, k) (domains s)
              then [((i, j), (i, k))] else [])) as H1.
  pose proof (F range9
    (fun k => if negb (k =? i) && dict_mem (k, j) (domains s)
              then [((i, j), (k, j))] else [])) as H2.
  pose proof (length_flat_map_le
    (fun k => flat_map (fun l =>
       if negb (pos_eqb (k, l) (i, j)) && dict_mem (k, l) (domains s)
       then [((i, j), (k, l))] else []) (seq (3 * (j / 3)) 3))
    (seq (3 * (i / 3)) 3) (c := 3)) as H3.
  rewrite length_seq in H3.
  assert (L9 : length range9 = 9) by reflexivity. rewrite L9 in H1, H2.
  assert (H1' : forall k, length (if negb (k =? j) && dict_mem (i, k) (domains s)
                                  then [((i, j), (i, k))] else []) <= 1)
    by (intros k; destruct (_ && _); simpl; lia).
  assert (H2' : forall k, length (if negb (k =? i) && dict_mem (k, j) (domains s)
                                  then [((i, j), (k, j))] else []) <= 1)
    by (intros k; destruct (_ && _); simpl; lia).
  specialize (H1 H1'). specialize (H2 H2').
  assert (H3' : forall k,
    length (flat_map (fun l =>
       if negb (pos_eqb (k, l) (i, j)) && dict_mem (k, l) (domains s)
       then [((i, j), (k, l))] else []) (seq (3 * (j / 3)) 3)) <= 3).
  { intros k.
    pose proof (F (seq (3 * (j / 3)) 3)
      (fun l => if negb (pos_eqb (k, l) (i, j)) && dict_mem (k, l) (domains s)
                then [((i, j), (k, l))] else [])) as H.
    rewrite length_seq in H. apply H.
    intros l; destruct (_ && _); simpl; lia. }
  specialize (H3 H3').
  etransitivity;
    [apply Nat.add_le_mono;
       [exact H1 | apply Nat.add_le_mono; [exact H2 | exact H3]]|].
  reflexivity.
Qed.

(** ** The measure of AC-3 *)

(** The number of digits stored in all the sets together. *)
Definition total (d : domain_map) : nat :=
  list_sum (map (fun kv => length (snd kv)) d).

(** Fuel that AC-3 never exhausts, and fuel that the whole search never
    exhausts. *)
Definition ac3_budget : nat := 27 * 81 + 28 * (9 * 81) + 1.
Definition search_budget : nat := ac3_budget + 82.

Arguments ac3_budget : simpl never.
Arguments search_budget : simpl never.

Lemma total_upd_le (d : domain_map) (k : pos) (x : Z) :
  total (dict_upd d k (discard x)) <= total d.
Proof.
  unfold total, dict_upd. induction d as [|[a b] t IH]; simpl; auto.
  destruct (pos_eqb a k); simpl; [pose proof (discard_length x b)|]; lia.
Qed.

Lemma total_upd_lt (d : domain_map) (k : pos) (x : Z) (dom : list Z) :
  dict_get k d = Some dom -> In x dom ->
  total (dict_upd d k (discard x)) < total d.
Proof.
  intros Hget Hin. induction d as [|[a b] t IH]; simpl in *; [discriminate|].
  pose proof (total_upd_le t k x) as Hle. unfold total, dict_upd in *.
  simpl. destruct (pos_eqb a k); simpl.
  - inversion Hget; subst. pose proof (discard_length_lt x dom Hin). lia.
  - specialize (IH Hget). lia.
Qed.

Lemma total_le (d : domain_map) :
  (forall p dom, In (p, dom) d -> length dom <= 9) ->
  total d <= 9 * length d.
Proof.
  unfold total. induction d as [|[a b] t IH]; intros H; simpl; [lia|].
  assert (length b <= 9) by (apply (H a); left; auto).
  assert (list_sum (map (fun kv => length (snd kv)) t) <= 9 * length t)
    by (apply IH; intros p dom Hin; apply (H p); right; auto).
  lia.
Qed.

Lemma inv_key_range (b0 : grid) (s : SudokuSolver) (p : pos) :
  inv b0 s -> In p (keys (domains s)) -> in_range p.
Proof. intros Hinv H. apply (inv_keys Hinv) in H. tauto. Qed.

Lemma inv_key_empty (b0 : grid) (s : SudokuSolver) (p : pos) :
  inv b0 s -> In p (keys (domains s)) -> cellp (board s) p = 0%Z.
Proof. intros Hinv H. apply (inv_keys Hinv) in H. tauto. Qed.

Lemma inv_total (b0 : grid) (s : SudokuSolver) :
  inv b0 s -> total (domains s) <= 9 * 81 /\ length (domains s) <= 81.
Proof.
  intros Hinv.
  assert (L : length (domains s) <= 81).
  { replace (length (domains s)) with (length (keys (domains s)))
      by (unfold keys; apply length_map).
    replace 81 with (length all_positions) by reflexivity.
    apply NoDup_incl_length; [apply (inv_nodup Hinv)|].
    intros p Hp. apply in_all_positions. eapply inv_key_range; eauto. }
  split; auto.
  etransitivity; [apply total_le|lia].
  intros p dom Hin. apply (inv_dom Hinv p dom Hin).
Qed.

(** ** AC-3 *)

(** Both ends of an arc are keys of the domain map and they are peers. *)
Definition arc_ok (ks : list pos) (arc : pos * pos) : Prop :=
  In (fst arc) ks /\ In (snd arc) ks /\ peer (fst arc) (snd arc) = true.

Lemma sound_revise (b : grid) (d : domain_map) (xi xj : pos) (x : Z)
      (dj : list Z) :
  sound b d -> in_range xi -> in_range xj -> cellp b xi = 0%Z ->
  peer xi xj = true -> dict_get xj d = Some dj ->
  existsb (fun y => negb (y =? x)%Z) dj = false ->
  sound b (dict_upd d xi (discard x)).
Proof.
  intros Hs Hi Hj Hz Hpeer Hget Hall g Hg p dom' Hin.
  apply In_dict_upd in Hin as [dom [Hin ->]].
  pose proof (Hs g Hg p dom Hin) as Hgp.
  destruct (pos_eqb p xi) eqn:E; auto.
  apply pos_eqb_eq in E; subst p.
  apply In_discard. split; auto.
  pose proof (Hs g Hg xj dj (dict_get_In _ _ Hget)) as Hgj.
  rewrite existsb_false in Hall. specialize (Hall _ Hgj).
  apply negb_false_iff, Z.eqb_eq in Hall.
  destruct Hg as [_ [_ Hfill]].
  destruct (Hfill xi Hi Hz) as [_ Hpeers].
  intros Heq. apply (Hpeers xj Hj).
  - rewrite peer_sym. exact Hpeer.
  - congruence.
Qed.

Section ArcConsistency.
Context {iteration : SetIteration}.

Lemma remove_inconsistent_loop_spec (b0 : grid) (xi xj : pos)
      (d0 : domain_map) (xs : list Z) :
  forall s removed,
    inv b0 s -> arc_ok (keys (domains s)) (xi, xj) ->
    pruned d0 (domains s) ->
    (removed = false ->
     domains s = d0 /\
     forall x, In x xs -> exists dom, dict_get xi d0 = Some dom /\ In x dom) ->
    (removed = true -> total (domains s) < total d0) ->
    ospec (remove_inconsistent_loop s xi xj xs removed)
          (fun r => inv b0 (snd r) /\ propagated s (snd r) /\
                    pruned d0 (domains (snd r)) /\
                    (fst r = true -> total (domains (snd r)) < total d0) /\
                    (fst r = false -> domains (snd r) = d0))
          False.
Proof.
  induction xs as [|x rest IH]; intros s removed Hinv Harc Hpr Hf Ht.
  - simpl. split; auto. split; [apply propagated_refl|]. split; auto.
    split; auto. intros E. apply Hf; auto.
  - cbn [remove_inconsistent_loop].
    destruct Harc as [Hxi [Hxj Hpeer]]. cbn [fst snd] in Hxi, Hxj, Hpeer.
    destruct (proj1 (dict_get_keys _ _) Hxj) as [dj Hget]. rewrite Hget.
    destruct (negb (existsb (fun y => negb (y =? x)%Z) dj)) eqn:Eall.
    + apply negb_true_iff in Eall.
      set (s1 := with_domains s (dict_upd (domains s) xi (discard x))).
      assert (Hinv1 : inv b0 s1).
      { apply inv_with_domains; auto; [apply pruned_discard|].
        eapply sound_revise; eauto.
        - apply (inv_sound Hinv).
        - eapply inv_key_range; eauto.
        - eapply inv_key_range; eauto.
        - eapply inv_key_empty; eauto. }
      assert (Hp1 : propagated s s1)
        by (apply propagated_with_domains, keys_dict_upd).
      eapply ospec_weaken; [apply (IH s1 true); auto| |auto].
      * unfold s1; cbn [domains with_domains]. rewrite keys_dict_upd.
        repeat split; auto.
      * eapply pruned_trans; [exact Hpr|]. apply pruned_discard.
      * discriminate.
      * intros _. unfold s1; cbn [domains with_domains].
        destruct removed.
        -- pose proof (total_upd_le (domains s) xi x).
           specialize (Ht eq_refl). lia.
        -- destruct (Hf eq_refl) as [Hd0 Hx].
           destruct (Hx x (or_introl eq_refl)) as [dom [Hg Hin]].
           rewrite Hd0. eapply total_upd_lt; eauto.
      * intros r [H1 [H2 H3]]. split; auto.
        split; [eapply propagated_trans; eauto | auto].
    + apply IH; auto.
      * repeat split; auto.
      * intros E. destruct (Hf E) as [Hd0 Hx]. split; auto.
        intros y Hy. apply Hx. right; auto.
Qed.

Lemma remove_inconsistent_values_spec (b0 : grid) (s : SudokuSolver)
      (xi xj : pos) :
  inv b0 s -> arc_ok (keys (domains s)) (xi, xj) ->
  ospec (remove_inconsistent_values s xi xj)
        (fun r => inv b0 (snd r) /\ propagated s (snd r) /\
                  pruned (domains s) (domains (snd r)) /\
                  (fst r = true ->
                   total (domains (snd r)) < total (domains s)) /\
                  (fst r = false -> domains (snd r) = domains s))
        False.
Proof.
  intros Hinv Harc. unfold remove_inconsistent_values.
  pose proof Harc as [Hxi _]. cbn [fst] in Hxi.
  destruct (proj1 (dict_get_keys _ _) Hxi) as [di Hget]. rewrite Hget.
  apply remove_inconsistent_loop_spec; auto.
  - apply pruned_refl.
  - intros _. split; auto. intros x Hx. exists di. split; auto.
    rewrite In_iter_values in Hx; auto.
  - discriminate.
Qed.

Lemma ac3_loop_spec (b0 : grid) (fuel : nat) :
  forall queue s,
    inv b0 s -> Forall (arc_ok (keys (domains s))) queue ->
    ospec (ac3_loop fuel queue s)
          (fun r => inv b0 (snd r) /\ propagated s (snd r) /\
                    pruned (domains s) (domains (snd r)) /\
                    (fst r <> None -> forall g, ~ fills (board s) g))
          (fuel <= length queue + 28 * total (domains s)).
Proof.
  induction fuel as [|fuel IH]; intros queue s Hinv Hq.
  - simpl. lia.
  - cbn [ac3_loop]. destruct queue as [|[xi xj] queue'].
    + simpl. split; auto. split; [apply propagated_refl|].
      split; [apply pruned_refl | congruence].
    + inversion Hq as [|? ? Harc Hq']; subst.
      eapply ospec_bind.
      { eapply ospec_weaken;
          [apply (remove_inconsistent_values_spec Hinv Harc)
          |intros a H; exact H | tauto]. }
      intros [removed s1] [Hinv1 [Hp1 [Hpr1 [Hlt Heq]]]].
      cbn [fst snd] in *.
      assert (Hk : keys (domains s1) = keys (domains s)) by apply Hp1.
      assert (Hb : board s1 = board s) by apply Hp1.
      destruct removed.
      * specialize (Hlt eq_refl).
        destruct Harc as [Hxi _]. cbn [fst] in Hxi.
        rewrite <- Hk in Hxi.
        destruct (proj1 (dict_get_keys _ _) Hxi) as [di Hget]. rewrite Hget.
        destruct di as [|v di'].
        -- simpl. split; auto. split; auto. split; auto.
           intros _ g Hg. rewrite <- Hb in Hg.
           exact (inv_sound Hinv1 Hg _ _ (dict_get_In _ _ Hget)).
        -- eapply ospec_weaken; [apply IH; auto| |].
           ++ apply Forall_app. split; [rewrite Hk; auto|].
              apply Forall_forall. intros [a c] Hin.
              apply in_map_iff in Hin as [xk [E Hin]]. inversion E; subst.
              apply filter_In in Hin as [Hin _].
              rewrite In_iter_cells in Hin.
              apply get_neighbors_spec in Hin as [Hin Hpeer].
              repeat split; auto.
           ++ intros r [H1 [H2 [H3 H4]]]. split; auto.
              split; [eapply propagated_trans; eauto|].
              split; [eapply pruned_trans; eauto|].
              rewrite <- Hb. auto.
           ++ rewrite length_app, length_map. cbn [length].
              pose proof (filter_length_le
                            (fun xk => negb (pos_eqb xk xj))
                            (iter_cells (get_neighbors s1 xi))) as L1.
              pose proof (Permutation_length
                            (iter_cells_perm (get_neighbors s1 xi))) as L2.
              pose proof (length_get_neighbors s1 xi) as L3.
              lia.
      * specialize (Heq eq_refl).
        eapply ospec_weaken; [apply IH; auto| |].
        -- rewrite Hk; auto.
        -- intros r [H1 [H2 [H3 H4]]]. split; auto.
           split; [eapply propagated_trans; eauto|].
           split; [eapply pruned_trans; eauto|].
           rewrite <- Hb. auto.
        -- rewrite Heq. cbn [length]. lia.
Qed.

Lemma ac3_with_conflicts_spec (b0 : grid) (fuel : nat) (s : SudokuSolver) :
  inv b0 s ->
  ospec (ac3_with_conflicts fuel s)
        (fun r => inv b0 (snd r) /\ propagated s (snd r) /\
                  pruned (domains s) (domains (snd r)) /\
                  (fst r <> None -> forall g, ~ fills (board s) g))
        (fuel < ac3_budget).
Proof.
  intros Hinv. unfold ac3_with_conflicts.
  eapply ospec_weaken; [apply ac3_loop_spec; eauto|auto|].
  - apply Forall_forall. intros [a c] Hin.
    apply In_get_all_edges in Hin; [exact Hin|].
    intros p. apply inv_key_range with (b0 := b0); auto.
  - pose proof (length_get_all_edges s).
    destruct (inv_total Hinv) as [Ht _].
    unfold ac3_budget. lia.
Qed.

End ArcConsistency.

(** ** Choosing the next variable and its values *)

Lemma get_first_empty_some (b : grid) (p : pos) :
  get_first_empty b = Some p -> in_range p /\ cellp b p = 0%Z.
Proof.
  unfold get_first_empty. intros H. apply find_some in H as [Hin Hz].
  apply in_all_positions in Hin. apply Z.eqb_eq in Hz. auto.
Qed.

Lemma get_first_empty_none (b : grid) :
  get_first_empty b = None -> forall p, in_range p -> cellp b p <> 0%Z.
Proof.
  unfold get_first_empty. intros H p Hp.
  apply in_all_positions in Hp.
  apply (find_none _ _ H) in Hp. apply Z.eqb_neq in Hp. exact Hp.
Qed.

Definition mrv_step (acc : option nat * option pos) (kv : pos * list Z)
  : option nat * option pos :=
  let domain_length := length (snd kv) in
  let smaller := match fst acc with
                 | None => true
                 | Some min_length => domain_length <? min_length
                 end in
  if smaller then (Some domain_length, Some (fst kv)) else acc.

Lemma mrv_fold_key (d : domain_map) (acc : option nat * option pos) (p : pos) :
  snd (fold_left mrv_step d acc) = Some p ->
  snd acc = Some p \/ In p (keys d).
Proof.
  revert acc; induction d as [|[k dom] t IH]; intros acc; simpl; auto.
  intros H. apply IH in H as [H|H]; auto.
  unfold mrv_step in H. cbn [fst snd] in H.
  destruct (match fst acc with
            | None => true
            | Some min_length => length dom <? min_length
            end); auto.
  cbn [snd] in H. inversion H; auto.
Qed.

Lemma mrv_fold_some (d : domain_map) (acc : option nat * option pos) :
  snd acc <> None -> snd (fold_left mrv_step d acc) <> None.
Proof.
  revert acc; induction d as [|[k dom] t IH]; intros acc; simpl; auto.
  intros H. apply IH. unfold mrv_step. cbn [fst snd].
  destruct (match fst acc with
            | None => true
            | Some min_length => length dom <? min_length
            end); auto.
  cbn [snd]. discriminate.
Qed.

Lemma get_mrv_variable_some (d : domain_map) (p : pos) :
  get_mrv_variable d = Some p -> In p (keys d).
Proof.
  intros H. apply (mrv_fold_key d (None, None)) in H as [H|H]; auto.
  discriminate.
Qed.

Lemma get_mrv_variable_none (d : domain_map) :
  get_mrv_variable d = None -> d = [].
Proof.
  destruct d as [|[k dom] t]; auto. intros H. exfalso.
  unfold get_mrv_variable in H. cbn [fold_left] in H.
  apply (mrv_fold_some t (Some (length dom), Some k)) in H; auto.
  cbn [snd]. discriminate.
Qed.

Lemma get_next_variable_some (b0 : grid) (s : SudokuSolver) (var : pos) :
  inv b0 s -> get_next_variable s = Some var -> In var (keys (domains s)).
Proof.
  intros Hinv. unfold get_next_variable.
  destruct (negb (use_mrv s)).
  - intros H. apply get_first_empty_some in H.
    apply (inv_keys Hinv). exact H.
  - apply get_mrv_variable_some.
Qed.

Lemma get_next_variable_none (b0 : grid) (s : SudokuSolver) :
  inv b0 s -> get_next_variable s = None ->
  forall p, in_range p -> cellp (board s) p <> 0%Z.
Proof.
  intros Hinv. unfold get_next_variable.
  destruct (negb (use_mrv s)).
  - apply get_first_empty_none.
  - intros H p Hp Hz. apply get_mrv_variable_none in H.
    assert (Hk : In p (keys (domains s))) by (apply (inv_keys Hinv); auto).
    rewrite H in Hk. destruct Hk.
Qed.

Section Search.
Context {iteration : SetIteration}.

Lemma get_ordered_values_spec (s : SudokuSolver) (var : pos) :
  In var (keys (domains s)) ->
  exists dom values,
    dict_get var (domains s) = Some dom /\
    get_ordered_values s var = Done values /\
    forall v, In v values <-> In v dom.
Proof.
  intros H. apply dict_get_keys in H as [dom Hget].
  unfold get_ordered_values. rewrite Hget.
  exists dom. destruct (negb (use_lcv s)); eexists; split; auto; split; auto;
    intros v; rewrite In_sorted, In_iter_values; tauto.
Qed.

End Search.

(** ** Completions and a single placement *)

Lemma fills_unassign (b g : grid) (var : pos) (value : Z) :
  wf_grid b -> in_range var -> cellp b var = 0%Z -> (1 <= value <= 9)%Z ->
  is_safe b var value = true ->
  fills (set_cell b (fst var) (snd var) value) g -> fills b g.
Proof.
  intros Hwf Hvar Hz Hval Hsafe [Hg [Hkeep Hfill]].
  rewrite is_safe_true in Hsafe by auto.
  assert (Hgv : cellp g var = value).
  { rewrite (Hkeep var Hvar); rewrite cellp_set_cell, pos_eqb_refl; auto; lia. }
  split; auto. split.
  - intros p Hp Hnz. destruct (pos_eqb p var) eqn:E.
    + apply pos_eqb_eq in E; subst. contradiction.
    + specialize (Hkeep p Hp). rewrite cellp_set_cell, E in Hkeep; auto.
  - intros p Hp Hpz. destruct (pos_eqb p var) eqn:E.
    + apply pos_eqb_eq in E; subst p. rewrite Hgv. split; auto.
      intros q Hq Hpeer.
      apply peer_same_unit in Hpeer as [Hne Hu].
      assert (Eq : pos_eqb q var = false) by (apply pos_eqb_neq; auto).
      destruct (Z.eq_dec (cellp b q) 0) as [Hqz|Hqnz].
      * assert (Hq0 : cellp (set_cell b (fst var) (snd var) value) q = 0%Z)
          by (rewrite cellp_set_cell, Eq; auto).
        destruct (Hfill q Hq Hq0) as [_ Hpeers].
        intros Heq. apply (Hpeers var Hvar).
        -- apply peer_same_unit. split; [congruence|].
           rewrite same_unit_sym. exact Hu.
        -- congruence.
      * specialize (Hkeep q Hq). rewrite cellp_set_cell, Eq in Hkeep; auto.
        rewrite Hkeep by auto. apply Hsafe; auto.
    + apply Hfill; auto. rewrite cellp_set_cell, E; auto.
Qed.

Lemma fills_assign (b g : grid) (var : pos) :
  wf_grid b -> in_range var -> fills b g ->
  fills (set_cell b (fst var) (snd var) (cellp g var)) g.
Proof.
  intros Hwf Hvar [Hg [Hkeep Hfill]]. split; auto. split.
  - intros p Hp. rewrite cellp_set_cell by auto.
    destruct (pos_eqb p var) eqn:E.
    + apply pos_eqb_eq in E; subst; auto.
    + auto.
  - intros p Hp. rewrite cellp_set_cell by auto.
    destruct (pos_eqb p var) eqn:E.
    + apply pos_eqb_eq in E; subst p. intros Hz.
      destruct (Z.eq_dec (cellp b var) 0) as [Hbz|Hbnz]; auto.
      rewrite (Hkeep var Hvar Hbnz) in Hz. contradiction.
    + auto.
Qed.

Lemma fills_unsafe (b g : grid) (var : pos) (value : Z) :
  in_range var -> cellp b var = 0%Z -> value <> 0%Z ->
  is_safe b var value = false -> fills b g -> cellp g var <> value.
Proof.
  intros Hvar Hz Hnz Hsafe [_ [Hkeep Hfill]].
  apply is_safe_false in Hsafe as [q [Hq [Hu Hqv]]]; auto.
  destruct (Hfill var Hvar Hz) as [_ Hpeers].
  intros Heq. apply (Hpeers q Hq).
  - apply peer_same_unit. split; auto. intros ->. congruence.
  - rewrite (Hkeep q Hq) by congruence. congruence.
Qed.

(** ** Assignment and restoration *)

Lemma inv_same (b0 : grid) (s s' : SudokuSolver) :
  inv b0 s -> board s' = board s -> domains s' = domains s ->
  Forall (snap_ok b0) (history s') -> inv b0 s'.
Proof.
  intros [Hwf Hkeys Hnd Hdom Hpl Hsound Hhist] Hb Hd Hh.
  constructor; rewrite ?Hb, ?Hd; auto.
Qed.

Lemma inv_snap (b0 : grid) (s : SudokuSolver) :
  inv b0 s -> snap_ok b0 (board s, domains s).
Proof.
  intros Hinv. split; [|split]; cbn [fst snd];
    [apply (inv_wf Hinv) | apply (inv_placed Hinv) | apply (inv_dom Hinv)].
Qed.

Lemma length_filter_remove (l : list pos) (x : pos) :
  NoDup l -> In x l ->
  S (length (filter (fun y => negb (pos_eqb y x)) l)) = length l.
Proof.
  induction l as [|h t IH]; intros Hnd Hin; [destruct Hin|].
  inversion Hnd as [|? ? Hh Ht]; subst. simpl.
  destruct (pos_eqb h x) eqn:E; simpl.
  - apply pos_eqb_eq in E; subst h. f_equal.
    clear IH Hin Hnd Ht. induction t as [|a t IH]; simpl; auto.
    destruct (pos_eqb a x) eqn:E; simpl.
    + apply pos_eqb_eq in E; subst. exfalso; apply Hh; left; auto.
    + f_equal. apply IH. intros H; apply Hh; right; auto.
  - f_equal. apply IH; auto. destruct Hin as [->|H]; auto.
    rewrite pos_eqb_refl in E. discriminate.
Qed.

Lemma placed_ok_assign (b0 b : grid) (var : pos) (value : Z) :
  wf_grid b -> in_range var -> cellp b var = 0%Z -> (1 <= value <= 9)%Z ->
  is_safe b var value = true -> placed_ok b0 b ->
  placed_ok b0 (set_cell b (fst var) (snd var) value).
Proof.
  intros Hwf Hvar Hz Hval Hsafe [Hclue Hplaced].
  rewrite is_safe_true in Hsafe by auto.
  split.
  - intros p Hp Hnz. rewrite cellp_set_cell by auto.
    destruct (pos_eqb p var) eqn:E; auto.
    apply pos_eqb_eq in E; subst p.
    rewrite (Hclue var Hvar Hnz) in Hz. contradiction.
  - intros p Hp Hp0. rewrite !cellp_set_cell by auto.
    destruct (pos_eqb p var) eqn:E.
    + apply pos_eqb_eq in E; subst p. intros _. split; auto.
      intros q Hq Hpeer. apply peer_same_unit in Hpeer as [Hne Hu].
      rewrite cellp_set_cell by auto.
      apply pos_eqb_neq in Hne. rewrite Hne. apply Hsafe; auto.
    + intros Hnz. destruct (Hplaced p Hp Hp0 Hnz) as [Hd Hpeers].
      split; auto. intros q Hq Hpeer. rewrite cellp_set_cell by auto.
      destruct (pos_eqb q var) eqn:Eq; auto.
      apply pos_eqb_eq in Eq; subst q.
      apply peer_same_unit in Hpeer as [_ Hu]. rewrite same_unit_sym in Hu.
      intros Heq. apply (Hsafe p Hp Hu). auto.
Qed.

Lemma placed_ok_unassign (b0 b : grid) (var : pos) :
  wf_grid b -> in_range var -> cellp b0 var = 0%Z -> placed_ok b0 b ->
  placed_ok b0 (set_cell b (fst var) (snd var) 0).
Proof.
  intros Hwf Hvar Hz [Hclue Hplaced]. split.
  - intros p Hp Hnz. rewrite cellp_set_cell by auto.
    destruct (pos_eqb p var) eqn:E; auto.
    apply pos_eqb_eq in E; subst p. contradiction.
  - intros p Hp Hp0. rewrite !cellp_set_cell by auto.
    destruct (pos_eqb p var) eqn:E; [intros H; contradiction|].
    intros Hnz. destruct (Hplaced p Hp Hp0 Hnz) as [Hd Hpeers].
    split; auto. intros q Hq Hpeer. rewrite cellp_set_cell by auto.
    destruct (pos_eqb q var); auto.
Qed.

Lemma assign_spec (b0 : grid) (s : SudokuSolver) (var : pos) (value : Z) :
  inv b0 s -> In var (keys (domains s)) -> (1 <= value <= 9)%Z ->
  is_safe (board s) var value = true ->
  exists s1,
    assign s var value = Done s1 /\ inv b0 s1 /\
    board s1 = set_cell (board s) (fst var) (snd var) value /\
    domains s1 = dict_del (domains s) var /\
    assignment_order s1 = assignment_order s ++ [var] /\
    conflict_sets s1 = conflict_sets s /\ same_flags s s1.
Proof.
  intros Hinv Hkey Hval Hsafe.
  pose proof (@inv_key_range b0 s var Hinv Hkey) as Hvar.
  pose proof (@inv_key_empty b0 s var Hinv Hkey) as Hz.
  pose proof (inv_wf Hinv) as Hwf.
  unfold assign.
  cbn [domains with_assignment_order with_board assignment_order].
  rewrite (proj2 (dict_mem_keys _ _) Hkey).
  eexists. split; [reflexivity|].
  split; [|repeat split].
  assert (Hpl : placed_ok b0 (set_cell (board s) (fst var) (snd var) value))
    by (apply placed_ok_assign; auto; apply (inv_placed Hinv)).
  assert (Hdel : dom_ok b0 (dict_del (domains s) var)).
  { intros p dom Hin. apply In_dict_del in Hin as [Hin _].
    apply (inv_dom Hinv p dom Hin). }
  constructor;
    cbn [board domains history with_domains with_assignment_order with_board].
  - apply wf_set_cell; auto.
  - intros p. rewrite keys_dict_del, filter_In, negb_true_iff.
    rewrite (inv_keys Hinv). split.
    + intros [[Hp Hpz] Hne]. split; auto.
      rewrite cellp_set_cell, Hne; auto.
    + intros [Hp Hpz]. rewrite cellp_set_cell in Hpz by auto.
      destruct (pos_eqb p var); [lia | auto].
  - rewrite keys_dict_del. apply NoDup_filter, (inv_nodup Hinv).
  - exact Hdel.
  - exact Hpl.
  - intros g Hg p dom Hin. apply In_dict_del in Hin as [Hin _].
    apply (inv_sound Hinv) with (g := g); auto.
    eapply fills_unassign; eauto.
  - constructor; [|constructor; [|apply (inv_hist Hinv)]];
      (split; [|split]); cbn [fst snd]; auto;
      try (apply wf_set_cell; auto); apply (inv_dom Hinv).
Qed.

Lemma restore_state_spec (b0 : grid) (s s' : SudokuSolver) (var : pos)
      (value : Z) :
  inv b0 s -> inv b0 s' -> In var (keys (domains s)) ->
  board s' = set_cell (board s) (fst var) (snd var) value ->
  assignment_order s' = assignment_order s ++ [var] ->
  same_flags s s' ->
  exists r,
    restore_state s' var (domains s) (conflict_sets s) = Done r /\
    inv b0 r /\ board r = board s /\ domains r = domains s /\
    assignment_order r = assignment_order s /\
    conflict_sets r = conflict_sets s /\ same_flags s r.
Proof.
  intros Hinv Hinv' Hkey Hb Hao Hflags.
  pose proof (@inv_key_range b0 s var Hinv Hkey) as Hvar.
  pose proof (@inv_key_empty b0 s var Hinv Hkey) as Hz.
  pose proof (inv_wf Hinv) as Hwf.
  assert (Hundo : set_cell (board s') (fst var) (snd var) 0 = board s).
  { rewrite Hb. destruct Hvar as [Hi Hj]. apply set_cell_undo; auto.
    - destruct Hwf; lia.
    - rewrite wf_grid_row; auto. }
  unfold restore_state.
  cbn [assignment_order with_conflict_sets with_domains with_board].
  rewrite Hao. destruct (assignment_order s ++ [var]) eqn:E.
  { destruct (assignment_order s); discriminate. }
  rewrite <- E, removelast_last.
  eexists. split; [reflexivity|].
  cbn [board domains assignment_order conflict_sets history use_mrv
       use_forward_checking use_ac3 use_lcv with_assignment_order
       with_conflict_sets with_domains with_board].
  split; [|repeat split; auto; apply Hflags].
  apply inv_same with (s := s); auto.
  cbn [history board domains with_assignment_order with_conflict_sets
       with_domains with_board].
  rewrite Hundo.
  constructor; [apply inv_snap; auto|].
  constructor; [|apply (inv_hist Hinv')].
  split; [|split]; cbn [fst snd];
    [apply Hwf | apply (inv_placed Hinv) | apply (inv_dom Hinv')].
Qed.

Lemma inv_with_conflict_sets (b0 : grid) (s : SudokuSolver)
      (c : dict (list pos)) :
  inv b0 s -> inv b0 (with_conflict_sets s c).
Proof. intros H. apply inv_same with (s := s); auto. apply (inv_hist H). Qed.

(** ** The search *)

(** What a call of [backtrack_with_conflicts] on [s] guarantees. *)
Definition search_post (b0 : grid) (s : SudokuSolver) (r : search_result)
  : Prop :=
  inv b0 (snd r) /\ same_flags s (snd r) /\
  (fst (fst r) = false ->
   board (snd r) = board s /\ domains (snd r) = domains s /\
   assignment_order (snd r) = assignment_order s /\
   forall g, ~ fills (board s) g) /\
  (fst (fst r) = true ->
   forall p, in_range p -> cellp (board (snd r)) p <> 0%Z).

(** What the loop over [values] guarantees for the variable [var]. *)
Definition values_post (b0 : grid) (s : SudokuSolver) (var : pos)
           (values : list Z) (r : search_result) : Prop :=
  inv b0 (snd r) /\ same_flags s (snd r) /\
  (fst (fst r) = false ->
   board (snd r) = board s /\ domains (snd r) = domains s /\
   assignment_order (snd r) = assignment_order s /\
   forall g, fills (board s) g -> ~ In (cellp g var) values) /\
  (fst (fst r) = true ->
   forall p, in_range p -> cellp (board (snd r)) p <> 0%Z).

Lemma length_keys {V : Type} (d : dict V) : length (keys d) = length d.
Proof. unfold keys. apply length_map. Qed.

Section SearchSpec.
Context {iteration : SetIteration}.

Lemma try_values_spec (b0 : grid)
      (recurse : SudokuSolver -> outcome search_result) (fuel n : nat)
      (var : pos) :
  (forall s3, inv b0 s3 -> S (length (domains s3)) = n ->
              ospec (recurse s3) (search_post b0 s3)
                    (fuel < ac3_budget + n)) ->
  forall values cc s,
    inv b0 s -> In var (keys (domains s)) -> length (domains s) = n ->
    (forall v, In v values -> (1 <= v <= 9)%Z) ->
    ospec (try_values recurse fuel var values cc s)
          (values_post b0 s var values) (fuel < ac3_budget + n).
Proof.
  intros Hrec.
  induction values as [|value rest IH]; intros cc s Hinv Hkey Hlen Hvals.
  - simpl. split; [apply inv_with_conflict_sets; auto|].
    split; [repeat split|]. split; [|discriminate].
    intros _. repeat split; auto.
  - cbn [try_values].
    assert (Hrest : forall v, In v rest -> (1 <= v <= 9)%Z)
      by (intros v Hv; apply Hvals; right; auto).
    assert (Hval : (1 <= value <= 9)%Z) by (apply Hvals; left; auto).
    pose proof (@inv_key_range b0 s var Hinv Hkey) as Hvar.
    pose proof (@inv_key_empty b0 s var Hinv Hkey) as Hz.
    pose proof (inv_wf Hinv) as Hwf.
    assert (Retry : forall s_end cc',
      inv b0 s_end ->
      board s_end = set_cell (board s) (fst var) (snd var) value ->
      assignment_order s_end = assignment_order s ++ [var] ->
      same_flags s s_end ->
      (forall g, ~ fills (board s_end) g) ->
      ospec (s3 <- restore_state s_end var (domains s) (conflict_sets s) ;;
             try_values recurse fuel var rest cc' s3)
            (values_post b0 s var (value :: rest)) (fuel < ac3_budget + n)).
    { intros s_end cc' Hie Hbe Hae Hfe Hne.
      destruct (@restore_state_spec b0 s s_end var value Hinv Hie Hkey Hbe Hae Hfe)
        as [r [Hr [Hir [Hbr [Hdr [Har [Hcr Hfr]]]]]]].
      rewrite Hr. cbn [bind].
      eapply ospec_weaken; [apply (IH cc' r); auto| |auto].
      - rewrite Hdr; auto.
      - rewrite Hdr; auto.
      - intros res [Hi [Hf [Hfalse Htrue]]].
        split; auto. split; [eapply same_flags_trans; eauto|].
        split; auto. intros E. destruct (Hfalse E) as [B [D [A N]]].
        split; [congruence|]. split; [congruence|]. split; [congruence|].
        intros g Hg [Heq|Hin].
        + apply (Hne g). rewrite Hbe, Heq. apply fills_assign; auto.
        + rewrite Hbr in N. exact (N g Hg Hin). }
    destruct (is_safe (board s) var value) eqn:Hsafe.
    2:{ eapply ospec_weaken; [apply (IH cc s); auto| |auto].
        intros res [Hi [Hf [Hfalse Htrue]]].
        split; auto. split; auto. split; auto.
        intros E. destruct (Hfalse E) as [B [D [A N]]].
        repeat (split; auto). intros g Hg [Heq|Hin].
        - eapply fills_unsafe; eauto. lia.
        - exact (N g Hg Hin). }
    destruct (@assign_spec b0 s var value Hinv Hkey Hval Hsafe)
      as [s1 [Ha [Hinv1 [Hb1 [Hd1 [Hao1 [Hc1 Hf1]]]]]]].
    rewrite Ha. cbn [bind].
    assert (Hcell1 : cellp (board s1) var = value)
      by (rewrite Hb1, cellp_set_cell, pos_eqb_refl; auto).
    destruct (if use_forward_checking s1
              then forward_check_with_conflicts s1 var value
              else (None, s1)) as [fc s2] eqn:Efc.
    assert (Hfc : inv b0 s2 /\ propagated s1 s2 /\
                  (fc <> None -> forall g, ~ fills (board s1) g)).
    { destruct (use_forward_checking s1).
      - unfold forward_check_with_conflicts in Efc.
        eapply forward_check_loop_spec in Efc; eauto.
        + tauto.
        + lia.
        + intros q. apply in_all_positions.
      - inversion Efc; subst. split; auto.
        split; [apply propagated_refl | congruence]. }
    destruct Hfc as [Hinv2 [Hp2 Hno2]].
    pose proof Hp2 as [Hb2 [Hk2 [Hao2 [Hc2 Hf2]]]].
    destruct fc as [fc|].
    { apply Retry; auto; try congruence.
      - eapply same_flags_trans; eauto.
      - rewrite Hb2. apply Hno2. discriminate. }
    eapply ospec_bind with
      (P := fun r => inv b0 (snd r) /\ propagated s2 (snd r) /\
                     (fst r <> None -> forall g, ~ fills (board s2) g)).
    { destruct (use_ac3 s2).
      - eapply ospec_weaken; [apply ac3_with_conflicts_spec; eauto| |lia].
        intros r [H1 [H2 [H3 H4]]]. cbv beta. auto.
      - simpl. split; auto. split; [apply propagated_refl | congruence]. }
    intros [ac s3] [Hinv3 [Hp3 Hno3]]. cbn [fst snd] in Hinv3, Hp3, Hno3.
    pose proof Hp3 as [Hb3 [Hk3 [Hao3 [Hc3 Hf3]]]].
    assert (Hfl3 : same_flags s s3)
      by (eapply same_flags_trans; [|exact Hf3];
          eapply same_flags_trans; eauto).
    destruct ac as [ac|].
    { apply Retry; auto; try congruence.
      rewrite Hb3. apply Hno3. discriminate. }
    eapply ospec_bind.
    { apply Hrec; auto.
      rewrite <- length_keys, Hk3, Hk2, Hd1, keys_dict_del.
      rewrite length_filter_remove; [|apply (inv_nodup Hinv)|auto].
      rewrite length_keys; auto. }
    intros [[success nc] s4] [Hinv4 [Hf4 [Hfalse Htrue]]].
    cbn [fst snd] in Hinv4, Hf4, Hfalse, Htrue.
    destruct success.
    + simpl. split; auto. split; [eapply same_flags_trans; eauto|].
      split; [discriminate|]. auto.
    + destruct (Hfalse eq_refl) as [B [D [A N]]].
      apply Retry; auto; try congruence.
      * eapply same_flags_trans; eauto.
      * rewrite B. exact N.
Qed.

Lemma backtrack_spec (b0 : grid) (fuel : nat) :
  forall s,
    inv b0 s ->
    ospec (backtrack_with_conflicts fuel s) (search_post b0 s)
          (fuel < ac3_budget + 1 + length (domains s)).
Proof.
  induction fuel as [|fuel IH]; intros s Hinv.
  - cbn [backtrack_with_conflicts ospec]. lia.
  - cbn [backtrack_with_conflicts].
    destruct (get_next_variable s) as [var|] eqn:Evar.
    2:{ simpl. split; auto. split; [apply same_flags_refl|].
        split; [discriminate|]. intros _.
        eapply get_next_variable_none; eauto. }
    pose proof (@get_next_variable_some b0 s var Hinv Evar) as Hkey.
    destruct (get_ordered_values_spec s var Hkey)
      as [dom [values [Hget [Hvalues Hin]]]].
    rewrite Hvalues. cbn [bind].
    eapply ospec_weaken;
      [apply (@try_values_spec b0 (backtrack_with_conflicts fuel) fuel
                               (length (domains s)) var)| |].
    + intros s3 Hinv3 Hlen.
      eapply ospec_weaken; [apply IH; auto|auto|]. lia.
    + exact Hinv.
    + exact Hkey.
    + reflexivity.
    + intros v Hv. apply Hin in Hv.
      apply (inv_dom Hinv var dom (dict_get_In _ _ Hget)). exact Hv.
    + intros r [Hi [Hf [Hfalse Htrue]]]. split; auto. split; auto.
      split; auto. intros E. destruct (Hfalse E) as [B [D [A N]]].
      repeat (split; auto). intros g Hg.
      apply (N g Hg). apply Hin.
      apply (inv_sound Hinv Hg _ _ (dict_get_In _ _ Hget)).
    + lia.
Qed.

End SearchSpec.

(** ** [solve] on a constructed solver *)

(** What [solve] guarantees when started on [s]. *)
Definition solve_post (b0 : grid) (s : SudokuSolver)
           (r : bool * SudokuSolver) : Prop :=
  inv b0 (snd r) /\ same_flags s (snd r) /\
  (fst r = false -> board (snd r) = board s /\ forall g, ~ fills (board s) g) /\
  (fst r = true -> forall p, in_range p -> cellp (board (snd r)) p <> 0%Z).

Section SolveSpec.
Context {iteration : SetIteration}.

Lemma solve_spec (b0 : grid) (fuel : nat) (s : SudokuSolver) :
  inv b0 s ->
  ospec (solve fuel s) (solve_post b0 s) (fuel < search_budget).
Proof.
  intros Hinv. unfold solve.
  eapply ospec_bind with
    (P := fun r => inv b0 (snd r) /\ propagated s (snd r) /\
                   (fst r <> None -> forall g, ~ fills (board s) g)).
  { destruct (use_ac3 s).
    - eapply ospec_weaken; [apply ac3_with_conflicts_spec; eauto| |].
      + intros r [H1 [H2 [H3 H4]]]. cbv beta. auto.
      + unfold search_budget. lia.
    - simpl. split; auto. split; [apply propagated_refl | congruence]. }
  intros [ic s1] [Hinv1 [Hp1 Hno1]]. cbn [fst snd] in Hinv1, Hp1, Hno1.
  pose proof Hp1 as [Hb1 [Hk1 [Hao1 [Hc1 Hf1]]]].
  destruct ic as [ic|].
  - simpl. split; auto. split; auto. split; [|discriminate].
    intros _. split; auto. apply Hno1. discriminate.
  - eapply ospec_bind.
    { eapply ospec_weaken; [apply backtrack_spec; eauto|intros a H; exact H|].
      destruct (inv_total Hinv1) as [_ L]. unfold search_budget. lia. }
    intros [[success nc] s2] [Hinv2 [Hf2 [Hfalse Htrue]]].
    cbn [fst snd] in Hinv2, Hf2, Hfalse, Htrue.
    simpl. split; auto. split; [eapply same_flags_trans; eauto|].
    split; auto. intros E. cbn [fst snd] in *.
    destruct (Hfalse E) as [B [_ [_ N]]].
    split; [congruence|]. rewrite <- Hb1. exact N.
Qed.

Lemma run_spec (fuel : nat) (brd : pyboard) (mrv fc ac3 lcv : bool) :
  is_valid_board brd = true ->
  ospec (run fuel brd mrv fc ac3 lcv)
        (fun r => inv (ints_of brd) (snd r) /\
                  (fst r = false ->
                   board (snd r) = ints_of brd /\
                   forall g, ~ fills (ints_of brd) g) /\
                  (fst r = true ->
                   forall p, in_range p -> cellp (board (snd r)) p <> 0%Z))
        (fuel < search_budget).
Proof.
  intros Hv. unfold run. rewrite init_done by auto. cbn [bind].
  destruct (@inv_init brd mrv fc ac3 lcv _ (@init_done brd mrv fc ac3 lcv Hv))
    as [_ [Hinv [Hb _]]].
  eapply ospec_weaken; [apply solve_spec; eauto| |auto].
  intros r [H1 [H2 [H3 H4]]]. split; auto.
Qed.

End SolveSpec.

(** ** The search on rows that are distinct objects *)

Lemma nth_map_lt {A B : Type} (f : A -> B) (l : list A) (d : A) (d' : B)
      (k : nat) :
  k < length l -> nth k (map f l) d' = f (nth k l d).
Proof.
  intros H. rewrite (nth_indep _ d' (f d)) by (rewrite length_map; auto).
  apply map_nth.
Qed.

(** The write through the row objects is the write to the store of rows,
    seen through the board. *)
Lemma contents_store_cell (h : store) (refs : board_ref) (i j : nat) (v : Z) :
  (forall k, k < length refs -> nth k refs 0 < length h) ->
  i < length refs ->
  contents (store_cell h refs i j v) refs
  = set_cell_in_place refs (contents h refs) i j v.
Proof.
  intros Hh Hi. unfold contents, store_cell, set_cell_in_place.
  rewrite length_map.
  apply nth_ext with (d := []) (d' := []).
  - rewrite !length_map, length_seq. reflexivity.
  - rewrite length_map. intros k Hk.
    rewrite (nth_map_lt _ _ 0) by auto.
    rewrite (nth_map_lt _ _ 0) by (rewrite length_seq; auto).
    rewrite seq_nth by auto. cbn [Nat.add].
    rewrite (nth_map_lt _ _ 0) by auto.
    unfold row_at at 1.
    rewrite nth_list_set by (apply Hh; auto).
    destruct (nth k refs 0 =? nth i refs 0) eqn:E; auto.
    apply Nat.eqb_eq in E. rewrite E. reflexivity.
Qed.

Lemma wf_set_cell_in_place (refs : board_ref) (b : grid) (i j : nat) (v : Z) :
  wf_grid b -> wf_grid (set_cell_in_place refs b i j v).
Proof.
  intros [Hlen Hrows]. unfold set_cell_in_place. split.
  - rewrite length_map, length_seq. auto.
  - apply Forall_forall. intros row Hrow.
    apply in_map_iff in Hrow as [k [<- Hk]]. apply in_seq in Hk.
    assert (Hl : length (nth k b []) = 9)
      by (apply wf_grid_row; [split; auto | lia]).
    destruct (nth k refs 0 =? nth i refs 0); auto.
    rewrite list_set_length; auto.
Qed.

Section DistinctRows.
Context {iteration : SetIteration}.
Variable refs : board_ref.
Hypothesis refs_distinct : NoDup refs.
Hypothesis refs_length : length refs = 9.

(** On rows that are distinct objects a write changes one row. *)
Lemma set_cell_in_place_distinct (b : grid) (i j : nat) (v : Z) :
  wf_grid b -> i < 9 -> set_cell_in_place refs b i j v = set_cell b i j v.
Proof.
  intros [Hlen Hrows] Hi. unfold set_cell_in_place, set_cell.
  apply nth_ext with (d := []) (d' := []).
  - rewrite length_map, length_seq, list_set_length. reflexivity.
  - rewrite length_map, length_seq. intros k Hk.
    rewrite (nth_map_lt _ _ 0) by (rewrite length_seq; auto).
    rewrite seq_nth by auto. cbn [Nat.add].
    rewrite nth_list_set by lia.
    destruct (k =? i) eqn:E.
    + apply Nat.eqb_eq in E. subst k. rewrite Nat.eqb_refl. reflexivity.
    + apply Nat.eqb_neq in E.
      destruct (nth k refs 0 =? nth i refs 0) eqn:E'; auto.
      apply Nat.eqb_eq in E'. exfalso. apply E.
      apply (proj1 (NoDup_nth refs 0) refs_distinct); auto; lia.
Qed.

Lemma assign_in_place (s : SudokuSolver) (var : pos) (value : Z) :
  wf_grid (board s) -> in_range var ->
  InPlace.assign refs s var value = assign s var value.
Proof.
  intros Hwf [Hi Hj]. unfold InPlace.assign, assign.
  rewrite set_cell_in_place_distinct; auto.
Qed.

Lemma restore_state_in_place (s : SudokuSolver) (var : pos)
      (old_domains : domain_map) (old_conflicts : dict (list pos)) :
  wf_grid (board s) -> in_range var ->
  InPlace.restore_state refs s var old_domains old_conflicts
  = restore_state s var old_domains old_conflicts.
Proof.
  intros Hwf [Hi Hj]. unfold InPlace.restore_state, restore_state.
  rewrite set_cell_in_place_distinct; auto.
Qed.

Lemma try_values_in_place (b0 : grid)
      (recurse recurse' : SudokuSolver -> outcome search_result)
      (fuel n : nat) (var : pos) :
  (forall s3, inv b0 s3 -> S (length (domains s3)) = n ->
              recurse' s3 = recurse s3 /\
              ospec (recurse s3) (search_post b0 s3) True) ->
  forall values cc s,
    inv b0 s -> In var (keys (domains s)) -> length (domains s) = n ->
    (forall v, In v values -> (1 <= v <= 9)%Z) ->
    InPlace.try_values refs recurse' fuel var values cc s
    = try_values recurse fuel var values cc s.
Proof.
  intros Hrec.
  induction values as [|value rest IH]; intros cc s Hinv Hkey Hlen Hvals;
    [reflexivity|].
  cbn [InPlace.try_values try_values].
  assert (Hrest : forall v, In v rest -> (1 <= v <= 9)%Z)
    by (intros v Hv; apply Hvals; right; auto).
  assert (Hval : (1 <= value <= 9)%Z) by (apply Hvals; left; auto).
  pose proof (@inv_key_range b0 s var Hinv Hkey) as Hvar.
  pose proof (inv_wf Hinv) as Hwf.
  assert (Retry : forall s_end cc',
    inv b0 s_end ->
    board s_end = set_cell (board s) (fst var) (snd var) value ->
    assignment_order s_end = assignment_order s ++ [var] ->
    same_flags s s_end ->
    (s3 <- InPlace.restore_state refs s_end var (domains s)
                                 (conflict_sets s) ;;
     InPlace.try_values refs recurse' fuel var rest cc' s3)
    = (s3 <- restore_state s_end var (domains s) (conflict_sets s) ;;
       try_values recurse fuel var rest cc' s3)).
  { intros s_end cc' Hie Hbe Hae Hfe.
    rewrite restore_state_in_place by (auto; apply (inv_wf Hie)).
    destruct (@restore_state_spec b0 s s_end var value Hinv Hie Hkey Hbe Hae Hfe)
      as [r [Hr [Hir [Hbr [Hdr [Har [Hcr Hfr]]]]]]].
    rewrite Hr. cbn [bind]. apply IH; auto; rewrite Hdr; auto. }
  destruct (is_safe (board s) var value) eqn:Hsafe; [|apply IH; auto].
  rewrite assign_in_place by auto.
  destruct (@assign_spec b0 s var value Hinv Hkey Hval Hsafe)
    as [s1 [Ha [Hinv1 [Hb1 [Hd1 [Hao1 [Hc1 Hf1]]]]]]].
  rewrite Ha. cbn [bind].
  assert (Hcell1 : cellp (board s1) var = value)
    by (rewrite Hb1, cellp_set_cell, pos_eqb_refl; auto).
  destruct (if use_forward_checking s1
            then forward_check_with_conflicts s1 var value
            else (None, s1)) as [fc s2] eqn:Efc.
  assert (Hfc : inv b0 s2 /\ propagated s1 s2).
  { destruct (use_forward_checking s1).
    - unfold forward_check_with_conflicts in Efc.
      eapply forward_check_loop_spec in Efc; eauto.
      + tauto.
      + lia.
      + intros q. apply in_all_positions.
    - inversion Efc; subst. split; auto. apply propagated_refl. }
  destruct Hfc as [Hinv2 Hp2].
  pose proof Hp2 as [Hb2 [Hk2 [Hao2 [Hc2 Hf2]]]].
  destruct fc as [fc|].
  { apply Retry; auto; try congruence. eapply same_flags_trans; eauto. }
  assert (Hac : ospec (if use_ac3 s2 then ac3_with_conflicts fuel s2
                       else Done (None, s2))
                      (fun r => inv b0 (snd r) /\ propagated s2 (snd r)) True).
  { destruct (use_ac3 s2).
    - eapply ospec_weaken; [apply ac3_with_conflicts_spec; eauto| |auto].
      intros r [H1 [H2 _]]. auto.
    - simpl. split; auto. apply propagated_refl. }
  destruct (if use_ac3 s2 then ac3_with_conflicts fuel s2
            else Done (None, s2)) as [[ac s3]| |]; cbn [bind]; auto.
  cbn [ospec fst snd] in Hac. destruct Hac as [Hinv3 Hp3].
  pose proof Hp3 as [Hb3 [Hk3 [Hao3 [Hc3 Hf3]]]].
  assert (Hfl3 : same_flags s s3)
    by (eapply same_flags_trans; [|exact Hf3];
        eapply same_flags_trans; eauto).
  destruct ac as [ac|].
  { apply Retry; auto; congruence. }
  assert (Hlen3 : S (length (domains s3)) = n).
  { rewrite <- length_keys, Hk3, Hk2, Hd1, keys_dict_del.
    rewrite length_filter_remove; [|apply (inv_nodup Hinv)|auto].
    rewrite length_keys; auto. }
  destruct (Hrec s3 Hinv3 Hlen3) as [Erec Hpost].
  rewrite Erec.
  destruct (recurse s3) as [[[success nc] s4]| |]; cbn [bind]; auto.
  cbn [ospec] in Hpost. destruct Hpost as [Hinv4 [Hf4 [Hfalse _]]].
  cbn [fst snd] in Hinv4, Hf4, Hfalse.
  destruct success; auto.
  destruct (Hfalse eq_refl) as [B [D [A N]]].
  apply Retry; auto; try congruence.
  eapply same_flags_trans; eauto.
Qed.

Lemma backtrack_in_place (b0 : grid) (fuel : nat) :
  forall s,
    inv b0 s ->
    InPlace.backtrack_with_conflicts refs fuel s
    = backtrack_with_conflicts fuel s.
Proof.
  induction fuel as [|fuel IH]; intros s Hinv; [reflexivity|].
  cbn [InPlace.backtrack_with_conflicts backtrack_with_conflicts].
  destruct (get_next_variable s) as [var|] eqn:Evar; auto.
  pose proof (@get_next_variable_some b0 s var Hinv Evar) as Hkey.
  destruct (get_ordered_values_spec s var Hkey)
    as [dom [values [Hget [Hvalues Hin]]]].
  rewrite Hvalues. cbn [bind].
  apply (@try_values_in_place b0 (backtrack_with_conflicts fuel)
           (InPlace.backtrack_with_conflicts refs fuel) fuel
           (length (domains s)) var); auto.
  - intros s3 Hinv3 _. split; [apply IH; auto|].
    eapply ospec_weaken; [apply backtrack_spec; eauto|auto|auto].
  - intros v Hv. apply Hin in Hv.
    apply (inv_dom Hinv var dom (dict_get_In _ _ Hget)). exact Hv.
Qed.

Lemma solve_in_place (b0 : grid) (fuel : nat) (s : SudokuSolver) :
  inv b0 s -> InPlace.solve refs fuel s = solve fuel s.
Proof.
  intros Hinv. unfold InPlace.solve, solve.
  assert (Hac : ospec (if use_ac3 s then ac3_with_conflicts fuel s
                       else Done (None, s))
                      (fun r => inv b0 (snd r)) True).
  { destruct (use_ac3 s).
    - eapply ospec_weaken; [apply ac3_with_conflicts_spec; eauto| |auto].
      intros r [H1 _]. auto.
    - simpl. auto. }
  destruct (if use_ac3 s then ac3_with_conflicts fuel s
            else Done (None, s)) as [[ic s1]| |]; cbn [bind]; auto.
  cbn [ospec snd] in Hac. destruct ic; auto.
  rewrite (@backtrack_in_place b0 fuel s1 Hac). reflexivity.
Qed.

(** A run on a board whose nine rows are distinct objects is the run that
    rewrites one row at a time. *)
Lemma run_in_place (fuel : nat) (brd : pyboard) (mrv fc ac3 lcv : bool) :
  InPlace.run refs fuel brd mrv fc ac3 lcv = run fuel brd mrv fc ac3 lcv.
Proof.
  unfold InPlace.run, run.
  destruct (init brd mrv fc ac3 lcv) as [s| |] eqn:E; cbn [bind]; auto.
  destruct (@inv_init brd mrv fc ac3 lcv s E) as [_ [Hinv _]].
  apply (@solve_in_place _ fuel s Hinv).
Qed.

End DistinctRows.

(** ** Rows that are one object *)

(** Rows of [b] that are one object hold the same cells. *)
Definition same_rows (refs : board_ref) (b : grid) : Prop :=
  forall i k, i < length b -> k < length b ->
              nth i refs 0 = nth k refs 0 -> nth i b [] = nth k b [].

Lemma contents_same_rows (h : store) (refs : board_ref) :
  same_rows refs (contents h refs).
Proof.
  unfold same_rows, contents. rewrite length_map. intros i k Hi Hk E.
  rewrite (nth_map_lt _ _ 0), (nth_map_lt _ _ 0) by auto.
  rewrite E. reflexivity.
Qed.

Lemma length_set_cell_in_place (refs : board_ref) (b : grid) (i j : nat)
      (v : Z) :
  length (set_cell_in_place refs b i j v) = length b.
Proof. unfold set_cell_in_place. rewrite length_map, length_seq. auto. Qed.

Lemma nth_set_cell_in_place (refs : board_ref) (b : grid) (i j k : nat)
      (v : Z) :
  k < length b ->
  nth k (set_cell_in_place refs b i j v) []
  = if nth k refs 0 =? nth i refs 0 then list_set (nth k b []) j v
    else nth k b [].
Proof.
  intros Hk. unfold set_cell_in_place.
  rewrite (nth_map_lt _ _ 0) by (rewrite length_seq; auto).
  rewrite seq_nth by auto. reflexivity.
Qed.

(** A second write to the cell replaces the first one. *)
Lemma set_cell_in_place_twice (refs : board_ref) (b : grid) (i j : nat)
      (v w : Z) :
  set_cell_in_place refs (set_cell_in_place refs b i j v) i j w
  = set_cell_in_place refs b i j w.
Proof.
  apply nth_ext with (d := []) (d' := []).
  - rewrite !length_set_cell_in_place. reflexivity.
  - rewrite !length_set_cell_in_place. intros k Hk.
    rewrite !nth_set_cell_in_place
      by (rewrite ?length_set_cell_in_place; auto).
    destruct (nth k refs 0 =? nth i refs 0); auto.
    apply list_set_twice.
Qed.

(** Writing 0 to an empty cell changes nothing, in whatever rows the cell
    lies. *)
Lemma set_cell_in_place_empty (refs : board_ref) (b : grid) (i j : nat) :
  same_rows refs b -> i < length b -> cell b i j = 0%Z ->
  set_cell_in_place refs b i j 0%Z = b.
Proof.
  intros Hsame Hi Hz.
  apply nth_ext with (d := []) (d' := []).
  - apply length_set_cell_in_place.
  - rewrite length_set_cell_in_place. intros k Hk.
    rewrite nth_set_cell_in_place by auto.
    destruct (nth k refs 0 =? nth i refs 0) eqn:E; auto.
    apply Nat.eqb_eq in E. rewrite (Hsame k i Hk Hi E).
    unfold cell in Hz. rewrite <- Hz. apply list_set_same.
Qed.

(** ** The constructor writes to its own objects *)

(** Every object of [h0] is in [h], as it was. *)
Definition unchanged (h0 h : Heap.heap) : Prop :=
  forall a, a < length h0 -> nth_error h a = nth_error h0 a.

Lemma unchanged_length (h0 h : Heap.heap) :
  unchanged h0 h -> length h0 <= length h.
Proof.
  intros H. destruct (Nat.le_gt_cases (length h0) (length h)) as [L|L]; auto.
  exfalso. assert (Ha : length h < length h0) by lia.
  specialize (H _ Ha).
  rewrite (proj2 (nth_error_None h (length h)) (le_n _)) in H.
  symmetry in H. apply nth_error_None in H. lia.
Qed.

Lemma nth_error_list_set_other {A : Type} (l : list A) (n m : nat) (x : A) :
  m <> n -> nth_error (list_set l n x) m = nth_error l m.
Proof.
  revert n m; induction l as [|y t IH]; intros [|n] [|m] H; simpl; auto;
    try congruence.
Qed.

Lemma nth_error_list_set_same {A : Type} (l : list A) (n : nat) (x : A) :
  n < length l -> nth_error (list_set l n x) n = Some x.
Proof.
  revert n; induction l as [|y t IH]; intros [|n] H; simpl in *; auto;
    try lia.
  apply IH. lia.
Qed.

Lemma nth_error_lt {A : Type} (l : list A) (n : nat) (x : A) :
  nth_error l n = Some x -> n < length l.
Proof. intros H. apply nth_error_Some. congruence. Qed.

Lemma rows_at_spec (h : Heap.heap) (rows : list nat) :
  forall brd,
    Heap.rows_at h rows = Some brd ->
    length brd = length rows /\
    forall i r, nth_error rows i = Some r ->
                nth_error h r = Some (Heap.Cells (nth i brd [])).
Proof.
  induction rows as [|a t IH]; intros brd H; cbn [Heap.rows_at] in H.
  - inversion H. split; auto. intros [|i] r; discriminate.
  - unfold Heap.cells_at in H.
    destruct (nth_error h a) as [[]|] eqn:Ea; try discriminate.
    destruct (Heap.rows_at h t) as [rs|] eqn:Et; try discriminate.
    inversion H; subst. destruct (IH _ eq_refl) as [L N].
    split; [simpl; auto|]. intros [|i] r Hr; simpl in Hr.
    + inversion Hr; subst. exact Ea.
    + apply N; auto.
Qed.

Lemma rows_at_unchanged (h h' : Heap.heap) (rows : list nat) :
  forall brd,
    Heap.rows_at h rows = Some brd -> unchanged h h' ->
    Heap.rows_at h' rows = Some brd.
Proof.
  induction rows as [|a t IH]; intros brd H U; cbn [Heap.rows_at] in *; auto.
  unfold Heap.cells_at in *.
  destruct (nth_error h a) as [[]|] eqn:Ea; try discriminate.
  destruct (Heap.rows_at h t) as [rs|] eqn:Et; try discriminate.
  rewrite (U a (nth_error_lt _ _ Ea)), Ea, (IH _ eq_refl U). exact H.
Qed.

Lemma board_at_unchanged (h h' : Heap.heap) (b : nat) (brd : pyboard) :
  Heap.board_at h b = Some brd -> unchanged h h' ->
  Heap.board_at h' b = Some brd.
Proof.
  unfold Heap.board_at. intros H U.
  destruct (nth_error h b) as [[]|] eqn:Eb; try discriminate.
  rewrite (U b (nth_error_lt _ _ Eb)), Eb.
  apply rows_at_unchanged with (h := h); auto.
Qed.

Lemma cell_ints_of (brd : pyboard) (i j : nat) :
  cell (ints_of brd) i j = int_of (nth j (nth i brd []) PyOther).
Proof.
  unfold cell, ints_of.
  change (@nil Z) with (map int_of []). rewrite map_nth.
  change 0%Z with (int_of PyOther). rewrite map_nth. reflexivity.
Qed.

Lemma getitem2_board (h : Heap.heap) (b : nat) (brd : pyboard) (i j : nat) :
  Heap.board_at h b = Some brd ->
  i < length brd -> j < length (nth i brd []) ->
  Heap.getitem2 b i j h = inl (nth j (nth i brd []) PyOther, h).
Proof.
  unfold Heap.board_at, Heap.getitem2. intros H Hi Hj.
  destruct (nth_error h b) as [[rows| | | | |]|]; try discriminate.
  destruct (rows_at_spec _ _ H) as [L N]. rewrite L in Hi.
  destruct (nth_error rows i) as [r|] eqn:Er;
    [|apply nth_error_None in Er; lia].
  rewrite (N i r Er).
  destruct (nth_error (nth i brd []) j) as [x|] eqn:Ex;
    [|apply nth_error_None in Ex; lia].
  rewrite (nth_error_nth _ _ PyOther Ex). reflexivity.
Qed.

(** The entry [kv] of the dictionary object names the set that the entry
    [kv'] of the dictionary of the embedding holds. *)
Definition holds (h : Heap.heap) (kv : pos * nat) (kv' : pos * list Z)
  : Prop :=
  fst kv = fst kv' /\ nth_error h (snd kv) = Some (Heap.Digits (snd kv')).

(** The dictionary at [d] and its sets were created after [h0], no set is
    stored under two keys, and the dictionary holds [dm]. *)
Definition owned (h0 : Heap.heap) (d : nat) (h : Heap.heap) (dm : domain_map)
  : Prop :=
  unchanged h0 h /\ length h0 <= d /\
  exists items,
    nth_error h d = Some (Heap.Domains items) /\
    NoDup (map fst items) /\ NoDup (map snd items) /\
    Forall (fun kv => length h0 <= snd kv) items /\
    Forall2 (holds h) items dm.

Lemma holds_sets_at (h : Heap.heap) (items : dict nat) (dm : domain_map) :
  Forall2 (holds h) items dm -> Heap.sets_at h items = Some dm.
Proof.
  induction 1 as [|[k a] [k' vs] items dm [Hk Ha] _ IH]; cbn [Heap.sets_at];
    auto.
  cbn [fst snd] in Hk, Ha. rewrite Ha, IH. subst. reflexivity.
Qed.

Lemma owned_domains_at (h0 h : Heap.heap) (d : nat) (dm : domain_map) :
  owned h0 d h dm -> Heap.domains_at h d = Some dm.
Proof.
  intros [_ [_ [items [Hd [_ [_ [_ F]]]]]]]. unfold Heap.domains_at.
  rewrite Hd. apply holds_sets_at; auto.
Qed.

Lemma holds_keys (h : Heap.heap) (items : dict nat) (dm : domain_map) :
  Forall2 (holds h) items dm -> map fst items = map fst dm.
Proof.
  induction 1 as [|kv kv' items dm [Hk _] _ IH]; simpl; auto.
  rewrite Hk, IH. reflexivity.
Qed.

Lemma dict_mem_map_fst {V W : Type} (d : dict V) (d' : dict W) (k : pos) :
  map fst d = map fst d' -> dict_mem k d = dict_mem k d'.
Proof.
  unfold dict_mem. revert d'.
  induction d as [|kv t IH]; intros [|kv' t'] H; simpl in *;
    try discriminate; auto.
  inversion H as [[H1 H2]]. rewrite H1, (IH t' H2). reflexivity.
Qed.

Lemma NoDup_fst_inj {V : Type} (d : dict V) (k : pos) (v w : V) :
  NoDup (map fst d) -> In (k, v) d -> In (k, w) d -> v = w.
Proof.
  induction d as [|[k' x] t IH]; simpl; [tauto|].
  intros Hnd Hv Hw. inversion Hnd as [|? ? Hk Ht]; subst.
  destruct Hv as [Hv|Hv], Hw as [Hw|Hw].
  - congruence.
  - inversion Hv; subst. exfalso. apply Hk.
    apply in_map_iff. exists (k, w). auto.
  - inversion Hw; subst. exfalso. apply Hk.
    apply in_map_iff. exists (k, v). auto.
  - apply IH; auto.
Qed.

Lemma NoDup_snd_inj (d : dict nat) (k k' : pos) (a : nat) :
  NoDup (map snd d) -> In (k, a) d -> In (k', a) d -> k = k'.
Proof.
  induction d as [|[k0 x] t IH]; simpl; [tauto|].
  intros Hnd Hv Hw. inversion Hnd as [|? ? Hk Ht]; subst.
  destruct Hv as [Hv|Hv], Hw as [Hw|Hw].
  - congruence.
  - inversion Hv; subst. exfalso. apply Hk.
    apply in_map_iff. exists (k', a). auto.
  - inversion Hw; subst. exfalso. apply Hk.
    apply in_map_iff. exists (k, a). auto.
  - apply IH; auto.
Qed.

Lemma Forall2_map_r_in {A B C : Type} (R : A -> B -> Prop)
      (R' : A -> C -> Prop) (g : B -> C) (l : list A) (l' : list B) :
  Forall2 R l l' ->
  (forall x y, In x l -> R x y -> R' x (g y)) ->
  Forall2 R' l (map g l').
Proof.
  induction 1 as [|x y l l' Hxy _ IH]; intros H; simpl; constructor.
  - apply H; [left|]; auto.
  - apply IH. intros x' y' Hin. apply H. right; auto.
Qed.

Lemma keys_dict_set_nat {V : Type} (d : dict V) (k : pos) (v : V) :
  map fst (dict_set d k v)
  = if dict_mem k d then map fst d else map fst d ++ [k].
Proof.
  unfold dict_mem.
  induction d as [|[k' v'] t IH]; cbn [dict_set existsb map fst app]; auto.
  destruct (pos_eqb k' k) eqn:E; cbn [orb map fst]; auto.
  rewrite IH. destruct (existsb _ t); reflexivity.
Qed.

Lemma In_dict_set {V : Type} (d : dict V) (k : pos) (v : V) (kv : pos * V) :
  In kv (dict_set d k v) -> In kv d \/ kv = (k, v).
Proof.
  induction d as [|[k' v'] t IH]; cbn [dict_set].
  - intros [H|[]]; auto.
  - destruct (pos_eqb k' k) eqn:E.
    + apply pos_eqb_eq in E. subst k'. intros [H|H]; auto.
      left. right. auto.
    + intros [H|H]; [left; left; auto|].
      destruct (IH H); auto. left; right; auto.
Qed.

Lemma NoDup_snd_dict_set (d : dict nat) (k : pos) (a : nat) :
  NoDup (map snd d) -> ~ In a (map snd d) ->
  NoDup (map snd (dict_set d k a)).
Proof.
  induction d as [|[k' v'] t IH]; cbn [dict_set map snd]; intros Hnd Ha.
  - constructor; auto.
  - inversion Hnd as [|? ? Hv Ht]; subst.
    destruct (pos_eqb k' k); cbn [map snd].
    + constructor; auto. intros H. apply Ha. right. exact H.
    + constructor.
      * intros H. apply in_map_iff in H as [[k1 a1] [E H]].
        cbn [snd] in E. subst a1.
        apply In_dict_set in H as [H|H].
        -- apply Hv. apply in_map_iff. exists (k1, v'). auto.
        -- inversion H; subst. apply Ha. left. reflexivity.
      * apply IH; auto. intros H. apply Ha. right. exact H.
Qed.

Lemma Forall2_dict_set (R : pos * nat -> pos * list Z -> Prop)
      (items : dict nat) (dm : domain_map) (k : pos) (a : nat) (vs : list Z) :
  Forall2 R items dm ->
  (forall x y, R x y -> fst x = fst y) ->
  (forall k', R (k', a) (k', vs)) ->
  Forall2 R (dict_set items k a) (dict_set dm k vs).
Proof.
  intros F Hk Hnew.
  induction F as [|[k1 a1] [k2 v2] items dm Hxy F IH]; cbn [dict_set].
  - constructor; auto.
  - pose proof (Hk _ _ Hxy) as E. cbn [fst] in E. subst k2.
    destruct (pos_eqb k1 k); constructor; auto.
Qed.

Lemma owned_app (h0 h : Heap.heap) (d : nat) (dm : domain_map)
      (l : list Heap.obj) :
  owned h0 d h dm -> owned h0 d (h ++ l) dm.
Proof.
  intros [U [Hd [items [Ed [N1 [N2 [Fr F]]]]]]].
  assert (K : forall a o, nth_error h a = Some o ->
                          nth_error (h ++ l) a = Some o).
  { intros a o H. rewrite nth_error_app1; auto.
    apply (nth_error_lt _ _ H). }
  split; [|split; auto].
  - intros a Ha. rewrite <- (U a Ha).
    apply nth_error_app1. pose proof (unchanged_length U). lia.
  - exists items. repeat (split; auto).
    eapply Forall2_impl; [|exact F].
    intros x y [H1 H2]. split; auto.
Qed.

Section Constructor.
Variables (h0 : Heap.heap) (b : nat) (brd : pyboard).
Hypothesis board_given : Heap.board_at h0 b = Some brd.
Hypothesis board_valid : is_valid_board brd = true.

Lemma getitem2_owned (d : nat) (h : Heap.heap) (dm : domain_map)
      (i j : nat) :
  owned h0 d h dm -> i < 9 -> j < 9 ->
  exists x, Heap.getitem2 b i j h = inl (x, h) /\
            int_of x = cell (ints_of brd) i j.
Proof.
  intros [U _] Hi Hj.
  apply is_valid_board_spec in board_valid as [L R].
  assert (Hrow : length (nth i brd []) = 9)
    by (apply R, nth_In; lia).
  exists (nth j (nth i brd []) PyOther). split.
  - apply getitem2_board.
    + apply board_at_unchanged with (h := h0); auto.
    + lia.
    + lia.
  - symmetry. apply cell_ints_of.
Qed.

(** The statement of [update_domain] on one cell of the board, as the
    embedding has it. *)
Definition struck (p : pos) (dm : domain_map) (i j : nat) : domain_map :=
  if negb (cell (ints_of brd) i j =? 0)%Z
  then dict_upd dm p (discard (cell (ints_of brd) i j))
  else dm.

Lemma strike_owned (d : nat) (p : pos) (i j : nat) (h : Heap.heap)
      (dm : domain_map) :
  i < 9 -> j < 9 ->
  owned h0 d h dm /\ dict_mem p dm = true ->
  exists h', Heap.strike b d p i j h = inl (tt, h') /\
             (owned h0 d h' (struck p dm i j) /\
              dict_mem p (struck p dm i j) = true).
Proof.
  intros Hi Hj [Ho Hm].
  destruct (@getitem2_owned d h dm i j Ho Hi Hj) as [x [Hx Ex]].
  unfold Heap.strike, Heap.mbind, struck. rewrite Hx, Ex.
  destruct (negb (cell (ints_of brd) i j =? 0)%Z);
    [|exists h; split; auto; reflexivity].
  destruct Ho as [U [Hd [items [Ed [N1 [N2 [Fr F]]]]]]].
  assert (Hmi : dict_mem p items = true)
    by (rewrite (dict_mem_map_fst _ _ p (holds_keys F)); auto).
  apply dict_mem_keys, dict_get_keys in Hmi as [a Ha].
  unfold Heap.getitem. rewrite Ed, Ha, Hx, Ex.
  pose proof (dict_get_In _ _ Ha) as Hin.
  assert (Hvs : exists vs, nth_error h a = Some (Heap.Digits vs)).
  { clear - F Hin. induction F as [|x y l l' [_ Hxy] _ IH]; [destruct Hin|].
    destruct Hin as [->|Hin]; eauto. }
  destruct Hvs as [vs Hvs].
  unfold Heap.set_discard. rewrite Hvs. eexists. split; [reflexivity|].
  assert (Hge : length h0 <= a).
  { rewrite Forall_forall in Fr. apply (Fr _ Hin). }
  assert (Hda : d <> a) by (intros ->; congruence).
  split.
  - split; [|split; auto].
    + intros a' Ha'. rewrite nth_error_list_set_other by lia. auto.
    + exists items. split; [|repeat (split; auto)].
      * rewrite nth_error_list_set_other; auto.
      * unfold dict_upd. eapply Forall2_map_r_in; [exact F|].
        intros [k ak] [k' vk] Hk [Hf Hs]. cbn [fst snd] in *. subst k'.
        destruct (pos_eqb k p) eqn:E.
        -- apply pos_eqb_eq in E. subst k.
           assert (ak = a) by (eapply NoDup_fst_inj; eauto). subst ak.
           assert (vk = vs) by congruence. subst vk.
           split; auto. cbn [snd].
           apply nth_error_list_set_same. apply (nth_error_lt _ _ Hvs).
        -- split; auto. cbn [snd].
           rewrite nth_error_list_set_other; auto.
           intros ->. apply pos_eqb_neq in E. apply E.
           eapply NoDup_snd_inj; eauto.
  - rewrite <- Hm. apply dict_mem_map_fst.
    fold (keys (dict_upd dm p (discard (cell (ints_of brd) i j)))).
    rewrite keys_dict_upd. reflexivity.
Qed.

Lemma for_each_fold {A S : Type} (R : Heap.heap -> S -> Prop)
      (body : A -> Heap.M unit) (f : S -> A -> S) (l : list A) :
  (forall x h s, In x l -> R h s ->
                 exists h', body x h = inl (tt, h') /\ R h' (f s x)) ->
  forall h s, R h s ->
    exists h', Heap.for_each l body h = inl (tt, h') /\
               R h' (fold_left f l s).
Proof.
  induction l as [|x t IH]; intros Hbody h s HR; cbn [Heap.for_each fold_left].
  - exists h. split; auto.
  - destruct (Hbody x h s (or_introl eq_refl) HR) as [h1 [E1 R1]].
    destruct (IH (fun y h' s' Hy => Hbody y h' s' (or_intror Hy)) h1 _ R1)
      as [h2 [E2 R2]].
    exists h2. split; auto. unfold Heap.mbind. rewrite E1. exact E2.
Qed.

Lemma update_domain_owned (d : nat) (p : pos) (h : Heap.heap)
      (dm : domain_map) :
  in_range p -> owned h0 d h dm ->
  exists h', Heap.update_domain b d p h = inl (tt, h') /\
             owned h0 d h' (update_domain (ints_of brd) p dm).
Proof.
  intros [Hr Hc] Ho.
  pose proof Ho as [U [Hd [items [Ed [N1 [N2 [Fr F]]]]]]].
  unfold Heap.update_domain, update_domain, Heap.mbind at 1, Heap.contains.
  rewrite Ed, (dict_mem_map_fst _ _ p (holds_keys F)).
  destruct (dict_mem p dm) eqn:Hm; cbn [negb];
    [|exists h; split; auto; reflexivity].
  destruct p as [row col]. cbn [fst snd] in Hr, Hc.
  set (R := fun (h : Heap.heap) (dm : domain_map) =>
              owned h0 d h dm /\ dict_mem (row, col) dm = true).
  destruct (@for_each_fold _ _ R
              (fun j => Heap.strike b d (row, col) row j)
              (fun dm j => struck (row, col) dm row j) range9) with
    (h := h) (s := dm) as [h1 [E1 R1]].
  { intros j h' s Hj. apply strike_owned; auto. apply in_range9; auto. }
  { split; auto. }
  destruct (@for_each_fold _ _ R
              (fun i => Heap.strike b d (row, col) i col)
              (fun dm i => struck (row, col) dm i col) range9) with
    (h := h1) (s := fold_left (fun dm j => struck (row, col) dm row j)
                              range9 dm) as [h2 [E2 R2]].
  { intros i h' s Hi. apply strike_owned; auto. apply in_range9; auto. }
  { exact R1. }
  destruct (@for_each_fold _ _ R
              (fun i => Heap.for_each (seq (3 * (col / 3)) 3)
                          (fun j => Heap.strike b d (row, col) i j))
              (fun dm i => fold_left (fun dm' j => struck (row, col) dm' i j)
                                     (seq (3 * (col / 3)) 3) dm)
              (seq (3 * (row / 3)) 3)) with
    (h := h2)
    (s := fold_left (fun dm i => struck (row, col) dm i col) range9
            (fold_left (fun dm j => struck (row, col) dm row j) range9 dm))
    as [h3 [E3 R3]].
  { intros i h' s Hi HR.
    apply (@for_each_fold _ _ R
             (fun j => Heap.strike b d (row, col) i j)
             (fun dm' j => struck (row, col) dm' i j)); auto.
    intros j h'' s' Hj. apply strike_owned.
    - apply (@box_seq_range i row); auto.
    - apply (@box_seq_range j col); auto. }
  { exact R2. }
  exists h3. unfold Heap.mbind. rewrite E1, E2. split; [exact E3|].
  apply R3.
Qed.

Lemma new_set_owned (d : nat) (k : pos) (h : Heap.heap) (dm : domain_map) :
  owned h0 d h dm ->
  exists h', Heap.setitem d k (length h) (h ++ [Heap.Digits digits])
             = inl (tt, h') /\
             owned h0 d h' (dict_set dm k digits).
Proof.
  intros [U [Hd [items [Ed [N1 [N2 [Fr F]]]]]]].
  pose proof (unchanged_length U) as L.
  pose proof (nth_error_lt _ _ Ed) as Ld.
  unfold Heap.setitem. rewrite nth_error_app1, Ed by auto.
  eexists. split; [reflexivity|].
  assert (Old : forall a o, a <> d -> nth_error h a = Some o ->
            nth_error (list_set (h ++ [Heap.Digits digits]) d
                         (Heap.Domains (dict_set items k (length h)))) a
            = Some o).
  { intros a o Ha Ho. rewrite nth_error_list_set_other by auto.
    rewrite nth_error_app1; auto. apply (nth_error_lt _ _ Ho). }
  assert (Items : forall kv, In kv items -> snd kv < length h).
  { clear - F. induction F as [|x y l l' [_ Hxy] _ IH]; intros kv [];
      subst; auto. apply (nth_error_lt _ _ Hxy). }
  split; [|split; auto].
  - intros a Ha. rewrite nth_error_list_set_other by lia.
    rewrite nth_error_app1 by lia. auto.
  - exists (dict_set items k (length h)). split; [|split; [|split; [|split]]].
    + apply nth_error_list_set_same. rewrite length_app. simpl. lia.
    + rewrite keys_dict_set_nat.
      destruct (dict_mem k items) eqn:E; auto.
      apply NoDup_app; auto.
      * constructor; [intros []|constructor].
      * intros x Hx [<-|[]].
        assert (dict_mem k items = true)
          by (apply dict_mem_keys; exact Hx).
        congruence.
    + apply NoDup_snd_dict_set; auto. intros H.
      apply in_map_iff in H as [kv [E H]]. specialize (Items kv H). lia.
    + apply Forall_forall. intros kv H.
      apply In_dict_set in H as [H|H]; [|subst kv; cbn [snd]; lia].
      rewrite Forall_forall in Fr. auto.
    + apply Forall2_dict_set.
      * eapply Forall2_impl; [|exact F].
        intros x y [H1 H2]. split; auto. apply Old; auto.
        intros E. rewrite E in H2. congruence.
      * intros x y [H _]. exact H.
      * intros k'. split; auto. cbn [snd].
        rewrite nth_error_list_set_other by lia.
        rewrite nth_error_app2, Nat.sub_diag by lia. reflexivity.
Qed.

Lemma initialize_domains_owned :
  exists h',
    Heap.initialize_domains b h0 = inl (length h0, h') /\
    owned h0 (length h0) h' (initialize_domains (ints_of brd)).
Proof.
  set (d := length h0).
  assert (Start : owned h0 d (h0 ++ [Heap.Domains []]) []).
  { split; [|split; auto].
    - intros a Ha. apply nth_error_app1; auto.
    - exists []. split; [|repeat split; constructor].
      unfold d. rewrite nth_error_app2, Nat.sub_diag by lia. reflexivity. }
  destruct (@for_each_fold _ _ (owned h0 d)
              (fun i => Heap.for_each range9 (fun j =>
                 Heap.mbind (Heap.getitem2 b i j) (fun x =>
                   if (int_of x =? 0)%Z
                   then Heap.mbind (Heap.alloc (Heap.Digits digits)) (fun a =>
                          Heap.mbind (Heap.setitem d (i, j) a) (fun _ =>
                            Heap.update_domain b d (i, j)))
                   else Heap.ret tt)))
              (fun doms i => fold_left (fun doms' j =>
                 if (cell (ints_of brd) i j =? 0)%Z
                 then update_domain (ints_of brd) (i, j)
                        (dict_set doms' (i, j) digits)
                 else doms') range9 doms)
              range9) with (h := h0 ++ [Heap.Domains []])
                           (s := @nil (pos * list Z)) as [h1 [E1 R1]].
  { intros i h s Hi HR. apply in_range9 in Hi.
    apply (@for_each_fold _ _ (owned h0 d)
             (fun j => Heap.mbind (Heap.getitem2 b i j) (fun x =>
                if (int_of x =? 0)%Z
                then Heap.mbind (Heap.alloc (Heap.Digits digits)) (fun a =>
                       Heap.mbind (Heap.setitem d (i, j) a) (fun _ =>
                         Heap.update_domain b d (i, j)))
                else Heap.ret tt))
             (fun doms' j =>
                if (cell (ints_of brd) i j =? 0)%Z
                then update_domain (ints_of brd) (i, j)
                       (dict_set doms' (i, j) digits)
                else doms')); auto.
    intros j h' s' Hj HR'. apply in_range9 in Hj.
    destruct (@getitem2_owned d h' s' i j HR' Hi Hj) as [x [Hx Ex]].
    unfold Heap.mbind at 1. rewrite Hx, Ex.
    destruct (cell (ints_of brd) i j =? 0)%Z;
      [|exists h'; split; auto; reflexivity].
    destruct (@new_set_owned d (i, j) h' s' HR') as [h2 [E2 R2]].
    destruct (@update_domain_owned d (i, j) h2 _ (conj Hi Hj) R2)
      as [h3 [E3 R3]].
    exists h3. split; auto.
    unfold Heap.mbind, Heap.alloc. rewrite E2. exact E3. }
  { exact Start. }
  exists h1. split; auto. subst d.
  unfold Heap.initialize_domains.
  unfold Heap.mbind at 1. unfold Heap.alloc at 1. cbv beta iota.
  unfold Heap.mbind at 1. rewrite E1. reflexivity.
Qed.

End Constructor.

(** The constructor on the heap does what the constructor of the embedding
    does on the board that the heap holds, and leaves every object of the
    caller as it was. *)
Lemma init_on_heap (h : Heap.heap) (b : nat) (mrv fc ac3 lcv : bool) :
  match Heap.board_at h b with
  | None => Heap.init b mrv fc ac3 lcv h = inr Heap.TypeError
  | Some brd =>
      match init brd mrv fc ac3 lcv with
      | Done s0 =>
          exists s h',
            Heap.init b mrv fc ac3 lcv h = inl (s, h') /\
            Heap.board s = b /\ unchanged h h' /\
            Heap.board_at h' b = Some brd /\
            board s0 = ints_of brd /\
            Heap.domains_at h' (Heap.domains s) = Some (domains s0)
      | Raise e => Heap.init b mrv fc ac3 lcv h = inr (Heap.Exn e)
      | OutOfFuel => False
      end
  end.
Proof.
  unfold Heap.init, Heap.mbind, Heap.read_board.
  destruct (Heap.board_at h b) as [brd|] eqn:Eb; auto.
  unfold init. destruct (is_valid_board brd) eqn:Ev; cbn [negb]; auto.
  destruct (@initialize_domains_owned h b brd Eb Ev) as [h1 [E1 R1]].
  rewrite E1. unfold Heap.alloc, Heap.ret.
  do 2 eexists. split; [reflexivity|].
  apply owned_app with (l := [Heap.Conflicts []]) in R1.
  apply owned_app with (l := [Heap.Order []]) in R1.
  cbn [Heap.board Heap.domains board domains].
  split; auto. split; [apply R1|]. split; [|split; auto].
  - apply board_at_unchanged with (h := h); auto. apply R1.
  - apply owned_domains_at with (h0 := h). exact R1.
Qed.

(** ** The write of the search, on the heap and on the board *)

Lemma rows_at_intro (h : Heap.heap) (rows : list nat) :
  forall f : nat -> list pyval,
    (forall k, k < length rows ->
               nth_error h (nth k rows 0) = Some (Heap.Cells (f k))) ->
    Heap.rows_at h rows = Some (map f (seq 0 (length rows))).
Proof.
  induction rows as [|a t IH]; intros f H; cbn [Heap.rows_at]; auto.
  unfold Heap.cells_at.
  pose proof (H 0 (Nat.lt_0_succ _)) as H0. cbn [nth] in H0. rewrite H0.
  rewrite (IH (fun k => f (S k))).
  - cbn [length seq map]. rewrite <- seq_shift, map_map. reflexivity.
  - intros k Hk. apply (H (S k)). simpl. lia.
Qed.

Lemma map_list_set {A B : Type} (f : A -> B) (l : list A) (n : nat) (x : A) :
  map f (list_set l n x) = list_set (map f l) n (f x).
Proof.
  revert n; induction l as [|y t IH]; intros [|n]; simpl; auto.
  rewrite IH. reflexivity.
Qed.

(** [board[i][j] = v] on the heap changes the row object at index [i]; the
    board that the list then holds is the one that [set_cell_in_place]
    gives, the addresses of the rows telling which rows are one object. *)
Lemma setitem2_in_place (h : Heap.heap) (b : nat) (rows : list nat)
      (brd : pyboard) (i j : nat) (v : Z) :
  nth_error h b = Some (Heap.Rows rows) ->
  Heap.board_at h b = Some brd ->
  i < length brd -> j < length (nth i brd []) ->
  exists h' brd',
    Heap.setitem2 b i j (PyInt v) h = inl (tt, h') /\
    nth_error h' b = Some (Heap.Rows rows) /\
    Heap.board_at h' b = Some brd' /\
    ints_of brd' = set_cell_in_place rows (ints_of brd) i j v.
Proof.
  intros Hb Hbrd Hi Hj. unfold Heap.board_at in Hbrd. rewrite Hb in Hbrd.
  destruct (rows_at_spec _ _ Hbrd) as [L N]. rewrite L in Hi.
  destruct (nth_error rows i) as [r|] eqn:Er;
    [|apply nth_error_None in Er; lia].
  assert (Hr : r = nth i rows 0) by (symmetry; apply nth_error_nth; auto).
  pose proof (N i r Er) as Hcells.
  assert (Hbr : b <> r) by (intros ->; congruence).
  set (f := fun k => if nth k rows 0 =? r
                     then list_set (nth k brd []) j (PyInt v)
                     else nth k brd []).
  exists (list_set h r (Heap.Cells (list_set (nth i brd []) j (PyInt v)))).
  exists (map f (seq 0 (length rows))).
  split; [|split; [|split]].
  - unfold Heap.setitem2. rewrite Hb, Er, Hcells.
    apply Nat.ltb_lt in Hj. rewrite Hj. reflexivity.
  - rewrite nth_error_list_set_other; auto.
  - unfold Heap.board_at. rewrite nth_error_list_set_other, Hb by auto.
    apply rows_at_intro. intros k Hk. unfold f.
    assert (Ek : nth_error rows k = Some (nth k rows 0))
      by (apply nth_error_nth'; auto).
    pose proof (N k _ Ek) as Hk'.
    destruct (nth k rows 0 =? r) eqn:E.
    + apply Nat.eqb_eq in E. rewrite E in *.
      assert (Same : nth k brd [] = nth i brd []) by congruence.
      rewrite Same. apply nth_error_list_set_same.
      apply (nth_error_lt _ _ Hcells).
    + apply Nat.eqb_neq in E. rewrite nth_error_list_set_other; auto.
  - unfold set_cell_in_place, ints_of. rewrite map_map, length_map, L.
    apply map_ext_in. intros k Hk. apply in_seq in Hk. unfold f.
    rewrite <- Hr.
    rewrite (nth_map_lt _ _ []) by lia.
    destruct (nth k rows 0 =? r); auto. apply map_list_set.
Qed.

(** The boolean answer of a run, when there is one. *)
Definition answer (o : outcome (bool * SudokuSolver)) : option bool :=
  match o with
  | Done r => Some (fst r)
  | _ => None
  end.

(** The solver object after a run; the argument [s0] is returned when the
    run has no result. *)
Definition final_solver (s0 : SudokuSolver) (o : outcome (bool * SudokuSolver))
  : SudokuSolver :=
  match o with
  | Done r => snd r
  | _ => s0
  end.

(** * Boards used to exercise the statements *)

Open Scope Z_scope.

(** A completed puzzle. *)
Definition solved_board : grid :=
  [[5; 3; 4; 6; 7; 8; 9; 1; 2];
   [6; 7; 2; 1; 9; 5; 3; 4; 8];
   [1; 9; 8; 3; 4; 2; 5; 6; 7];
   [8; 5; 9; 7; 6; 1; 4; 2; 3];
   [4; 2; 6; 8; 5; 3; 7; 9; 1];
   [7; 1; 3; 9; 2; 4; 8; 5; 6];
   [9; 6; 1; 5; 3; 7; 2; 8; 4];
   [2; 8; 7; 4; 1; 9; 6; 3; 5];
   [3; 4; 5; 2; 8; 6; 1; 7; 9]].

(** The same puzzle with thirty clues. *)
Definition easy_board : grid :=
  [[5; 3; 0; 0; 7; 0; 0; 0; 0];
   [6; 0; 0; 1; 9; 5; 0; 0; 0];
   [0; 9; 8; 0; 0; 0; 0; 6; 0];
   [8; 0; 0; 0; 6; 0; 0; 0; 3];
   [4; 0; 0; 8; 0; 3; 0; 0; 1];
   [7; 0; 0; 0; 2; 0; 0; 0; 6];
   [0; 6; 0; 0; 0; 0; 2; 8; 0];
   [0; 0; 0; 4; 1; 9; 0; 0; 5];
   [0; 0; 0; 0; 8; 0; 0; 7; 9]].

(** Two empty cells of the first row that both need a 5. *)
Definition forced_pair_board : grid :=
  [[0; 0; 4; 6; 7; 8; 9; 1; 2];
   [0; 0; 0; 0; 0; 0; 0; 0; 0];
   [0; 0; 0; 0; 0; 0; 0; 0; 0];
   [3; 0; 0; 0; 0; 0; 0; 0; 0];
   [0; 0; 0; 0; 0; 0; 0; 0; 0];
   [0; 0; 0; 0; 0; 0; 0; 0; 0];
   [0; 3; 0; 0; 0; 0; 0; 0; 0];
   [0; 0; 0; 0; 0; 0; 0; 0; 0];
   [0; 0; 0; 0; 0; 0; 0; 0; 0]].

(** A full board that breaks every constraint. *)
Definition all_ones : grid := repeat (repeat 1 9%nat) 9%nat.

(** The completed puzzle with three cells emptied: the first two of the
    first row (5 and 3) and the 3 of the first column. *)
Definition three_blanks_board : grid :=
  [[0; 0; 4; 6; 7; 8; 9; 1; 2];
   [6; 7; 2; 1; 9; 5; 3; 4; 8];
   [1; 9; 8; 3; 4; 2; 5; 6; 7];
   [8; 5; 9; 7; 6; 1; 4; 2; 3];
   [4; 2; 6; 8; 5; 3; 7; 9; 1];
   [7; 1; 3; 9; 2; 4; 8; 5; 6];
   [9; 6; 1; 5; 3; 7; 2; 8; 4];
   [2; 8; 7; 4; 1; 9; 6; 3; 5];
   [0; 4; 5; 2; 8; 6; 1; 7; 9]].


(** The completed puzzle with its last cell emptied and a second 5 written
    into the first column. *)
Definition clashing_board : grid :=
  [[5; 3; 4; 6; 7; 8; 9; 1; 2];
   [5; 7; 2; 1; 9; 5; 3; 4; 8];
   [1; 9; 8; 3; 4; 2; 5; 6; 7];
   [8; 5; 9; 7; 6; 1; 4; 2; 3];
   [4; 2; 6; 8; 5; 3; 7; 9; 1];
   [7; 1; 3; 9; 2; 4; 8; 5; 6];
   [9; 6; 1; 5; 3; 7; 2; 8; 4];
   [2; 8; 7; 4; 1; 9; 6; 3; 5];
   [3; 4; 5; 2; 8; 6; 1; 7; 0]].

Close Scope Z_scope.

(** Nine row objects, one for each index of the outer list. *)
Definition nine_rows : board_ref := seq 0 9.

(** The board [[[0]*9]*9]: one row object, held nine times. *)
Definition zero_board : grid := repeat (repeat 0%Z 9) 9.
Definition one_row : board_ref := repeat 0 9.


(** The heap of a caller who holds that board: eight row objects, and the
    list of rows at address 8. *)
Definition shared_rows_heap : Heap.heap :=
  Heap.Cells (map PyInt [1; 0; 0; 0; 0; 0; 0; 0; 0]%Z)
  :: repeat (Heap.Cells (repeat (PyInt 0) 9)) 7
  ++ [Heap.Rows [0; 0; 1; 2; 3; 4; 5; 6; 7]].

(** The solver object and the heap after a constructor call; the heap is
    returned as it was when the call raised. *)
Definition built (h : Heap.heap) (r : (Heap.solver * Heap.heap) + Heap.raised)
  : Heap.solver * Heap.heap :=
  match r with
  | inl sh => sh
  | inr _ => (Heap.mkSolver 0 false false false false 0 0 0, h)
  end.

Definition no_solver : SudokuSolver :=
  mkSolver [] false false false false [] [] [] [].

(** The solver built by a constructor call; [no_solver] when it raised. *)
Definition constructed (o : outcome SudokuSolver) : SudokuSolver :=
  match o with
  | Done s => s
  | _ => no_solver
  end.

(** * The claims *)

(** ** Construction *)

(** The board is a 9x9 grid of integers in [0, 9]. *)
Definition well_formed_board (brd : pyboard) : Prop :=
  length brd = 9 /\
  forall row, In row brd ->
    length row = 9 /\
    forall x, In x row -> exists z, x = PyInt z /\ (0 <= z <= 9)%Z.

Lemma all_ones_inconsistent : ~ consistent all_ones.
Proof.
  intros H.
  refine (H (0, 0) (0, 1) _ _ _ _ _);
    try (split; simpl; lia); try reflexivity.
  vm_compute; discriminate.
Qed.

(** C7. The constructor raises (a [ValueError], the InvalidInputError of the
    specification) exactly when the board is not a 9x9 grid of integers in
    [0, 9]; a solver object exists only when the board is such a grid; and
    such a grid is accepted whatever its clues, even when they clash, as
    they do on the board filled with ones. *)
Theorem C7_constructor_validation :
  forall (brd : pyboard) (mrv fc ac3 lcv : bool),
    (init brd mrv fc ac3 lcv = Raise ValueError <-> ~ well_formed_board brd) /\
    (forall s, init brd mrv fc ac3 lcv = Done s -> well_formed_board brd) /\
    (well_formed_board brd ->
     exists s, init brd mrv fc ac3 lcv = Done s /\ board s = ints_of brd) /\
    (well_formed_board (py_of all_ones) /\ ~ consistent all_ones /\
     exists s, init (py_of all_ones) mrv fc ac3 lcv = Done s).
Proof.
  intros brd mrv fc ac3 lcv.
  assert (V : is_valid_board brd = true <-> well_formed_board brd)
    by apply is_valid_board_spec.
  split; [split|split; [|split; [|split; [|split]]]].
  - intros H Hw. apply V in Hw. rewrite init_done in H by auto. discriminate.
  - intros Hn. unfold init. destruct (is_valid_board brd) eqn:E; auto.
    exfalso. apply Hn, V. reflexivity.
  - intros s H. apply V. apply inv_init in H. tauto.
  - intros Hw. apply V in Hw. rewrite init_done by auto.
    eexists; split; reflexivity.
  - apply (proj1 (is_valid_board_spec (py_of all_ones))). reflexivity.
  - apply all_ones_inconsistent.
  - rewrite init_done by reflexivity. eexists; reflexivity.
Qed.

(** C10. Construction leaves the caller's board as it was. The constructor
    runs on the heap that holds the caller's list and its rows. When it
    returns, the solver holds the address it was given, every object that
    existed before the call is as it was, so the list holds the board it
    held; and the dictionary of the new solver holds the domains that the
    constructor of the embedding computes from that board, whose own board
    is, cell for cell, the board passed in. *)
Theorem C10_constructor_keeps_board :
  forall (h h' : Heap.heap) (b : nat) (mrv fc ac3 lcv : bool)
         (s : Heap.solver),
    Heap.init b mrv fc ac3 lcv h = inl (s, h') ->
    Heap.board s = b /\
    (forall a, a < length h -> nth_error h' a = nth_error h a) /\
    exists brd s0,
      Heap.board_at h b = Some brd /\ Heap.board_at h' b = Some brd /\
      init brd mrv fc ac3 lcv = Done s0 /\
      board s0 = ints_of brd /\ py_of (board s0) = brd /\
      Heap.domains_at h' (Heap.domains s) = Some (domains s0).
Proof.
  intros h h' b mrv fc ac3 lcv s H.
  pose proof (init_on_heap h b mrv fc ac3 lcv) as R.
  destruct (Heap.board_at h b) as [brd|] eqn:Eb; [|congruence].
  destruct (init brd mrv fc ac3 lcv) as [s0|e|] eqn:Ei;
    [|congruence|destruct R].
  destruct R as [s1 [h1 [E [Hb [U [Hb' [Hs0 Hd]]]]]]].
  rewrite E in H. inversion H; subst s1 h1. clear H.
  split; auto. split; [exact U|].
  exists brd, s0. repeat (split; auto).
  rewrite Hs0. apply py_of_ints_of.
  apply inv_init in Ei as [Hv _]. exact Hv.
Qed.

Lemma C10_constructor_keeps_board_witness :
  Heap.board
    (fst (built shared_rows_heap
            (Heap.init 8 true true true true shared_rows_heap))) = 8 /\
  (forall a, a < length shared_rows_heap ->
     nth_error
       (snd (built shared_rows_heap
               (Heap.init 8 true true true true shared_rows_heap))) a
     = nth_error shared_rows_heap a) /\
  exists brd s0,
    Heap.board_at shared_rows_heap 8 = Some brd /\
    Heap.board_at
      (snd (built shared_rows_heap
              (Heap.init 8 true true true true shared_rows_heap))) 8
    = Some brd /\
    init brd true true true true = Done s0 /\
    board s0 = ints_of brd /\ py_of (board s0) = brd /\
    Heap.domains_at
      (snd (built shared_rows_heap
              (Heap.init 8 true true true true shared_rows_heap)))
      (Heap.domains
         (fst (built shared_rows_heap
                 (Heap.init 8 true true true true shared_rows_heap))))
    = Some (domains s0).
Proof.
  apply (@C10_constructor_keeps_board shared_rows_heap
           (snd (built shared_rows_heap
                   (Heap.init 8 true true true true shared_rows_heap)))
           8 true true true true
           (fst (built shared_rows_heap
                   (Heap.init 8 true true true true shared_rows_heap)))).
  vm_compute. reflexivity.
Defined.

(** ** Termination and the failing run *)





(** ** A full board without clashes passes [validate_solution] *)

Lemma NoDup_map_distinct {A B : Type} (f : A -> B) (l : list A) :
  NoDup l -> (forall x y, In x l -> In y l -> x <> y -> f x <> f y) ->
  NoDup (map f l).
Proof.
  induction 1 as [|a t Ha Ht IH]; intros Hf; simpl; constructor.
  - intros Hin. apply in_map_iff in Hin as [y [Hy Hin]].
    apply (Hf y a); simpl; auto. intros ->. contradiction.
  - apply IH. intros x y Hx Hy. apply Hf; simpl; auto.
Qed.

Lemma has_all_digits_incl (l : list Z) :
  incl digits l -> has_all_digits l = true.
Proof.
  intros H. unfold has_all_digits. apply forallb_forall. intros x Hx.
  apply existsb_exists. exists x. split; [apply H; auto | apply Z.eqb_refl].
Qed.

(** Nine cells that are pairwise in one unit hold, on a full board without
    clashes, the nine digits. *)
Lemma complete_unit (b : grid) (cells : list pos) :
  (forall p, in_range p -> (1 <= cellp b p <= 9)%Z) ->
  (forall p q, in_range p -> in_range q -> peer p q = true ->
               cellp b p <> cellp b q) ->
  (forall p, In p cells -> in_range p) -> NoDup cells -> length cells = 9 ->
  (forall p q, In p cells -> In q cells -> p <> q ->
               same_unit (fst p) (snd p) (fst q) (snd q) = true) ->
  has_all_digits (map (cellp b) cells) = true.
Proof.
  intros Hdig Hcons Hrange Hnd Hlen Hunit.
  apply has_all_digits_incl.
  apply NoDup_length_incl.
  - apply NoDup_map_distinct; auto. intros p q Hp Hq Hne.
    apply Hcons; auto. apply peer_same_unit. auto.
  - rewrite length_map, Hlen. reflexivity.
  - intros x Hx. apply in_map_iff in Hx as [p [<- Hp]].
    apply digits_range. auto.
Qed.

Lemma list_as_map_nth {A : Type} (l : list A) (d : A) :
  l = map (fun j => nth j l d) (seq 0 (length l)).
Proof.
  set (f := fun j => nth j l d).
  apply nth_ext with (d := d) (d' := f 0).
  - rewrite length_map, length_seq. reflexivity.
  - intros n Hn. rewrite map_nth, seq_nth by auto. reflexivity.
Qed.

Fixpoint nodupb (l : list pos) : bool :=
  match l with
  | [] => true
  | h :: t => negb (pos_mem h t) && nodupb t
  end.

Lemma nodupb_NoDup (l : list pos) : nodupb l = true -> NoDup l.
Proof.
  induction l as [|h t IH]; simpl; [constructor|].
  rewrite andb_true_iff, negb_true_iff. intros [H1 H2].
  constructor; auto. rewrite <- pos_mem_In. congruence.
Qed.

(** A checkable form of what [complete_unit] asks of nine cells. *)
Definition unit_okb (cells : list pos) : bool :=
  (length cells =? 9) && nodupb cells
  && forallb (fun p => (fst p <? 9) && (snd p <? 9)) cells
  && forallb (fun p => forallb (fun q =>
                pos_eqb p q || same_unit (fst p) (snd p) (fst q) (snd q))
              cells) cells.

Lemma complete_unit_checked (b : grid) (cells : list pos) :
  (forall p, in_range p -> (1 <= cellp b p <= 9)%Z) ->
  (forall p q, in_range p -> in_range q -> peer p q = true ->
               cellp b p <> cellp b q) ->
  unit_okb cells = true ->
  has_all_digits (map (cellp b) cells) = true.
Proof.
  intros Hdig Hcons H. unfold unit_okb in H.
  rewrite !andb_true_iff in H. destruct H as [[[H1 H2] H3] H4].
  rewrite forallb_forall in H3, H4.
  apply complete_unit; auto.
  - intros p Hp. specialize (H3 p Hp).
    apply andb_true_iff in H3 as [Ha Hb].
    apply Nat.ltb_lt in Ha, Hb. split; auto.
  - apply nodupb_NoDup; auto.
  - apply Nat.eqb_eq; auto.
  - intros p q Hp Hq Hne. specialize (H4 p Hp).
    rewrite forallb_forall in H4. specialize (H4 q Hq).
    apply orb_true_iff in H4 as [H4|H4]; auto.
    apply pos_eqb_eq in H4. contradiction.
Qed.

Lemma nine_cases (P : nat -> Prop) :
  P 0 -> P 1 -> P 2 -> P 3 -> P 4 -> P 5 -> P 6 -> P 7 -> P 8 ->
  forall i, i < 9 -> P i.
Proof.
  intros H0 H1 H2 H3 H4 H5 H6 H7 H8 i Hi.
  do 9 (destruct i as [|i]; [assumption|]). lia.
Qed.

Lemma validate_full (b : grid) :
  wf_grid b ->
  (forall p, in_range p -> (1 <= cellp b p <= 9)%Z) ->
  (forall p q, in_range p -> in_range q -> peer p q = true ->
               cellp b p <> cellp b q) ->
  validate_solution b = true.
Proof.
  intros Hwf Hdig Hcons.
  assert (Rows : forallb has_all_digits b = true).
  { apply forallb_forall. intros row Hrow.
    destruct (In_nth _ _ [] Hrow) as [i [Hi Hnth]].
    destruct Hwf as [Hlen Hrows]. rewrite Hlen in Hi.
    assert (Hl : length row = 9)
      by (rewrite Forall_forall in Hrows; auto).
    rewrite (list_as_map_nth row 0%Z), Hl, <- Hnth.
    clear Hnth Hrow Hl row. revert i Hi.
    apply nine_cases;
      apply (@complete_unit_checked b (map (fun j => (_, j)) range9));
      auto. }
  assert (Cols : forallb (fun col =>
                   has_all_digits (map (fun row => cell b row col) range9))
                 range9 = true).
  { apply forallb_forall. intros col Hcol. apply in_range9 in Hcol.
    revert col Hcol.
    apply nine_cases;
      apply (@complete_unit_checked b (map (fun i => (i, _)) range9));
      auto. }
  assert (Boxes : forallb (fun box_row =>
                    forallb (fun box_col =>
                      has_all_digits
                        (flat_map (fun i =>
                           map (fun j => cell b (box_row + i) (box_col + j))
                               (seq 0 3)) (seq 0 3)))
                      [0; 3; 6]) [0; 3; 6] = true).
  { cbn [forallb]. rewrite !andb_true_iff.
    repeat split;
      match goal with
      | |- has_all_digits (flat_map (fun i => map (fun j =>
             cell b (?r + i) (?c + j)) _) _) = true =>
          apply (@complete_unit_checked b
                   (flat_map (fun i => map (fun j => (r + i, c + j))
                                           (seq 0 3)) (seq 0 3))); auto
      end. }
  unfold validate_solution. rewrite Rows, Cols, Boxes. reflexivity.
Qed.

Lemma ints_of_range (brd : pyboard) (p : pos) :
  is_valid_board brd = true -> in_range p ->
  (0 <= cellp (ints_of brd) p <= 9)%Z.
Proof.
  intros Hv [Hi Hj]. apply is_valid_board_spec in Hv as [Hlen Hrows].
  unfold cellp, cell, ints_of.
  change (@nil Z) with (map int_of []). rewrite map_nth.
  change 0%Z with (int_of PyOther). rewrite map_nth.
  assert (Hrow : In (nth (fst p) brd []) brd) by (apply nth_In; lia).
  destruct (Hrows _ Hrow) as [Hl Hx].
  destruct (Hx (nth (snd p) (nth (fst p) brd []) PyOther)) as [z [-> Hz]].
  - apply nth_In. lia.
  - exact Hz.
Qed.

Lemma consistent_of_placed (b0 b : grid) :
  placed_ok b0 b -> consistent b0 -> consistent b.
Proof.
  intros [Hclue Hplaced] Hc p q Hp Hq Hpeer Hnz.
  destruct (Z.eq_dec (cellp b0 p) 0) as [Hp0|Hp0].
  - destruct (Hplaced p Hp Hp0 Hnz) as [_ Hpeers].
    intros E. apply (Hpeers q Hq); [rewrite peer_sym; auto | auto].
  - rewrite (Hclue p Hp Hp0).
    destruct (Z.eq_dec (cellp b0 q) 0) as [Hq0|Hq0].
    + destruct (Z.eq_dec (cellp b q) 0) as [Hqz|Hqz]; [congruence|].
      destruct (Hplaced q Hq Hq0 Hqz) as [_ Hpeers].
      rewrite <- (Hclue p Hp Hp0). apply Hpeers; auto.
    + rewrite (Hclue q Hq Hq0). apply Hc; auto.
Qed.


(** ** The successful run *)




(** The rows have to be distinct objects. On the board [[[0]*9]*9], which
    has no clue at all, a write to a cell shows in every row: plain
    backtracking fills the one row with the digits from 1 to 9 and returns
    true, and the nine equal rows are no solution. *)
Lemma solve_on_one_shared_row :
  contents [repeat 0%Z 9] one_row = zero_board /\
  is_valid_board (py_of zero_board) = true /\
  answer (InPlace.run one_row search_budget (py_of zero_board)
                      false false false false)
  = Some true /\
  board (final_solver no_solver
           (InPlace.run one_row search_budget (py_of zero_board)
                        false false false false))
  = repeat [1; 2; 3; 4; 5; 6; 7; 8; 9]%Z 9 /\
  validate_solution
    (board (final_solver no_solver
              (InPlace.run one_row search_budget (py_of zero_board)
                           false false false false)))
  = false.
Proof. vm_compute. repeat split. Qed.

(** ** The sixteen configurations *)

(** [g] is a solution of the puzzle [brd]: a 9x9 grid that keeps the clues and
    passes [validate_solution]. *)
Definition solution (brd : pyboard) (g : grid) : Prop :=
  wf_grid g /\
  (forall i j, i < 9 -> j < 9 -> cell (ints_of brd) i j <> 0%Z ->
               cell g i j = cell (ints_of brd) i j) /\
  validate_solution g = true.




(** ** What the answer of [solve] means *)

Lemma NoDup_digits : NoDup digits.
Proof.
  unfold digits. repeat constructor; simpl; intuition discriminate.
Qed.

Lemma has_all_digits_inv (l : list Z) :
  has_all_digits l = true -> length l = 9 -> NoDup l /\ incl l digits.
Proof.
  intros H Hlen.
  assert (I : incl digits l).
  { intros x Hx. unfold has_all_digits in H. rewrite forallb_forall in H.
    specialize (H x Hx). apply existsb_exists in H as [y [Hy E]].
    apply Z.eqb_eq in E. subst. exact Hy. }
  split.
  - apply (NoDup_incl_NoDup NoDup_digits); auto. rewrite Hlen. reflexivity.
  - apply NoDup_length_incl; auto; [apply NoDup_digits|].
    rewrite Hlen. reflexivity.
Qed.

Lemma NoDup_map_neq {A B : Type} (f : A -> B) (l : list A) (x y : A) :
  NoDup (map f l) -> In x l -> In y l -> x <> y -> f x <> f y.
Proof.
  induction l as [|a t IH]; simpl; [tauto|].
  intros Hnd Hx Hy Hne. inversion Hnd as [|? ? Ha Ht]; subst.
  destruct Hx as [->|Hx], Hy as [->|Hy].
  - contradiction.
  - intros E. apply Ha. rewrite E. apply in_map. exact Hy.
  - intros E. apply Ha. rewrite <- E. apply in_map. exact Hx.
  - apply IH; auto.
Qed.

(** The cells of the box whose upper left corner is ([br], [bc]). *)
Definition box_cells (br bc : nat) : list pos :=
  flat_map (fun i => map (fun j => (br + i, bc + j)) (seq 0 3)) (seq 0 3).

Lemma In_box_cells (br bc : nat) (p : pos) :
  In p (box_cells br bc) <->
  br <= fst p < br + 3 /\ bc <= snd p < bc + 3.
Proof.
  unfold box_cells. rewrite in_flat_map. split.
  - intros [i [Hi H]]. apply in_map_iff in H as [j [<- Hj]].
    apply in_seq in Hi, Hj. simpl. lia.
  - intros [Hi Hj]. exists (fst p - br). split; [apply in_seq; lia|].
    apply in_map_iff. exists (snd p - bc). split; [|apply in_seq; lia].
    destruct p as [a b]. simpl in *. f_equal; lia.
Qed.

Lemma box_values (g : grid) (br bc : nat) :
  flat_map (fun i => map (fun j => cell g (br + i) (bc + j)) (seq 0 3))
           (seq 0 3)
  = map (cellp g) (box_cells br bc).
Proof. reflexivity. Qed.

(** A 9x9 grid that passes [validate_solution] holds digits only, and no
    two peers carry the same one. *)
Lemma validate_solution_inv (g : grid) :
  wf_grid g -> validate_solution g = true ->
  (forall p, in_range p -> (1 <= cellp g p <= 9)%Z) /\
  (forall p q, in_range p -> in_range q -> peer p q = true ->
               cellp g p <> cellp g q).
Proof.
  intros Hwf Hv. unfold validate_solution in Hv.
  destruct (forallb has_all_digits g) eqn:Rows; [|discriminate].
  cbn [negb] in Hv.
  destruct (forallb _ range9) eqn:Cols; [|discriminate].
  cbn [negb] in Hv.
  destruct (forallb _ [0; 3; 6]) eqn:Boxes; [|discriminate].
  clear Hv. rewrite forallb_forall in Rows, Cols, Boxes.
  assert (Row : forall i, i < 9 ->
            NoDup (map (cellp g) (map (fun j => (i, j)) range9)) /\
            incl (map (cellp g) (map (fun j => (i, j)) range9)) digits).
  { intros i Hi. apply has_all_digits_inv.
    - rewrite map_map. cbn [cellp fst snd].
      pose proof (wf_grid_row Hwf Hi) as Hl.
      assert (E : map (fun j => cell g i j) range9 = nth i g []).
      { rewrite (list_as_map_nth (nth i g []) 0%Z) at 1.
        rewrite Hl. reflexivity. }
      change (has_all_digits (map (fun j => cell g i j) range9) = true).
      rewrite E. apply Rows. apply nth_In. destruct Hwf; lia.
    - rewrite !length_map. reflexivity. }
  assert (Col : forall j, j < 9 ->
            NoDup (map (cellp g) (map (fun i => (i, j)) range9))).
  { intros j Hj. apply has_all_digits_inv.
    - rewrite map_map. apply (Cols j). apply in_range9; auto.
    - rewrite !length_map. reflexivity. }
  assert (Box : forall br bc, In br [0; 3; 6] -> In bc [0; 3; 6] ->
            NoDup (map (cellp g) (box_cells br bc))).
  { intros br bc Hbr Hbc. apply has_all_digits_inv.
    - rewrite <- box_values. specialize (Boxes br Hbr). cbv beta in Boxes.
      rewrite forallb_forall in Boxes. exact (Boxes bc Hbc).
    - rewrite length_map. reflexivity. }
  assert (Corner : forall i, i < 9 -> In (3 * (i / 3)) [0; 3; 6]).
  { apply nine_cases; simpl; auto. }
  split.
  - intros [i j] [Hi Hj]. cbn [fst snd] in *.
    apply digits_range. apply (proj2 (Row i Hi)).
    apply in_map. apply in_map_iff. exists j. split; auto.
    apply in_range9; auto.
  - intros [i j] [k l] [Hi Hj] [Hk Hl] Hpeer. cbn [fst snd] in *.
    apply peer_same_unit in Hpeer as [Hne Hu]. cbn [fst snd] in Hu.
    apply same_unit_true in Hu as [->|[->|[Hbi Hbj]]].
    + apply (NoDup_map_neq _ _ (proj1 (Row k Hk))); auto;
        apply in_map_iff; eexists; split; eauto; apply in_range9; auto.
    + apply (NoDup_map_neq _ _ (Col l Hl)); auto;
        apply in_map_iff; eexists; split; eauto; apply in_range9; auto.
    + apply (NoDup_map_neq _ _
               (Box _ _ (Corner i Hi) (Corner j Hj))); auto;
        apply In_box_cells; cbn [fst snd].
      * div3 i. div3 j. lia.
      * rewrite Hbi, Hbj. div3 k. div3 l. lia.
Qed.

Lemma fills_of_solution (brd : pyboard) (g : grid) :
  solution brd g -> fills (ints_of brd) g.
Proof.
  intros [Hwf [Hkeep Hv]].
  destruct (validate_solution_inv Hwf Hv) as [Hdig Hpeers].
  split; auto. split.
  - intros [i j] [Hi Hj] Hnz. apply Hkeep; auto.
  - intros p Hp _. split; auto.
Qed.

(** ** The sixteen configurations on a puzzle with one solution *)






(** ** Invariants along the run *)

(** The solver after plain backtracking on the board with three empty
    cells. *)
Definition three_blanks_final : SudokuSolver :=
  final_solver no_solver
    (run search_budget (py_of three_blanks_board) false false false false).

(** Some pair of peers of [b] carries the same non-zero value. *)
Definition clashb (b : grid) : bool :=
  existsb (fun p =>
    existsb (fun q => peer p q && negb (cellp b p =? 0)%Z
                      && (cellp b p =? cellp b q)%Z) all_positions)
    all_positions.

Lemma clashb_sound (b : grid) : clashb b = true -> ~ consistent b.
Proof.
  unfold clashb. intros H Hc.
  apply existsb_exists in H as [p [Hp H]].
  apply existsb_exists in H as [q [Hq H]].
  rewrite !andb_true_iff, negb_true_iff, Z.eqb_neq, Z.eqb_eq in H.
  destruct H as [[Hpeer Hnz] Heq].
  apply in_all_positions in Hp, Hq.
  exact (Hc p q Hp Hq Hpeer Hnz Heq).
Qed.

(** C8, as the code has it. At every point of a run on an accepted board
    whose nine rows are distinct objects, the clues are in place and every
    value that the engine has put on an empty cell is a digit that none of
    the peers of that cell carries; hence, when the clues of the board do
    not clash, no two peers ever carry the same non-zero value. *)
Theorem C8_no_clash_is_ever_placed :
  forall (iteration : SetIteration) (refs : board_ref) (brd : pyboard)
         (mrv fc ac3 lcv : bool) (fuel : nat) (b : bool)
         (s' : SudokuSolver),
    NoDup refs -> length refs = 9 ->
    is_valid_board brd = true ->
    InPlace.run refs fuel brd mrv fc ac3 lcv = Done (b, s') ->
    forall snap, In snap (history s') ->
      placed_ok (ints_of brd) (fst snap) /\
      (consistent (ints_of brd) -> consistent (fst snap)).
Proof.
  intros iteration refs brd mrv fc ac3 lcv fuel b s' Hnd Hlen Hv Hrun
         snap Hin.
  rewrite run_in_place in Hrun by auto.
  pose proof (@run_spec iteration fuel brd mrv fc ac3 lcv Hv) as H.
  rewrite Hrun in H. simpl in H. destruct H as [Hinv _].
  pose proof (inv_hist Hinv) as Hh. rewrite Forall_forall in Hh.
  destruct (Hh snap Hin) as [_ [Hpl _]].
  split; auto. apply consistent_of_placed; auto.
Qed.

Lemma C8_no_clash_is_ever_placed_witness :
  placed_ok (ints_of (py_of three_blanks_board))
            (fst (hd ([], []) (history three_blanks_final))) /\
  (consistent (ints_of (py_of three_blanks_board)) ->
   consistent (fst (hd ([], []) (history three_blanks_final)))).
Proof.
  refine (@C8_no_clash_is_ever_placed stored_order nine_rows
            (py_of three_blanks_board) false false false false
            search_budget true three_blanks_final _ _ _ _
            (hd ([], []) (history three_blanks_final)) _).
  - apply seq_NoDup.
  - reflexivity.
  - vm_compute. reflexivity.
  - vm_compute. reflexivity.
  - vm_compute. left. reflexivity.
Defined.

(** The claim C8 as stated fails on an accepted board whose clues clash,
    held in nine distinct rows: the two 5 of its first column stay on the
    board throughout the run. *)
Lemma C8_clashing_clues_counterexample :
  NoDup nine_rows /\ length nine_rows = 9 /\
  is_valid_board (py_of clashing_board) = true /\
  answer (InPlace.run nine_rows search_budget (py_of clashing_board)
                      true true true true)
  = Some true /\
  exists snap,
    In snap (history (final_solver no_solver
                        (InPlace.run nine_rows search_budget
                                     (py_of clashing_board)
                                     true true true true))) /\
    ~ consistent (fst snap).
Proof.
  split; [apply seq_NoDup|]. split; [reflexivity|].
  split; [vm_compute; reflexivity|]. split; [vm_compute; reflexivity|].
  assert (E : existsb (fun snap => clashb (fst snap))
                (history (final_solver no_solver
                            (InPlace.run nine_rows search_budget
                                         (py_of clashing_board)
                                         true true true true))) = true)
    by (vm_compute; reflexivity).
  apply existsb_exists in E as [snap [Hin Hc]].
  exists snap. split; [exact Hin | apply clashb_sound; exact Hc].
Qed.

(** The rows have to be distinct objects. On the board [[[0]*9]*9], whose
    clues do not clash as it has none, the first write of plain
    backtracking puts a 1 into the first cell of the one row, that is, into
    the nine cells of the first column. *)
Lemma first_write_on_one_shared_row :
  contents [repeat 0%Z 9] one_row = zero_board /\
  consistent (ints_of (py_of zero_board)) /\
  exists snap,
    In snap (history (final_solver no_solver
                        (InPlace.run one_row search_budget (py_of zero_board)
                                     false false false false))) /\
    fst snap = repeat [1; 0; 0; 0; 0; 0; 0; 0; 0]%Z 9 /\
    ~ consistent (fst snap).
Proof.
  split; [reflexivity|]. split.
  - intros p q Hp Hq _ Hnz. exfalso. apply Hnz.
    assert (F : forallb (fun p => (cellp (ints_of (py_of zero_board)) p =? 0)%Z)
                        all_positions = true) by (vm_compute; reflexivity).
    rewrite forallb_forall in F.
    apply Z.eqb_eq, F, in_all_positions. exact Hp.
  - assert (E : existsb (fun snap =>
                  if list_eq_dec (list_eq_dec Z.eq_dec) (fst snap)
                       (repeat [1; 0; 0; 0; 0; 0; 0; 0; 0]%Z 9)
                  then true else false)
                  (history (final_solver no_solver
                              (InPlace.run one_row search_budget
                                           (py_of zero_board)
                                           false false false false)))
                = true)
      by (vm_compute; reflexivity).
    apply existsb_exists in E as [snap [Hin Hc]].
    exists snap. split; [exact Hin|].
    destruct (list_eq_dec (list_eq_dec Z.eq_dec) (fst snap)
                (repeat [1; 0; 0; 0; 0; 0; 0; 0; 0]%Z 9)) as [Hs|];
      [|discriminate].
    destruct snap as [g d]. cbn [fst] in *. subst g.
    split; [reflexivity|]. apply clashb_sound.
    vm_compute. reflexivity.
Qed.

(** The property that C9 states of one point of the run: no set stored for
    an empty cell holds a value that a cell of its row, column or box
    carries on the board. *)
Definition domains_fresh (snap : grid * domain_map) : Prop :=
  forall p dom v q,
    In (p, dom) (snd snap) -> cellp (fst snap) p = 0%Z -> In v dom ->
    in_range q -> same_unit (fst q) (snd q) (fst p) (snd p) = true ->
    cellp (fst snap) q <> v.







(** ** Forward checking, step by step *)

(** The empty cells in the row, column or box of [var], in the order in
    which [forward_check_with_conflicts] visits them. *)
Definition unassigned_peers (b : grid) (var : pos) : list pos :=
  filter (fun q => (cell b (fst q) (snd q) =? 0)%Z
                   && same_unit (fst q) (snd q) (fst var) (snd var))
         all_positions.

(** [value] discarded from the sets stored under the cells [qs]. *)
Definition prune_all (d : domain_map) (value : Z) (qs : list pos)
  : domain_map :=
  map (fun kv => if pos_mem (fst kv) qs
                 then (fst kv, discard value (snd kv)) else kv) d.

Lemma discard_idem (v : Z) (s : list Z) : discard v (discard v s) = discard v s.
Proof.
  unfold discard. induction s as [|h t IH]; simpl; auto.
  destruct (negb (h =? v)%Z) eqn:E; simpl; rewrite ?E, IH; reflexivity.
Qed.

Lemma prune_all_nil (d : domain_map) (v : Z) : prune_all d v [] = d.
Proof.
  unfold prune_all. rewrite <- (map_id d) at 2. apply map_ext.
  intros kv. reflexivity.
Qed.

Lemma prune_all_cons (d : domain_map) (v : Z) (q : pos) (qs : list pos) :
  prune_all (dict_upd d q (discard v)) v qs = prune_all d v (q :: qs).
Proof.
  unfold prune_all, dict_upd. rewrite map_map. apply map_ext.
  intros [k dom]. unfold pos_mem. cbn [fst snd existsb].
  destruct (pos_eqb k q) eqn:E; cbn [fst snd orb].
  - destruct (existsb (pos_eqb k) qs); [rewrite discard_idem|]; reflexivity.
  - reflexivity.
Qed.

(** What [prune_all] stores under a key. *)
Lemma prune_all_get (d : domain_map) (v : Z) (qs : list pos) (p : pos) :
  dict_get p (prune_all d v qs) =
  option_map (fun dom => if pos_mem p qs then discard v dom else dom)
             (dict_get p d).
Proof.
  unfold prune_all. induction d as [|[k dom] t IH]; simpl; auto.
  destruct (pos_mem k qs) eqn:Em; simpl;
    destruct (pos_eqb k p) eqn:E; auto;
    apply pos_eqb_eq in E; subst k; rewrite Em; reflexivity.
Qed.

Lemma pruned_cell_stays (d : domain_map) (v : Z) (c : pos) (qs : list pos) :
  dict_get c (prune_all (dict_upd d c (discard v)) v qs)
  = dict_get c (dict_upd d c (discard v)).
Proof.
  rewrite prune_all_get, dict_get_upd, pos_eqb_refl.
  destruct (dict_get c d) as [dom|]; simpl; auto.
  destruct (pos_mem c qs); [rewrite discard_idem|]; reflexivity.
Qed.

Lemma forward_check_loop_char (var : pos) (value : Z) (cells : list pos) :
  forall s,
    board (snd (forward_check_loop s var value cells)) = board s /\
    ((fst (forward_check_loop s var value cells) = None /\
      domains (snd (forward_check_loop s var value cells))
      = prune_all (domains s) value
          (filter (fun q => (cell (board s) (fst q) (snd q) =? 0)%Z
                            && same_unit (fst q) (snd q) (fst var) (snd var))
                  cells) /\
      forall q,
        In q (filter (fun q => (cell (board s) (fst q) (snd q) =? 0)%Z
                               && same_unit (fst q) (snd q)
                                            (fst var) (snd var)) cells) ->
        dict_get q (domains (snd (forward_check_loop s var value cells)))
        <> Some [])
     \/
     (fst (forward_check_loop s var value cells) = Some [var] /\
      exists pre q post,
        filter (fun q => (cell (board s) (fst q) (snd q) =? 0)%Z
                         && same_unit (fst q) (snd q) (fst var) (snd var))
               cells = pre ++ q :: post /\
        domains (snd (forward_check_loop s var value cells))
        = prune_all (domains s) value (pre ++ [q]) /\
        dict_get q (domains (snd (forward_check_loop s var value cells)))
        = Some [] /\
        forall q', In q' pre ->
          dict_get q' (domains (snd (forward_check_loop s var value cells)))
          <> Some [])).
Proof.
  induction cells as [|[i j] rest IH]; intros s.
  - simpl. split; auto. left. split; auto. split.
    + symmetry. apply prune_all_nil.
    + intros q [].
  - cbn [forward_check_loop filter fst snd].
    destruct ((cell (board s) i j =? 0)%Z
              && same_unit i j (fst var) (snd var)) eqn:Econd.
    2:{ apply IH. }
    set (s1 := with_domains s (dict_upd (domains s) (i, j) (discard value))).
    destruct (dict_mem (i, j) (domains s1)
              && match dict_get (i, j) (domains s1) with
                 | Some [] => true
                 | _ => false
                 end) eqn:Eempty.
    + cbn [fst snd]. split; auto. right. split; auto.
      exists [], (i, j), (filter
        (fun q => (cell (board s) (fst q) (snd q) =? 0)%Z
                  && same_unit (fst q) (snd q) (fst var) (snd var)) rest).
      split; auto. split.
      * unfold s1. cbn [domains with_domains app].
        rewrite <- prune_all_cons, prune_all_nil. reflexivity.
      * split; [|intros q' []].
        apply andb_true_iff in Eempty as [_ Eg].
        destruct (dict_get (i, j) (domains s1)) as [[|x t]|];
          try discriminate. reflexivity.
    + assert (Hc : dict_get (i, j) (domains s1) <> Some []).
      { intros Hg. rewrite Hg in Eempty.
        assert (Hm : dict_mem (i, j) (domains s1) = true).
        { apply dict_mem_keys. apply dict_get_keys. eauto. }
        rewrite Hm in Eempty. discriminate. }
      destruct (IH s1) as [Hb [[Hn [Hd Hq]]|[Hsome Hex]]].
      * split; auto. left. split; auto.
        change (board s1) with (board s) in Hd, Hq.
        unfold s1 in Hd at 2. cbn [domains with_domains] in Hd.
        rewrite prune_all_cons in Hd. split; auto.
        intros q [<-|Hin]; auto.
        rewrite Hd, <- prune_all_cons, pruned_cell_stays. exact Hc.
      * split; auto. right. split; auto.
        destruct Hex as [pre [q [post [Hf [Hd [Hg Hpre]]]]]].
        change (board s1) with (board s) in Hf.
        unfold s1 in Hd at 2. cbn [domains with_domains] in Hd.
        rewrite prune_all_cons in Hd.
        exists ((i, j) :: pre), q, post.
        split; [rewrite Hf; reflexivity|]. split; auto. split; auto.
        intros q' [<-|Hin]; auto.
        rewrite Hd, <- prune_all_cons, pruned_cell_stays. exact Hc.
Qed.

(** C5, as the code has it. [forward_check_with_conflicts] leaves the board
    alone and visits the empty cells of the row, column and box of the
    assigned cell in row-major order, discarding [value] from the set of each.
    When no visited set ends up empty it returns none, having pruned them
    all. Otherwise it stops at the first cell [q] whose set is empty, with
    the sets of the later cells untouched, and the conflict set it returns
    holds the assigned cell alone. *)
Theorem C5_forward_check_prunes_and_blames_the_assigned_cell :
  forall (s : SudokuSolver) (var : pos) (value : Z),
    board (snd (forward_check_with_conflicts s var value)) = board s /\
    ((fst (forward_check_with_conflicts s var value) = None /\
      domains (snd (forward_check_with_conflicts s var value))
      = prune_all (domains s) value (unassigned_peers (board s) var) /\
      forall q, In q (unassigned_peers (board s) var) ->
        dict_get q (domains (snd (forward_check_with_conflicts s var value)))
        <> Some [])
     \/
     (fst (forward_check_with_conflicts s var value) = Some [var] /\
      exists pre q post,
        unassigned_peers (board s) var = pre ++ q :: post /\
        domains (snd (forward_check_with_conflicts s var value))
        = prune_all (domains s) value (pre ++ [q]) /\
        dict_get q (domains (snd (forward_check_with_conflicts s var value)))
        = Some [] /\
        forall q', In q' pre ->
          dict_get q'
            (domains (snd (forward_check_with_conflicts s var value)))
          <> Some [])).
Proof.
  intros s var value. unfold forward_check_with_conflicts, unassigned_peers.
  apply forward_check_loop_char.
Qed.

(** The first assignment of the search, with forward checking alone, on the
    board whose first two cells both need a 5. *)
Definition forced_pair_start : SudokuSolver :=
  constructed (init (py_of forced_pair_board) false true false false).
Definition forced_pair_assigned : SudokuSolver :=
  constructed (assign forced_pair_start (0, 0) 5%Z).

(** The claim C5 as stated fails in the search on that board: the search
    picks the cell (0,0) and the value 5, forward checking empties the set
    of the peer (0,1) and returns the conflict set {(0,0)}, which does not
    hold the failing peer. *)
Lemma C5_conflict_set_counterexample :
  init (py_of forced_pair_board) false true false false
  = Done forced_pair_start /\
  get_next_variable forced_pair_start = Some (0, 0) /\
  get_ordered_values forced_pair_start (0, 0) = Done [5%Z] /\
  is_safe (board forced_pair_start) (0, 0) 5%Z = true /\
  assign forced_pair_start (0, 0) 5%Z = Done forced_pair_assigned /\
  fst (forward_check_with_conflicts forced_pair_assigned (0, 0) 5%Z)
  = Some [(0, 0)] /\
  dict_get (0, 1)
    (domains (snd (forward_check_with_conflicts forced_pair_assigned
                     (0, 0) 5%Z))) = Some [] /\
  pos_mem (0, 1) [(0, 0)] = false.
Proof. vm_compute. repeat split. Qed.

Lemma prune_all_fresh (b : grid) (d : domain_map) (var : pos) (value : Z)
      (T : list pos) :
  wf_grid b -> in_range var ->
  (forall p, In p (keys d) -> in_range p) ->
  domains_fresh (b, d) ->
  (forall k, in_range k ->
             cellp (set_cell b (fst var) (snd var) value) k = 0%Z ->
             same_unit (fst var) (snd var) (fst k) (snd k) = true ->
             In k T) ->
  domains_fresh (set_cell b (fst var) (snd var) value,
                 prune_all (dict_del d var) value T).
Proof.
  intros Hwf Hvar Hkeys Hfresh HT p dom2 v q Hin Hz Hv Hq Hu.
  cbn [fst snd] in *.
  unfold prune_all in Hin. apply in_map_iff in Hin as [[k dom1] [E Hin]].
  cbn [fst snd] in E. apply In_dict_del in Hin as [Hin Hk].
  assert (Hrk : in_range k) by (apply Hkeys; eapply In_keys; eauto).
  assert (Ek : k = p) by (destruct (pos_mem k T); inversion E; auto).
  subst k.
  assert (Epv : pos_eqb p var = false).
  { destruct (pos_eqb p var) eqn:Epv; auto.
    apply pos_eqb_eq in Epv. contradiction. }
  pose proof Hz as Hz0. rewrite cellp_set_cell, Epv in Hz0 by auto.
  rewrite cellp_set_cell by auto.
  destruct (pos_eqb q var) eqn:Eqv.
  - apply pos_eqb_eq in Eqv. subst q. intros <-.
    assert (Hm : pos_mem p T = true) by (apply pos_mem_In; auto).
    rewrite Hm in E. inversion E; subst dom2.
    apply In_discard in Hv. tauto.
  - assert (Hv1 : In v dom1).
    { destruct (pos_mem p T); inversion E; subst; auto.
      apply In_discard in Hv. tauto. }
    exact (Hfresh p dom1 v q Hin Hz0 Hv1 Hq Hu).
Qed.

Lemma forward_check_with_conflicts_eq (s : SudokuSolver) (var : pos)
      (value : Z) :
  forward_check_with_conflicts s var value
  = forward_check_loop s var value all_positions.
Proof. reflexivity. Qed.

Lemma forward_check_fresh (b : grid) (d : domain_map) (s1 : SudokuSolver)
      (var : pos) (value : Z) :
  wf_grid b -> in_range var ->
  (forall p, In p (keys d) -> in_range p) ->
  domains_fresh (b, d) ->
  board s1 = set_cell b (fst var) (snd var) value ->
  domains s1 = dict_del d var ->
  fst (forward_check_with_conflicts s1 var value) = None ->
  domains_fresh
    (board (snd (forward_check_with_conflicts s1 var value)),
     domains (snd (forward_check_with_conflicts s1 var value))).
Proof.
  intros Hwf Hvar Hkeys Hfresh Eb Ed Hnone.
  rewrite forward_check_with_conflicts_eq in *.
  destruct (forward_check_loop_char var value all_positions s1)
    as [Hb [[_ [Hd _]]|[Hsome _]]]; [|congruence].
  rewrite Hb, Hd, Eb, Ed.
  apply prune_all_fresh; auto.
  intros k Hk Hz Hu. apply filter_In. split; [apply in_all_positions; auto|].
  apply andb_true_iff. split.
  - apply Z.eqb_eq. exact Hz.
  - rewrite same_unit_sym. exact Hu.
Qed.

(** ** AC-3, step by step *)

(** [v] has a support in [dj]: some value of [dj] differs from it. *)
Definition supported (dj : list Z) (v : Z) : bool :=
  existsb (fun y => negb (y =? v)%Z) dj.

(** The values of [di] that have a support in [dj]. *)
Definition revise (di dj : list Z) : list Z := filter (supported dj) di.

Lemma filter_twice {A : Type} (f g : A -> bool) (l : list A) :
  filter g (filter f l) = filter (fun x => f x && g x) l.
Proof.
  induction l as [|h t IH]; simpl; auto.
  destruct (f h); simpl; [destruct (g h)|]; rewrite IH; reflexivity.
Qed.

Section ArcStep.
Context {iteration : SetIteration}.

Lemma remove_inconsistent_loop_char (xi xj : pos) (dj : list Z)
      (xs : list Z) :
  xi <> xj ->
  forall s removed,
    dict_get xj (domains s) = Some dj ->
    exists s1,
      remove_inconsistent_loop s xi xj xs removed
      = Done (removed || existsb (fun x => negb (supported dj x)) xs, s1) /\
      board s1 = board s /\
      domains s1
      = dict_upd (domains s) xi
          (filter (fun v => negb (existsb (Z.eqb v)
                     (filter (fun x => negb (supported dj x)) xs)))) /\
      (existsb (fun x => negb (supported dj x)) xs = false -> s1 = s).
Proof.
  intros Hne. induction xs as [|x rest IH]; intros s removed Hget.
  - exists s. simpl. rewrite orb_false_r. repeat split; auto.
    symmetry. erewrite dict_upd_ext; [apply dict_upd_id|].
    intros dom. clear. induction dom; simpl; congruence.
  - cbn [remove_inconsistent_loop existsb filter]. rewrite Hget.
    change (existsb (fun y => negb (y =? x)%Z) dj) with (supported dj x).
    destruct (supported dj x) eqn:Es; cbn [negb].
    + destruct (IH s removed Hget) as [s1 [H1 [H2 [H3 H4]]]].
      exists s1. cbn [orb]. repeat split; auto.
    + set (s' := with_domains s (dict_upd (domains s) xi (discard x))).
      assert (Hget' : dict_get xj (domains s') = Some dj).
      { unfold s'. cbn [domains with_domains]. rewrite dict_get_upd.
        assert (E : pos_eqb xj xi = false) by (apply pos_eqb_neq; congruence).
        rewrite E. exact Hget. }
      destruct (IH s' true Hget') as [s1 [H1 [H2 [H3 H4]]]].
      exists s1. rewrite H1. cbn [orb]. rewrite orb_true_r.
      repeat split; auto; [|discriminate].
      rewrite H3. unfold s'. cbn [domains with_domains].
      rewrite dict_upd_upd. apply dict_upd_ext. intros dom.
      unfold discard. rewrite filter_twice. apply filter_ext.
      intros v. cbn [existsb]. rewrite negb_orb. reflexivity.
Qed.

Lemma remove_inconsistent_values_char (s : SudokuSolver) (xi xj : pos)
      (di dj : list Z) :
  dict_get xi (domains s) = Some di -> dict_get xj (domains s) = Some dj ->
  xi <> xj ->
  exists s1,
    remove_inconsistent_values s xi xj
    = Done (negb (forallb (supported dj) di), s1) /\
    board s1 = board s /\
    dict_get xi (domains s1) = Some (revise di dj) /\
    (forall p, p <> xi -> dict_get p (domains s1) = dict_get p (domains s)) /\
    (forallb (supported dj) di = true -> s1 = s).
Proof.
  intros Hi Hj Hne. unfold remove_inconsistent_values. rewrite Hi.
  destruct (@remove_inconsistent_loop_char xi xj dj (iter_values di) Hne
              s false Hj) as [s1 [H1 [H2 [H3 H4]]]].
  assert (E : existsb (fun x => negb (supported dj x)) (iter_values di)
              = negb (forallb (supported dj) di)).
  { destruct (forallb (supported dj) di) eqn:F; cbn [negb].
    - apply existsb_false. intros x Hx. rewrite In_iter_values in Hx.
      rewrite forallb_forall in F. rewrite (F x Hx). reflexivity.
    - apply existsb_exists.
      destruct (existsb (fun x => negb (supported dj x)) di) eqn:X.
      + apply existsb_exists in X as [x [Hx Hs]]. exists x. split; auto.
        rewrite In_iter_values. exact Hx.
      + exfalso. rewrite existsb_false in X.
        assert (F' : forallb (supported dj) di = true).
        { apply forallb_forall. intros x Hx. specialize (X x Hx).
          apply negb_false_iff in X. exact X. }
        congruence. }
  exists s1. rewrite H1, E. cbn [orb]. split; auto. split; auto. split.
  - rewrite H3, dict_get_upd, pos_eqb_refl, Hi. cbn [option_map].
    f_equal. unfold revise. apply filter_ext_in. intros v Hv.
    destruct (supported dj v) eqn:Es.
    + apply negb_true_iff. apply not_true_is_false. intros X.
      apply existsb_In_eqb, filter_In in X as [_ X].
      rewrite Es in X. discriminate.
    + apply negb_false_iff. apply existsb_In_eqb, filter_In.
      rewrite In_iter_values, Es. auto.
  - split.
    + intros p Hp. rewrite H3, dict_get_upd.
      assert (Ep : pos_eqb p xi = false) by (apply pos_eqb_neq; auto).
      rewrite Ep. reflexivity.
    + intros F. apply H4. rewrite E, F. reflexivity.
Qed.

End ArcStep.

Lemma In_fold_pos_add_intro {X : Type} (c : X -> bool) (h : X -> pos)
      (l : list X) (n0 : list pos) (y : pos) :
  In y n0 \/ (exists x, In x l /\ c x = true /\ y = h x) ->
  In y (fold_left (fun n x => if c x then pos_add n (h x) else n) l n0).
Proof.
  revert n0; induction l as [|x t IH]; intros n0; simpl.
  - intros [H|[x [[] _]]]; auto.
  - intros [H|[x' [[<-|Hin] [Hc Hy]]]]; apply IH.
    + left. destruct (c x); auto. apply In_pos_add; auto.
    + left. rewrite Hc. apply In_pos_add; auto.
    + right. exists x'. auto.
Qed.

Lemma In_fold_pos_add2_intro {X Y : Type} (c : X -> Y -> bool)
      (h : X -> Y -> pos) (l : list X) (l' : list Y) (n0 : list pos)
      (y : pos) :
  In y n0 \/ (exists i j, In i l /\ In j l' /\ c i j = true /\ y = h i j) ->
  In y (fold_left (fun n i =>
          fold_left (fun n' j => if c i j then pos_add n' (h i j) else n')
                    l' n) l n0).
Proof.
  revert n0; induction l as [|i t IH]; intros n0; simpl.
  - intros [H|[i [j [[] _]]]]; auto.
  - intros [H|[i' [j [[<-|Hin] [Hj [Hc Hy]]]]]]; apply IH.
    + left. apply (In_fold_pos_add_intro (c i) (h i)). auto.
    + left. apply (In_fold_pos_add_intro (c i) (h i)). right. exists j. auto.
    + right. exists i', j. auto.
Qed.

Lemma get_neighbors_complete (s : SudokuSolver) (var xk : pos) :
  in_range var -> in_range xk ->
  In xk (keys (domains s)) -> peer xk var = true ->
  In xk (get_neighbors s var).
Proof.
  destruct var as [row col], xk as [i j].
  intros [Hr Hc] [Hi Hj] Hk Hpeer. cbn [fst snd] in *.
  apply peer_same_unit in Hpeer as [Hne Hu]. cbn [fst snd] in Hu.
  apply dict_mem_keys in Hk.
  unfold get_neighbors.
  apply (In_fold_pos_add2_intro
           (fun i j => negb (pos_eqb (i, j) (row, col))
                       && dict_mem (i, j) (domains s))
           (fun i j => (i, j))).
  apply same_unit_true in Hu as [->|[->|[Hbi Hbj]]].
  - left.
    apply (In_fold_pos_add_intro
             (fun i => negb (i =? row) && dict_mem (i, col) (domains s))
             (fun i => (i, col))).
    left.
    apply (In_fold_pos_add_intro
             (fun j => negb (j =? col) && dict_mem (row, j) (domains s))
             (fun j => (row, j))).
    right. exists j. split; [apply in_range9; auto|]. split; auto.
    rewrite Hk, andb_true_r. apply negb_true_iff, Nat.eqb_neq. congruence.
  - left.
    apply (In_fold_pos_add_intro
             (fun i => negb (i =? row) && dict_mem (i, col) (domains s))
             (fun i => (i, col))).
    right. exists i. split; [apply in_range9; auto|]. split; auto.
    rewrite Hk, andb_true_r. apply negb_true_iff, Nat.eqb_neq. congruence.
  - right. exists i, j.
    split; [apply in_box_seq; auto|]. split; [apply in_box_seq; auto|].
    split; auto. rewrite Hk, andb_true_r.
    apply negb_true_iff, pos_eqb_neq. auto.
Qed.

Lemma revise_spec (di dj : list Z) (v : Z) :
  In v (revise di dj) <-> In v di /\ exists v', In v' dj /\ v' <> v.
Proof.
  unfold revise, supported. rewrite filter_In, existsb_exists.
  split; intros [H1 [v' [H2 H3]]]; split; auto; exists v'; split; auto.
  - apply negb_true_iff, Z.eqb_neq in H3. exact H3.
  - apply negb_true_iff, Z.eqb_neq. exact H3.
Qed.

(** C6. [ac3_with_conflicts] runs its loop on the worklist of all arcs
    between two keys of the domain map that are peers. With an empty
    worklist the loop returns none. With the arc (xi, xj) in front, the set
    of xi is reduced to its values that have a different value in the set of
    xj, all other sets being kept; when this removes nothing the loop goes on
    with the rest of the worklist; when it empties the set the loop returns
    the conflict set {xi, xj}; otherwise the loop goes on with the arcs
    (xk, xi), for the neighbours xk of xi other than xj, appended to the
    worklist, the neighbours of xi being the keys that are its peers. *)
Theorem C6_ac3_worklist :
  forall (iteration : SetIteration) (s : SudokuSolver) (fuel : nat)
         (xi xj : pos) (queue : list (pos * pos)) (di dj : list Z),
    dict_get xi (domains s) = Some di ->
    dict_get xj (domains s) = Some dj ->
    xi <> xj ->
    ac3_with_conflicts fuel s = ac3_loop fuel (get_all_edges s) s /\
    ((forall p, In p (keys (domains s)) -> in_range p) ->
     forall a c, In (a, c) (get_all_edges s) <->
                 In a (keys (domains s)) /\ In c (keys (domains s)) /\
                 peer a c = true) /\
    ac3_loop (S fuel) [] s = Done (None, s) /\
    (forall v, In v (revise di dj) <->
               In v di /\ exists v', In v' dj /\ v' <> v) /\
    exists s1,
      board s1 = board s /\
      dict_get xi (domains s1) = Some (revise di dj) /\
      (forall p, p <> xi -> dict_get p (domains s1) = dict_get p (domains s)) /\
      (forall xk, in_range xi -> in_range xk ->
         (In xk (get_neighbors s1 xi) <->
          In xk (keys (domains s1)) /\ peer xk xi = true)) /\
      ac3_loop (S fuel) ((xi, xj) :: queue) s
      = if forallb (supported dj) di then ac3_loop fuel queue s1
        else match revise di dj with
             | [] => Done (Some [xi; xj], s1)
             | _ :: _ =>
                 ac3_loop fuel
                   (queue ++ map (fun xk => (xk, xi))
                      (filter (fun xk => negb (pos_eqb xk xj))
                              (iter_cells (get_neighbors s1 xi))))
                   s1
             end.
Proof.
  intros iteration s fuel xi xj queue di dj Hi Hj Hne.
  split; [reflexivity|].
  split; [intros Hr a c; apply In_get_all_edges; auto|].
  split; [reflexivity|].
  split; [intros v; apply revise_spec|].
  destruct (remove_inconsistent_values_char s Hi Hj Hne)
    as [s1 [H1 [H2 [H3 [H4 H5]]]]].
  exists s1. split; auto. split; auto. split; auto. split.
  - intros xk Hri Hrk. split.
    + apply get_neighbors_spec.
    + intros [Hk Hp]. apply get_neighbors_complete; auto.
  - cbn [ac3_loop]. rewrite H1. cbn [bind].
    destruct (forallb (supported dj) di) eqn:F; cbn [negb]; auto.
    rewrite H3. destruct (revise di dj) as [|v t]; auto.
    unfold pos_add. cbn [pos_mem existsb app].
    assert (E : pos_eqb xj xi = false) by (apply pos_eqb_neq; congruence).
    rewrite E. reflexivity.
Qed.

Lemma C6_ac3_worklist_witness :
  ac3_with_conflicts 0 forced_pair_start
  = ac3_loop 0 (get_all_edges forced_pair_start) forced_pair_start /\
  ((forall p, In p (keys (domains forced_pair_start)) -> in_range p) ->
   forall a c, In (a, c) (get_all_edges forced_pair_start) <->
               In a (keys (domains forced_pair_start)) /\
               In c (keys (domains forced_pair_start)) /\
               peer a c = true) /\
  ac3_loop 1 [] forced_pair_start = Done (None, forced_pair_start) /\
  (forall v, In v (revise [5%Z] [5%Z]) <->
             In v [5%Z] /\ exists v', In v' [5%Z] /\ v' <> v) /\
  exists s1,
    board s1 = board forced_pair_start /\
    dict_get (0, 0) (domains s1) = Some (revise [5%Z] [5%Z]) /\
    (forall p, p <> (0, 0) ->
       dict_get p (domains s1) = dict_get p (domains forced_pair_start)) /\
    (forall xk, in_range (0, 0) -> in_range xk ->
       (In xk (get_neighbors s1 (0, 0)) <->
        In xk (keys (domains s1)) /\ peer xk (0, 0) = true)) /\
    ac3_loop 1 [((0, 0), (0, 1))] forced_pair_start
    = if forallb (supported [5%Z]) [5%Z] then ac3_loop 0 [] s1
      else match revise [5%Z] [5%Z] with
           | [] => Done (Some [(0, 0); (0, 1)], s1)
           | _ :: _ =>
               ac3_loop 0
                 ([] ++ map (fun xk => (xk, (0, 0)))
                    (filter (fun xk => negb (pos_eqb xk (0, 1)))
                            (iter_cells (get_neighbors s1 (0, 0)))))
                 s1
           end.
Proof.
  apply (@C6_ac3_worklist stored_order forced_pair_start 0 (0, 0) (0, 1) []
           [5%Z] [5%Z]).
  - vm_compute. reflexivity.
  - vm_compute. reflexivity.
  - discriminate.
Defined.

(** * Further properties of the code *)

(** ** Boards that are checked by evaluation *)

Lemma wf_grid_checked (b : grid) :
  (length b =? 9) && forallb (fun row => length row =? 9) b = true ->
  wf_grid b.
Proof.
  rewrite andb_true_iff, forallb_forall. intros [H1 H2]. split.
  - apply Nat.eqb_eq; auto.
  - apply Forall_forall. intros row Hrow. apply Nat.eqb_eq; auto.
Qed.

(** No two peers of [b] carry the same non-zero value, as a test. *)
Definition consistentb (b : grid) : bool :=
  forallb (fun p => forallb (fun q =>
             negb (peer p q) || (cellp b p =? 0)%Z
             || negb (cellp b p =? cellp b q)%Z) all_positions)
          all_positions.

Lemma consistentb_sound (b : grid) : consistentb b = true -> consistent b.
Proof.
  unfold consistentb. rewrite forallb_forall. intros H p q Hp Hq Hpeer Hnz.
  apply in_all_positions in Hp, Hq. specialize (H p Hp).
  rewrite forallb_forall in H. specialize (H q Hq).
  rewrite Hpeer in H. cbn [negb orb] in H.
  apply orb_true_iff in H as [H|H].
  - apply Z.eqb_eq in H. contradiction.
  - apply negb_true_iff, Z.eqb_neq in H. exact H.
Qed.

(** ** [validate_solution] *)

(** X1. A 9x9 grid passes [validate_solution] exactly when every cell holds
    a digit from 1 to 9 and no two cells of one row, column or box hold the
    same digit. *)
Theorem validate_solution_iff_digits_without_clash (g : grid) :
  wf_grid g ->
  (validate_solution g = true <->
   (forall p, in_range p -> (1 <= cellp g p <= 9)%Z) /\
   (forall p q, in_range p -> in_range q -> peer p q = true ->
                cellp g p <> cellp g q)).
Proof.
  intros Hwf. split.
  - apply validate_solution_inv; auto.
  - intros [Hdig Hpeers]. apply validate_full; auto.
Qed.

Lemma validate_solution_iff_digits_without_clash_witness :
  validate_solution solved_board = true <->
  (forall p, in_range p -> (1 <= cellp solved_board p <= 9)%Z) /\
  (forall p q, in_range p -> in_range q -> peer p q = true ->
               cellp solved_board p <> cellp solved_board q).
Proof.
  apply (@validate_solution_iff_digits_without_clash solved_board).
  apply wf_grid_checked. vm_compute. reflexivity.
Defined.

(** ** [is_safe] *)

(** X2. On a 9x9 board, [is_safe] accepts [value] at a cell exactly when
    neither the cell itself nor any of its peers holds [value]. The cell
    itself is scanned too: the value a cell already holds is never safe for
    that cell. *)
Theorem is_safe_iff_no_cell_of_the_units_holds_value
        (b : grid) (p : pos) (value : Z) :
  wf_grid b -> in_range p ->
  (is_safe b p value = true <->
   cellp b p <> value /\
   forall q, in_range q -> peer q p = true -> cellp b q <> value) /\
  is_safe b p (cellp b p) = false.
Proof.
  intros _ Hp.
  assert (Hself : same_unit (fst p) (snd p) (fst p) (snd p) = true).
  { unfold same_unit. rewrite Nat.eqb_refl. reflexivity. }
  split.
  - rewrite is_safe_true by auto. split.
    + intros H. split; [apply H; auto|].
      intros q Hq Hpeer. apply peer_same_unit in Hpeer as [_ Hu]. auto.
    + intros [Hown Hpeers] q Hq Hu.
      destruct (pos_eq_dec q p) as [->|Hne]; auto.
      apply Hpeers; auto. apply peer_same_unit. auto.
  - destruct (is_safe b p (cellp b p)) eqn:E; auto.
    rewrite is_safe_true in E by auto.
    exfalso. exact (E p Hp Hself eq_refl).
Qed.

Lemma is_safe_iff_no_cell_of_the_units_holds_value_witness :
  (is_safe easy_board (0, 2) 4%Z = true <->
   cellp easy_board (0, 2) <> 4%Z /\
   forall q, in_range q -> peer q (0, 2) = true ->
             cellp easy_board q <> 4%Z) /\
  is_safe easy_board (0, 2) (cellp easy_board (0, 2)) = false.
Proof.
  apply (@is_safe_iff_no_cell_of_the_units_holds_value easy_board (0, 2) 4%Z).
  - apply wf_grid_checked. vm_compute. reflexivity.
  - split; simpl; lia.
Defined.

(** X3. A 9x9 grid that passes [validate_solution] leaves nothing to do:
    it has no empty cell and [is_safe] rejects every digit at every cell. *)
Theorem complete_board_admits_no_placement (g : grid) :
  wf_grid g -> validate_solution g = true ->
  get_first_empty g = None /\
  forall p v, in_range p -> (1 <= v <= 9)%Z -> is_safe g p v = false.
Proof.
  intros Hwf Hv.
  destruct (validate_solution_inv Hwf Hv) as [Hdig Hpeers]. split.
  - destruct (get_first_empty g) as [p|] eqn:E; auto.
    apply get_first_empty_some in E as [Hp Hz].
    specialize (Hdig p Hp). lia.
  - intros [i j] v [Hi Hj] Hd. cbn [fst snd] in Hi, Hj.
    destruct (is_safe g (i, j) v) eqn:E; auto. exfalso.
    rewrite is_safe_true in E by (split; auto).
    unfold validate_solution in Hv.
    destruct (forallb has_all_digits g) eqn:Rows; [|discriminate].
    rewrite forallb_forall in Rows.
    assert (Hrow : In (nth i g []) g) by (apply nth_In; destruct Hwf; lia).
    specialize (Rows _ Hrow). unfold has_all_digits in Rows.
    rewrite forallb_forall in Rows.
    specialize (Rows v (proj2 (digits_range v) Hd)).
    apply existsb_exists in Rows as [y [Hy Ey]]. apply Z.eqb_eq in Ey.
    subst y. destruct (In_nth _ _ 0%Z Hy) as [k [Hk Hnth]].
    rewrite (wf_grid_row Hwf Hi) in Hk.
    apply (E (i, k)); [split; auto| |exact Hnth].
    cbn [fst snd]. unfold same_unit. rewrite Nat.eqb_refl. reflexivity.
Qed.

Lemma complete_board_admits_no_placement_witness :
  get_first_empty solved_board = None /\
  forall p v, in_range p -> (1 <= v <= 9)%Z ->
              is_safe solved_board p v = false.
Proof.
  apply (@complete_board_admits_no_placement solved_board).
  - apply wf_grid_checked. vm_compute. reflexivity.
  - vm_compute. reflexivity.
Defined.

(** ** Choosing the next cell *)

(** [q] comes before [p] in the order of the two nested loops. *)
Definition before (q p : pos) : bool :=
  (fst q <? fst p) || ((fst q =? fst p) && (snd q <? snd p)).

Fixpoint ascending (l : list pos) : bool :=
  match l with
  | [] => true
  | h :: t => forallb (before h) t && ascending t
  end.

Lemma ascending_split (l l1 l2 : list pos) (x y : pos) :
  ascending l = true -> l = l1 ++ x :: l2 -> In y l2 -> before x y = true.
Proof.
  revert l. induction l1 as [|a t IH]; intros l Hs E Hy; subst l.
  - cbn [app ascending] in Hs. apply andb_true_iff in Hs as [Hs _].
    rewrite forallb_forall in Hs. auto.
  - cbn [app ascending] in Hs. apply andb_true_iff in Hs as [_ Hs].
    apply (IH _ Hs eq_refl Hy).
Qed.

Lemma before_asym (p q : pos) : before p q = true -> before q p = false.
Proof.
  unfold before. rewrite orb_true_iff, andb_true_iff, orb_false_iff,
    andb_false_iff, !Nat.ltb_lt, !Nat.ltb_ge, Nat.eqb_eq, Nat.eqb_neq. lia.
Qed.

Lemma find_first {A : Type} (f : A -> bool) (l : list A) (x : A) :
  find f l = Some x ->
  exists l1 l2, l = l1 ++ x :: l2 /\ forall y, In y l1 -> f y = false.
Proof.
  induction l as [|h t IH]; simpl; [discriminate|].
  destruct (f h) eqn:E.
  - intros H. inversion H; subst. exists [], t. split; auto. intros y [].
  - intros H. destruct (IH H) as [l1 [l2 [-> Hl1]]].
    exists (h :: l1), l2. split; auto. intros y [<-|Hy]; auto.
Qed.

(** X4. On a 9x9 board [get_first_empty] returns the first empty cell in
    row-major order, and [None] exactly when no cell is empty. *)
Theorem get_first_empty_is_first_in_row_major_order (b : grid) :
  wf_grid b ->
  match get_first_empty b with
  | Some p =>
      in_range p /\ cellp b p = 0%Z /\
      forall q, in_range q -> before q p = true -> cellp b q <> 0%Z
  | None => forall q, in_range q -> cellp b q <> 0%Z
  end.
Proof.
  intros _. destruct (get_first_empty b) as [p|] eqn:E.
  - destruct (get_first_empty_some _ E) as [Hp Hz].
    split; auto. split; auto.
    intros q Hq Hb Hqz. unfold get_first_empty in E.
    destruct (find_first _ _ E) as [l1 [l2 [Hl Hl1]]].
    assert (Hin : In q all_positions) by (apply in_all_positions; auto).
    rewrite Hl in Hin. apply in_app_iff in Hin as [Hin|[->|Hin]].
    + specialize (Hl1 q Hin). apply Z.eqb_neq in Hl1. contradiction.
    + unfold before in Hb. rewrite Nat.ltb_irrefl, Nat.eqb_refl in Hb.
      cbn [orb andb] in Hb. rewrite Nat.ltb_irrefl in Hb. discriminate.
    + assert (Hs : ascending all_positions = true)
        by (vm_compute; reflexivity).
      pose proof (@ascending_split _ _ _ _ _ Hs Hl Hin) as Hpq.
      apply before_asym in Hpq. congruence.
  - apply get_first_empty_none; auto.
Qed.

Lemma get_first_empty_is_first_in_row_major_order_witness :
  match get_first_empty easy_board with
  | Some p =>
      in_range p /\ cellp easy_board p = 0%Z /\
      forall q, in_range q -> before q p = true -> cellp easy_board q <> 0%Z
  | None => forall q, in_range q -> cellp easy_board q <> 0%Z
  end.
Proof.
  apply (@get_first_empty_is_first_in_row_major_order easy_board).
  apply wf_grid_checked. vm_compute. reflexivity.
Defined.

Lemma mrv_fold_min (d : domain_map) :
  forall (n : nat) (p0 : pos),
    (fold_left mrv_step d (Some n, Some p0) = (Some n, Some p0) /\
     forall kv, In kv d -> n <= length (snd kv)) \/
    exists d1 p dom d2,
      d = d1 ++ (p, dom) :: d2 /\
      fold_left mrv_step d (Some n, Some p0) = (Some (length dom), Some p) /\
      length dom < n /\
      (forall kv, In kv d1 -> length dom < length (snd kv)) /\
      (forall kv, In kv d2 -> length dom <= length (snd kv)).
Proof.
  induction d as [|[k dk] t IH]; intros n p0.
  - left. split; auto. intros kv [].
  - cbn [fold_left].
    replace (mrv_step (Some n, Some p0) (k, dk))
      with (if length dk <? n then (Some (length dk), Some k)
            else (Some n, Some p0)) by reflexivity.
    destruct (length dk <? n) eqn:E.
    + apply Nat.ltb_lt in E.
      destruct (IH (length dk) k) as [[Hr Hall]|[d1 [p [dom [d2 H]]]]].
      * right. exists [], k, dk, t. split; auto. split; auto. split; auto.
        split; [intros kv []|auto].
      * destruct H as [-> [Hr [Hlt [H1 H2]]]].
        right. exists ((k, dk) :: d1), p, dom, d2.
        split; auto. split; auto. split; [lia|]. split; auto.
        intros kv [<-|Hkv]; auto.
    + apply Nat.ltb_ge in E.
      destruct (IH n p0) as [[Hr Hall]|[d1 [p [dom [d2 H]]]]].
      * left. split; auto. intros kv [<-|Hkv]; auto.
      * destruct H as [-> [Hr [Hlt [H1 H2]]]].
        right. exists ((k, dk) :: d1), p, dom, d2.
        split; auto. split; auto. split; auto. split; auto.
        intros kv [<-|Hkv]; auto. cbn [snd]. lia.
Qed.

(** X5. [get_mrv_variable] returns [None] exactly on the empty dictionary;
    otherwise it returns a key whose set is smallest, and among the keys
    with a smallest set the one that comes first in the dictionary: every
    earlier entry has a strictly larger set. *)
Theorem get_mrv_variable_picks_the_first_smallest_domain (d : domain_map) :
  match get_mrv_variable d with
  | None => d = []
  | Some p =>
      exists d1 dom d2,
        d = d1 ++ (p, dom) :: d2 /\
        (forall kv, In kv d1 -> length dom < length (snd kv)) /\
        (forall kv, In kv d2 -> length dom <= length (snd kv))
  end.
Proof.
  destruct d as [|[k dk] t].
  - reflexivity.
  - change (get_mrv_variable ((k, dk) :: t))
      with (snd (fold_left mrv_step t (Some (length dk), Some k))).
    destruct (mrv_fold_min t (length dk) k)
      as [[Hr Hall]|[d1 [p [dom [d2 [-> [Hr [Hlt [H1 H2]]]]]]]]];
      rewrite Hr; cbn [snd].
    + exists [], dk, t. split; auto. split; [intros kv []|auto].
    + exists ((k, dk) :: d1), dom, d2. split; auto. split; auto.
      intros kv [<-|Hkv]; auto.
Qed.

(** X6. Whenever the keys of the domain map are the empty cells of the
    board, as they are throughout the search, the two ways of choosing the
    next cell agree on when to stop: with MRV or without,
    [get_next_variable] returns an empty cell of the board, and [None]
    exactly when the board has no empty cell. *)
Theorem get_next_variable_stops_on_a_full_board (s : SudokuSolver) :
  wf_grid (board s) ->
  (forall p, In p (keys (domains s)) <->
             in_range p /\ cellp (board s) p = 0%Z) ->
  match get_next_variable s with
  | Some p => in_range p /\ cellp (board s) p = 0%Z
  | None => forall q, in_range q -> cellp (board s) q <> 0%Z
  end.
Proof.
  intros _ Hkeys. unfold get_next_variable. destruct (negb (use_mrv s)).
  - destruct (get_first_empty (board s)) as [p|] eqn:E.
    + apply get_first_empty_some; auto.
    + apply get_first_empty_none; auto.
  - destruct (get_mrv_variable (domains s)) as [p|] eqn:E.
    + apply Hkeys. apply get_mrv_variable_some; auto.
    + apply get_mrv_variable_none in E. intros q Hq Hz.
      assert (Hin : In q (keys (domains s))) by (apply Hkeys; auto).
      rewrite E in Hin. destruct Hin.
Qed.

(** The solver built from the board with thirty clues, all techniques on. *)
Definition easy_start : SudokuSolver :=
  constructed (init (py_of easy_board) true true true true).

Lemma inv_easy_start : inv (ints_of (py_of easy_board)) easy_start.
Proof.
  apply (@inv_init (py_of easy_board) true true true true easy_start).
  vm_compute. reflexivity.
Qed.

Lemma get_next_variable_stops_on_a_full_board_witness :
  match get_next_variable easy_start with
  | Some p => in_range p /\ cellp (board easy_start) p = 0%Z
  | None => forall q, in_range q -> cellp (board easy_start) q <> 0%Z
  end.
Proof.
  apply (@get_next_variable_stops_on_a_full_board easy_start).
  - apply wf_grid_checked. vm_compute. reflexivity.
  - exact (inv_keys inv_easy_start).
Defined.

(** ** Ordering the values *)

Section SortedFacts.
Variable A : Type.
Variable key : A -> Z.

Lemma insert_sorted_perm (x : A) (l : list A) :
  Permutation (insert_sorted key x l) (x :: l).
Proof.
  induction l as [|y t IH]; simpl; auto.
  destruct (key x <=? key y)%Z; auto.
  etransitivity; [apply perm_skip, IH | apply perm_swap].
Qed.

Lemma sorted_perm (l : list A) : Permutation (sorted key l) l.
Proof.
  induction l as [|x t IH]; simpl; auto.
  etransitivity; [apply insert_sorted_perm | apply perm_skip, IH].
Qed.

Lemma insert_sorted_ascending (x : A) (l : list A) :
  Sorted.StronglySorted (fun a b => (key a <= key b)%Z) l ->
  Sorted.StronglySorted (fun a b => (key a <= key b)%Z)
                        (insert_sorted key x l).
Proof.
  induction 1 as [|y t Ht IH Hy]; simpl.
  - constructor; constructor.
  - destruct (key x <=? key y)%Z eqn:E.
    + apply Z.leb_le in E. constructor; [constructor; auto|].
      constructor; auto.
      rewrite Forall_forall in *. intros z Hz. specialize (Hy z Hz). lia.
    + apply Z.leb_gt in E. constructor; auto.
      rewrite Forall_forall in *. intros z Hz.
      apply (Permutation_in _ (insert_sorted_perm x t)) in Hz.
      destruct Hz as [<-|Hz]; [lia | auto].
Qed.

Lemma sorted_ascending (l : list A) :
  Sorted.StronglySorted (fun a b => (key a <= key b)%Z) (sorted key l).
Proof.
  induction l as [|x t IH]; simpl; [constructor|].
  apply insert_sorted_ascending, IH.
Qed.

End SortedFacts.

(** Two ascending lists of integers with the same elements are equal. *)
Lemma ascending_unique (l1 : list Z) :
  forall l2,
    Sorted.StronglySorted Z.le l1 -> Sorted.StronglySorted Z.le l2 ->
    Permutation l1 l2 -> l1 = l2.
Proof.
  induction l1 as [|a t1 IH]; intros l2 H1 H2 Hp.
  - apply Permutation_nil in Hp. auto.
  - destruct l2 as [|b t2].
    { apply Permutation_sym, Permutation_nil in Hp. discriminate. }
    inversion H1 as [|? ? Ht1 Ha]; subst.
    inversion H2 as [|? ? Ht2 Hb]; subst.
    rewrite Forall_forall in Ha, Hb.
    assert (E : a = b).
    { assert (Hab : In a (b :: t2))
        by (apply (Permutation_in _ Hp); left; auto).
      assert (Hba : In b (a :: t1))
        by (apply (Permutation_in _ (Permutation_sym Hp)); left; auto).
      destruct Hab as [->|Hab]; auto. destruct Hba as [->|Hba]; auto.
      specialize (Ha b Hba). specialize (Hb a Hab). lia. }
    subst b. f_equal. apply IH; auto.
    apply Permutation_cons_inv in Hp. exact Hp.
Qed.

(** The set iteration that enumerates in the reverse of the stored order. *)
Definition reversed_order : SetIteration :=
  {| iter_values := fun l => rev l;
     iter_values_perm := fun l => Permutation_sym (Permutation_rev l);
     iter_cells := fun l => rev l;
     iter_cells_perm := fun l => Permutation_sym (Permutation_rev l) |}.

Lemma fold_count {A : Type} (f : A -> bool) (l : list A) (c : Z) :
  fold_left (fun (count : Z) (p : A) => if f p then (count + 1)%Z else count)
            l c
  = (c + Z.of_nat (length (filter f l)))%Z.
Proof.
  revert c; induction l as [|h t IH]; intros c; simpl; [lia|].
  rewrite IH. destruct (f h); simpl length; lia.
Qed.

Lemma length_filter_le {A : Type} (f g : A -> bool) (l : list A) :
  (forall x, f x = true -> g x = true) ->
  length (filter f l) <= length (filter g l).
Proof.
  intros H. induction l as [|h t IH]; simpl; auto.
  destruct (f h) eqn:E.
  - rewrite (H h E). simpl. lia.
  - destruct (g h); simpl; lia.
Qed.

(** Every cell has twenty peers. *)
Lemma twenty_peers (p : pos) :
  in_range p -> length (filter (fun q => peer q p) all_positions) = 20.
Proof.
  destruct p as [r c]. intros [Hr Hc]. cbn [fst snd] in Hr, Hc.
  revert c Hc. pattern r. revert r Hr.
  apply nine_cases; intros c Hc; pattern c; revert c Hc;
    apply nine_cases; vm_compute; reflexivity.
Qed.

(** X7. [count_constraints], the key of the LCV ordering, counts the empty
    peers of [var] whose stored set holds [value]; it lies between 0 and
    20. *)
Theorem count_constraints_counts_the_peers_holding_value
        (s : SudokuSolver) (var : pos) (value : Z) :
  wf_grid (board s) -> in_range var ->
  count_constraints s var value
  = Z.of_nat (length (filter
      (fun q => peer q var && (cellp (board s) q =? 0)%Z
                && match dict_get q (domains s) with
                   | Some d => existsb (Z.eqb value) d
                   | None => false
                   end) all_positions)) /\
  (0 <= count_constraints s var value <= 20)%Z.
Proof.
  intros _ Hvar.
  set (f := fun q : pos =>
              negb (pos_eqb (fst q, snd q) var)
              && (cell (board s) (fst q) (snd q) =? 0)%Z
              && same_unit (fst q) (snd q) (fst var) (snd var)
              && existsb (Z.eqb value)
                   (match dict_get (fst q, snd q) (domains s) with
                    | Some d => d
                    | None => []
                    end)).
  assert (E : count_constraints s var value
              = Z.of_nat (length (filter f all_positions))).
  { unfold count_constraints. destruct var as [row col].
    rewrite (fold_left_ext _
               (fun (count : Z) (p : pos) =>
                  if f p then (count + 1)%Z else count)).
    - rewrite fold_count. reflexivity.
    - intros a [i j]. reflexivity. }
  assert (F : forall q, f q = peer q var && (cellp (board s) q =? 0)%Z
                        && match dict_get q (domains s) with
                           | Some d => existsb (Z.eqb value) d
                           | None => false
                           end).
  { intros [i j]. unfold f, peer, cellp. cbn [fst snd].
    destruct (dict_get (i, j) (domains s));
      destruct (negb (pos_eqb (i, j) var)), (cell (board s) i j =? 0)%Z,
               (same_unit i j (fst var) (snd var)); cbn [existsb andb];
      auto; rewrite ?andb_false_r; auto. }
  split.
  - rewrite E, (filter_ext f _ F). reflexivity.
  - rewrite E. split; [lia|].
    pose proof (twenty_peers Hvar) as T.
    pose proof (@length_filter_le _ f (fun q => peer q var) all_positions)
      as L.
    assert (length (filter f all_positions) <= 20).
    { rewrite <- T. apply L. intros q Hq. rewrite F in Hq.
      apply andb_true_iff in Hq as [Hq _].
      apply andb_true_iff in Hq as [Hq _]. exact Hq. }
    lia.
Qed.

Lemma count_constraints_counts_the_peers_holding_value_witness :
  count_constraints easy_start (0, 2) 4%Z
  = Z.of_nat (length (filter
      (fun q => peer q (0, 2) && (cellp (board easy_start) q =? 0)%Z
                && match dict_get q (domains easy_start) with
                   | Some d => existsb (Z.eqb 4%Z) d
                   | None => false
                   end) all_positions)) /\
  (0 <= count_constraints easy_start (0%nat, 2%nat) 4 <= 20)%Z.
Proof.
  apply (@count_constraints_counts_the_peers_holding_value
           easy_start (0, 2) 4%Z).
  - apply wf_grid_checked. vm_compute. reflexivity.
  - split; simpl; lia.
Defined.

(** The key by which [get_ordered_values] sorts. *)
Definition value_key (s : SudokuSolver) (var : pos) (v : Z) : Z :=
  if use_lcv s then count_constraints s var v else v.

(** X8. [get_ordered_values] raises [KeyError] when [var] has no stored
    set. Otherwise it returns the values of the set, each once, none lost
    and none added, in ascending order of the value itself without LCV and
    of [count_constraints] with LCV. *)
Theorem get_ordered_values_sorts_the_domain
        (iteration : SetIteration) (s : SudokuSolver) (var : pos) :
  wf_grid (board s) -> in_range var ->
  match dict_get var (domains s) with
  | None => get_ordered_values s var = Raise KeyError
  | Some dom =>
      exists values,
        get_ordered_values s var = Done values /\
        Permutation values dom /\
        Sorted.StronglySorted
          (fun a b => (value_key s var a <= value_key s var b)%Z) values
  end.
Proof.
  intros _ _. unfold get_ordered_values, value_key.
  destruct (dict_get var (domains s)) as [dom|]; auto.
  destruct (use_lcv s); cbn [negb]; eexists; (split; [reflexivity|]); split;
    try (etransitivity; [apply sorted_perm | apply iter_values_perm]).
  - apply sorted_ascending.
  - apply (sorted_ascending (fun x : Z => x)).
Qed.

Lemma get_ordered_values_sorts_the_domain_witness :
  match dict_get (0, 2) (domains easy_start) with
  | None => get_ordered_values easy_start (0, 2) = Raise KeyError
  | Some dom =>
      exists values,
        get_ordered_values easy_start (0, 2) = Done values /\
        Permutation values dom /\
        Sorted.StronglySorted
          (fun a b => (value_key easy_start (0%nat, 2%nat) a
                       <= value_key easy_start (0%nat, 2%nat) b)%Z) values
  end.
Proof.
  apply (@get_ordered_values_sorts_the_domain stored_order easy_start (0, 2)).
  - apply wf_grid_checked. vm_compute. reflexivity.
  - split; simpl; lia.
Defined.

(** X9. Without LCV the order in which the values are tried does not depend
    on the order in which the interpreter enumerates the set: any two
    enumerations give the same list. *)
Theorem get_ordered_values_without_lcv_ignores_set_order
        (it1 it2 : SetIteration) (s : SudokuSolver) (var : pos) :
  use_lcv s = false ->
  @get_ordered_values it1 s var = @get_ordered_values it2 s var.
Proof.
  intros Hl. unfold get_ordered_values. rewrite Hl. cbn [negb].
  destruct (dict_get var (domains s)) as [dom|]; auto. f_equal.
  apply ascending_unique.
  - apply (sorted_ascending (fun x : Z => x)).
  - apply (sorted_ascending (fun x : Z => x)).
  - etransitivity; [apply sorted_perm|].
    etransitivity; [apply iter_values_perm|].
    symmetry. etransitivity; [apply sorted_perm | apply iter_values_perm].
Qed.

Lemma get_ordered_values_without_lcv_ignores_set_order_witness :
  @get_ordered_values stored_order forced_pair_start (1, 0)
  = @get_ordered_values reversed_order forced_pair_start (1, 0).
Proof.
  apply (@get_ordered_values_without_lcv_ignores_set_order
           stored_order reversed_order forced_pair_start (1, 0)).
  reflexivity.
Defined.

(** ** The domains built by the constructor *)

Lemma filter_true {A : Type} (l : list A) : filter (fun _ => true) l = l.
Proof. induction l as [|h t IH]; simpl; congruence. Qed.

Lemma fold_discard_filter {X : Type} (c : X -> bool) (v : X -> Z)
      (l : list X) :
  forall dom,
    fold_left (fun s x => if c x then discard (v x) s else s) l dom
    = filter (fun y => negb (existsb (fun x => c x && (v x =? y)%Z) l)) dom.
Proof.
  induction l as [|x t IH]; intros dom; cbn [fold_left existsb].
  - cbn [negb]. symmetry. apply filter_true.
  - rewrite IH. destruct (c x); cbn [andb orb]; auto.
    unfold discard. rewrite filter_twice. apply filter_ext. intros y.
    rewrite negb_orb, (Z.eqb_sym y). reflexivity.
Qed.

Lemma fold_filter {X : Type} (h : X -> Z -> bool) (l : list X) :
  forall dom,
    fold_left (fun s x => filter (h x) s) l dom
    = filter (fun y => forallb (fun x => h x y) l) dom.
Proof.
  induction l as [|x t IH]; intros dom; cbn [fold_left forallb].
  - symmetry. apply filter_true.
  - rewrite IH, filter_twice. reflexivity.
Qed.

Lemma forallb_negb_existsb {X : Type} (f : X -> bool) (l : list X) :
  forallb (fun x => negb (f x)) l = negb (existsb f l).
Proof.
  induction l as [|x t IH]; simpl; auto. rewrite IH, negb_orb. reflexivity.
Qed.

(** What [update_domain] leaves of a set, as one filter: the values that no
    non-empty cell of the row, the column or the box carries. *)
Lemma strike_filter (b : grid) (p : pos) (dom : list Z) :
  strike b p dom
  = filter (fun y => negb (scan3 p (fun i j =>
              negb (cell b i j =? 0)%Z && (cell b i j =? y)%Z))) dom.
Proof.
  destruct p as [row col]. unfold strike, scan3. cbn [fst snd].
  rewrite (fold_discard_filter (fun j => negb (cell b row j =? 0)%Z)
                               (fun j => cell b row j)).
  rewrite (fold_discard_filter (fun i => negb (cell b i col =? 0)%Z)
                               (fun i => cell b i col)).
  rewrite (fold_left_ext
             (fun s i => fold_left _ (seq (3 * (col / 3)) 3) s)
             (fun s i => filter (fun y => negb (existsb (fun j =>
                negb (cell b i j =? 0)%Z && (cell b i j =? y)%Z)
                (seq (3 * (col / 3)) 3))) s)).
  2:{ intros a i.
      apply (fold_discard_filter (fun j => negb (cell b i j =? 0)%Z)
                                 (fun j => cell b i j)). }
  rewrite (fold_filter (fun i y => negb (existsb (fun j =>
             negb (cell b i j =? 0)%Z && (cell b i j =? y)%Z)
             (seq (3 * (col / 3)) 3)))).
  rewrite !filter_twice. apply filter_ext. intros y.
  rewrite (forallb_negb_existsb
             (fun i => existsb (fun j =>
                negb (cell b i j =? 0)%Z && (cell b i j =? y)%Z)
                (seq (3 * (col / 3)) 3))).
  rewrite !negb_orb, andb_assoc. reflexivity.
Qed.

Lemma existsb_pointwise {X : Type} (f g : X -> bool) (l : list X) :
  (forall x, f x = g x) -> existsb f l = existsb g l.
Proof. intros H. induction l as [|x t IH]; simpl; congruence. Qed.

Lemma scan3_pointwise (p : pos) (f g : nat -> nat -> bool) :
  (forall i j, f i j = g i j) -> scan3 p f = scan3 p g.
Proof.
  intros H. unfold scan3.
  rewrite (existsb_pointwise (fun j => f (fst p) j) (fun j => g (fst p) j))
    by (intros; apply H).
  rewrite (existsb_pointwise (fun i => f i (snd p)) (fun i => g i (snd p)))
    by (intros; apply H).
  rewrite (existsb_pointwise
             (fun i => existsb (fun j => f i j) (seq (3 * (snd p / 3)) 3))
             (fun i => existsb (fun j => g i j) (seq (3 * (snd p / 3)) 3)))
    by (intros; apply existsb_pointwise; intros; apply H).
  reflexivity.
Qed.

Lemma strike_is_safe (b : grid) (p : pos) (dom : list Z) :
  strike b p dom = filter (fun v => (v =? 0)%Z || is_safe b p v) dom.
Proof.
  rewrite strike_filter. apply filter_ext. intros y.
  rewrite is_safe_scan. destruct (y =? 0)%Z eqn:E; cbn [orb].
  - apply Z.eqb_eq in E. subst y.
    rewrite (scan3_pointwise p _ (fun _ _ => false)).
    + unfold scan3. rewrite !(proj2 (existsb_false _ _)); auto.
    + intros i j. destruct (cell b i j =? 0)%Z; reflexivity.
  - f_equal. apply scan3_pointwise. intros i j.
    destruct (cell b i j =? 0)%Z eqn:Ez; cbn [negb andb]; auto.
    apply Z.eqb_eq in Ez. rewrite Ez. symmetry. rewrite Z.eqb_sym. exact E.
Qed.

(** X10. The constructor gives every empty cell of a 9x9 board, in
    row-major order, the digits from 1 to 9 that [is_safe] accepts at that
    cell, in ascending order; a filled cell gets no entry. *)
Theorem initialize_domains_holds_the_safe_digits (b : grid) :
  wf_grid b ->
  initialize_domains b
  = map (fun p => (p, filter (is_safe b p) digits))
        (filter (fun p => (cellp b p =? 0)%Z) all_positions).
Proof.
  intros _. rewrite initialize_domains_eq. unfold initial_domains.
  apply map_ext. intros p. f_equal. rewrite strike_is_safe.
  apply filter_ext_in. intros v Hv. apply digits_range in Hv.
  destruct (v =? 0)%Z eqn:E; auto. apply Z.eqb_eq in E. lia.
Qed.

Lemma initialize_domains_holds_the_safe_digits_witness :
  initialize_domains easy_board
  = map (fun p => (p, filter (is_safe easy_board p) digits))
        (filter (fun p => (cellp easy_board p =? 0)%Z) all_positions).
Proof.
  apply (@initialize_domains_holds_the_safe_digits easy_board).
  apply wf_grid_checked. vm_compute. reflexivity.
Defined.

(** X11. [update_domain] touches the entry of [pos] alone: the keys and
    every other entry are kept, a dictionary without the key [pos] is
    returned as it is, and from the set of [pos] exactly the non-zero values
    that [is_safe] rejects at [pos] are removed. A second call changes
    nothing. *)
Theorem update_domain_prunes_one_entry
        (b : grid) (p : pos) (d : domain_map) :
  wf_grid b -> in_range p ->
  keys (update_domain b p d) = keys d /\
  (forall q, q <> p -> dict_get q (update_domain b p d) = dict_get q d) /\
  dict_get p (update_domain b p d)
  = option_map (filter (fun v => (v =? 0)%Z || is_safe b p v))
               (dict_get p d) /\
  (dict_mem p d = false -> update_domain b p d = d) /\
  update_domain b p (update_domain b p d) = update_domain b p d.
Proof.
  intros _ _. rewrite !update_domain_upd. split; [apply keys_dict_upd|].
  split; [|split; [|split]].
  - intros q Hq. rewrite dict_get_upd.
    apply pos_eqb_neq in Hq. rewrite Hq. reflexivity.
  - rewrite dict_get_upd, pos_eqb_refl.
    destruct (dict_get p d); cbn [option_map]; auto.
    rewrite strike_is_safe. reflexivity.
  - intros Hm. apply dict_upd_absent. rewrite <- dict_mem_keys. congruence.
  - rewrite dict_upd_upd. apply dict_upd_ext. intros dom.
    rewrite !strike_is_safe, filter_twice. apply filter_ext. intros v.
    apply andb_diag.
Qed.

Lemma update_domain_prunes_one_entry_witness :
  keys (update_domain easy_board (0, 2) [((0, 2), digits)])
  = keys [((0, 2), digits)] /\
  (forall q, q <> (0, 2) ->
     dict_get q (update_domain easy_board (0, 2) [((0, 2), digits)])
     = dict_get q [((0, 2), digits)]) /\
  dict_get (0, 2) (update_domain easy_board (0, 2) [((0, 2), digits)])
  = option_map (filter (fun v => (v =? 0)%Z || is_safe easy_board (0, 2) v))
               (dict_get (0, 2) [((0, 2), digits)]) /\
  (dict_mem (0, 2) [((0, 2), digits)] = false ->
   update_domain easy_board (0, 2) [((0, 2), digits)]
   = [((0, 2), digits)]) /\
  update_domain easy_board (0, 2)
    (update_domain easy_board (0, 2) [((0, 2), digits)])
  = update_domain easy_board (0, 2) [((0, 2), digits)].
Proof.
  apply (@update_domain_prunes_one_entry easy_board (0, 2)
           [((0, 2), digits)]).
  - apply wf_grid_checked. vm_compute. reflexivity.
  - split; simpl; lia.
Defined.

(** ** Assignment and its undoing *)

(** X12. [restore_state] undoes the assignment made by
    [backtrack_with_conflicts], whether or not rows of the board are one
    object: after the board write, the append to [assignment_order] and the
    removal of the key, and after any propagation that leaves the board and
    [assignment_order] alone, restoring with the saved domains and conflict
    sets gives back the domains, the conflict sets and the assignment
    order, and, the cell having been empty, the board. *)
Theorem restore_state_undoes_the_assignment
        (refs : board_ref) (s s1 s1' : SudokuSolver) (var : pos)
        (value : Z) :
  wf_grid (board s) -> in_range var -> same_rows refs (board s) ->
  cellp (board s) var = 0%Z ->
  InPlace.assign refs s var value = Done s1 ->
  board s1' = board s1 -> assignment_order s1' = assignment_order s1 ->
  same_flags s1 s1' ->
  exists s2,
    InPlace.restore_state refs s1' var (domains s) (conflict_sets s)
    = Done s2 /\
    board s2 = board s /\
    domains s2 = domains s /\ conflict_sets s2 = conflict_sets s /\
    assignment_order s2 = assignment_order s /\ same_flags s s2.
Proof.
  intros Hwf [Hi Hj] Hsame Hz Ha Hb Hao Hfl. unfold InPlace.assign in Ha.
  cbn [domains with_assignment_order with_board assignment_order] in Ha.
  destruct (dict_mem var (domains s)); [|discriminate].
  inversion Ha; subst s1; clear Ha.
  cbn [board assignment_order with_domains with_assignment_order with_board]
    in Hb, Hao.
  assert (Hset : set_cell_in_place refs (board s1') (fst var) (snd var) 0%Z
                 = board s).
  { rewrite Hb, set_cell_in_place_twice.
    apply set_cell_in_place_empty; auto. destruct Hwf; lia. }
  unfold InPlace.restore_state.
  cbn [assignment_order with_conflict_sets with_domains with_board].
  rewrite Hao. destruct (assignment_order s ++ [var]) eqn:E.
  { destruct (assignment_order s); discriminate. }
  rewrite <- E, removelast_last. eexists. split; [reflexivity|].
  cbn [board domains assignment_order conflict_sets use_mrv
       use_forward_checking use_ac3 use_lcv with_assignment_order
       with_conflict_sets with_domains with_board].
  split; [exact Hset|].
  repeat split; auto; destruct Hfl as [H1 [H2 [H3 H4]]];
    cbn [use_mrv use_forward_checking use_ac3 use_lcv with_domains
         with_conflict_sets with_assignment_order with_board] in *;
    congruence.
Qed.

(** The solver after the first assignment of the search on the board with
    thirty clues. *)
Definition easy_assigned : SudokuSolver :=
  constructed (assign easy_start (0, 2) 4%Z).

(** The solver built on the board [[[0]*9]*9], and that solver after a 1
    has been written to the first cell of the one row. *)
Definition zero_start : SudokuSolver :=
  constructed (init (py_of zero_board) true true true true).
Definition zero_assigned : SudokuSolver :=
  constructed (InPlace.assign one_row zero_start (0, 0) 1%Z).

Lemma restore_state_undoes_the_assignment_witness :
  exists s2,
    InPlace.restore_state one_row zero_assigned (0, 0) (domains zero_start)
                          (conflict_sets zero_start) = Done s2 /\
    board s2 = board zero_start /\
    domains s2 = domains zero_start /\
    conflict_sets s2 = conflict_sets zero_start /\
    assignment_order s2 = assignment_order zero_start /\
    same_flags zero_start s2.
Proof.
  apply (@restore_state_undoes_the_assignment
           one_row zero_start zero_assigned zero_assigned (0, 0) 1%Z).
  - apply wf_grid_checked. vm_compute. reflexivity.
  - split; simpl; lia.
  - apply (contents_same_rows [repeat 0%Z 9] one_row).
  - reflexivity.
  - vm_compute. reflexivity.
  - reflexivity.
  - reflexivity.
  - repeat split.
Defined.

(** ** The neighbours of a cell *)

Lemma NoDup_pos_add (s : list pos) (p : pos) :
  NoDup s -> NoDup (pos_add s p).
Proof.
  intros H. unfold pos_add. destruct (pos_mem p s) eqn:E; auto.
  apply NoDup_app; auto.
  - constructor; [intros []|constructor].
  - intros x Hx [<-|[]]. apply pos_mem_In in Hx. congruence.
Qed.

Lemma NoDup_fold_pos_add {X : Type} (c : X -> bool) (h : X -> pos)
      (l : list X) :
  forall n0, NoDup n0 ->
    NoDup (fold_left (fun n x => if c x then pos_add n (h x) else n) l n0).
Proof.
  induction l as [|x t IH]; intros n0 H; simpl; auto.
  apply IH. destruct (c x); auto. apply NoDup_pos_add; auto.
Qed.

Lemma NoDup_fold_pos_add2 {X Y : Type} (c : X -> Y -> bool)
      (h : X -> Y -> pos) (l : list X) (l' : list Y) :
  forall n0, NoDup n0 ->
    NoDup (fold_left (fun n i =>
             fold_left (fun n' j => if c i j then pos_add n' (h i j) else n')
                       l' n) l n0).
Proof.
  induction l as [|i t IH]; intros n0 H; simpl; auto.
  apply IH. apply (NoDup_fold_pos_add (c i) (h i)); auto.
Qed.

(** X13. The set returned by [get_neighbors] for a cell of the board holds
    no cell twice, never the cell itself, and at most twenty cells. *)
Theorem get_neighbors_is_a_set_of_at_most_twenty_peers
        (s : SudokuSolver) (var : pos) :
  in_range var -> (forall p, In p (keys (domains s)) -> in_range p) ->
  NoDup (get_neighbors s var) /\
  ~ In var (get_neighbors s var) /\
  length (get_neighbors s var) <= 20.
Proof.
  intros Hvar Hkeys.
  assert (Hnd : NoDup (get_neighbors s var)).
  { destruct var as [row col]. unfold get_neighbors.
    apply (NoDup_fold_pos_add2
             (fun i j => negb (pos_eqb (i, j) (row, col))
                         && dict_mem (i, j) (domains s))
             (fun i j => (i, j))).
    apply (NoDup_fold_pos_add
             (fun i => negb (i =? row) && dict_mem (i, col) (domains s))
             (fun i => (i, col))).
    apply (NoDup_fold_pos_add
             (fun j => negb (j =? col) && dict_mem (row, j) (domains s))
             (fun j => (row, j))).
    constructor. }
  split; auto. split.
  - intros Hin. apply get_neighbors_spec in Hin as [_ Hp].
    apply peer_same_unit in Hp as [Hne _]. congruence.
  - rewrite <- (twenty_peers Hvar). apply NoDup_incl_length; auto.
    intros q Hq. apply get_neighbors_spec in Hq as [Hk Hp].
    apply filter_In. split; auto. apply in_all_positions. auto.
Qed.

Lemma get_neighbors_is_a_set_of_at_most_twenty_peers_witness :
  NoDup (get_neighbors easy_start (0, 2)) /\
  ~ In (0, 2) (get_neighbors easy_start (0, 2)) /\
  length (get_neighbors easy_start (0, 2)) <= 20.
Proof.
  apply (@get_neighbors_is_a_set_of_at_most_twenty_peers easy_start (0, 2)).
  - split; simpl; lia.
  - intros p Hp. exact (proj1 (proj1 (inv_keys inv_easy_start p) Hp)).
Defined.

(** ** One revision of AC-3 *)

Section Revision.
Context {iteration : SetIteration}.

Lemma revise_two_values (di dj : list Z) (a b : Z) :
  In a dj -> In b dj -> a <> b -> forallb (supported dj) di = true.
Proof.
  intros Ha Hb Hne. apply forallb_forall. intros v _.
  unfold supported. apply existsb_exists.
  destruct (Z.eq_dec a v) as [->|Hav].
  - exists b. split; auto. apply negb_true_iff, Z.eqb_neq. congruence.
  - exists a. split; auto. apply negb_true_iff, Z.eqb_neq. exact Hav.
Qed.

Lemma revise_singleton (di : list Z) (x : Z) :
  revise di [x] = discard x di.
Proof.
  unfold revise, discard, supported. apply filter_ext. intros v.
  cbn [existsb]. rewrite orb_false_r, Z.eqb_sym. reflexivity.
Qed.

(** X14. [remove_inconsistent_values] prunes the set of [xi] only against a
    set of [xj] that holds fewer than two values. When the set of [xj]
    holds two different values, nothing is removed and the answer is
    [False]; when it holds the single value [x], that value is discarded
    from the set of [xi]; when it is empty, the set of [xi] is emptied. *)
Theorem remove_inconsistent_values_prunes_against_decided_cells
        (s : SudokuSolver) (xi xj : pos) (di dj : list Z) :
  dict_get xi (domains s) = Some di -> dict_get xj (domains s) = Some dj ->
  xi <> xj ->
  (forall a b, In a dj -> In b dj -> a <> b ->
     remove_inconsistent_values s xi xj = Done (false, s)) /\
  (forall x, dj = [x] ->
     exists s1,
       remove_inconsistent_values s xi xj
       = Done (existsb (Z.eqb x) di, s1) /\
       dict_get xi (domains s1) = Some (discard x di)) /\
  (dj = [] ->
     exists s1,
       remove_inconsistent_values s xi xj
       = Done (match di with [] => false | _ => true end, s1) /\
       dict_get xi (domains s1) = Some []).
Proof.
  intros Hi Hj Hne.
  destruct (remove_inconsistent_values_char s Hi Hj Hne)
    as [s1 [H1 [H2 [H3 [H4 H5]]]]].
  split; [|split].
  - intros a b Ha Hb Hab.
    pose proof (@revise_two_values di dj a b Ha Hb Hab) as F.
    rewrite H1, F, (H5 F). reflexivity.
  - intros x ->. exists s1. rewrite H1, H3, revise_singleton.
    split; auto. f_equal. f_equal.
    clear. induction di as [|v t IH]; cbn [forallb existsb]; auto.
    rewrite negb_andb, IH. f_equal. unfold supported. cbn [existsb].
    rewrite orb_false_r, negb_involutive. reflexivity.
  - intros ->. exists s1. rewrite H1, H3. split.
    + f_equal. f_equal. destruct di; reflexivity.
    + f_equal. unfold revise. clear. induction di; auto.
Qed.

End Revision.

Lemma remove_inconsistent_values_prunes_against_decided_cells_witness :
  (forall a b, In a [5%Z] -> In b [5%Z] -> a <> b ->
     remove_inconsistent_values forced_pair_start (1, 0) (0, 0)
     = Done (false, forced_pair_start)) /\
  (forall x, [5%Z] = [x] ->
     exists s1,
       remove_inconsistent_values forced_pair_start (1, 0) (0, 0)
       = Done (existsb (Z.eqb x) [1; 2; 5; 6; 7; 8; 9]%Z, s1) /\
       dict_get (1, 0) (domains s1)
       = Some (discard x [1; 2; 5; 6; 7; 8; 9]%Z)) /\
  ([5%Z] = [] ->
     exists s1,
       remove_inconsistent_values forced_pair_start (1, 0) (0, 0)
       = Done (true, s1) /\
       dict_get (1, 0) (domains s1) = Some []).
Proof.
  apply (@remove_inconsistent_values_prunes_against_decided_cells
           stored_order forced_pair_start (1, 0) (0, 0)
           [1; 2; 5; 6; 7; 8; 9]%Z [5%Z]).
  - vm_compute. reflexivity.
  - vm_compute. reflexivity.
  - discriminate.
Defined.

(** ** A board without an empty cell *)

Lemma flat_map_all_nil {A B : Type} (f : A -> list B) (l : list A) :
  (forall x, f x = []) -> flat_map f l = [].
Proof.
  intros H. induction l as [|x t IH]; simpl; auto. rewrite H, IH. reflexivity.
Qed.

Lemma get_all_edges_no_keys (s : SudokuSolver) :
  domains s = [] -> get_all_edges s = [].
Proof.
  intros H. unfold get_all_edges. rewrite H.
  apply flat_map_all_nil. intros [i j]. reflexivity.
Qed.

Lemma filter_none {A : Type} (f : A -> bool) (l : list A) :
  (forall x, In x l -> f x = false) -> filter f l = [].
Proof.
  induction l as [|h t IH]; intros H; simpl; auto.
  rewrite (H h) by (left; auto). apply IH. intros x Hx. apply H. right; auto.
Qed.

Section FullBoard.
Context {iteration : SetIteration}.

Lemma get_next_variable_full (s : SudokuSolver) :
  domains s = [] -> (forall p, in_range p -> cellp (board s) p <> 0%Z) ->
  get_next_variable s = None.
Proof.
  intros Hd Hfull. unfold get_next_variable. destruct (negb (use_mrv s)).
  - destruct (get_first_empty (board s)) as [p|] eqn:E; auto.
    apply get_first_empty_some in E as [Hp Hz]. destruct (Hfull p Hp Hz).
  - rewrite Hd. reflexivity.
Qed.

Lemma solve_on_full (s : SudokuSolver) (fuel : nat) :
  domains s = [] -> (forall p, in_range p -> cellp (board s) p <> 0%Z) ->
  solve (S fuel) s = Done (true, s).
Proof.
  intros Hd Hfull. unfold solve.
  assert (E : (if use_ac3 s then ac3_with_conflicts (S fuel) s
               else Done (None, s)) = Done (None, s)).
  { destruct (use_ac3 s); auto. unfold ac3_with_conflicts.
    rewrite get_all_edges_no_keys by auto. reflexivity. }
  rewrite E. cbn [bind backtrack_with_conflicts].
  rewrite get_next_variable_full by auto. reflexivity.
Qed.

(** X15. A solved grid is left as it is: the constructor accepts every 9x9
    grid that passes [validate_solution], gives it no domain, and [solve]
    returns true at once, under every configuration, without writing to the
    board. *)
Theorem solve_on_a_solved_grid_returns_true_at_once
        (g : grid) (mrv fc ac3 lcv : bool) (fuel : nat) :
  wf_grid g -> validate_solution g = true ->
  exists s',
    run (S fuel) (py_of g) mrv fc ac3 lcv = Done (true, s') /\
    board s' = g /\ domains s' = [] /\ assignment_order s' = [] /\
    history s' = [(g, [])].
Proof.
  intros Hwf Hv.
  destruct (validate_solution_inv Hwf Hv) as [Hdig _].
  assert (Hvalid : is_valid_board (py_of g) = true).
  { apply is_valid_board_spec. unfold py_of. rewrite length_map.
    destruct Hwf as [Hlen Hrows]. split; auto.
    intros row Hrow. apply in_map_iff in Hrow as [r [<- Hr]].
    rewrite length_map. rewrite Forall_forall in Hrows. split; auto.
    intros x Hx. apply in_map_iff in Hx as [z [<- Hz]].
    exists z. split; auto.
    destruct (In_nth _ _ [] Hr) as [i [Hi Hnth]].
    destruct (In_nth _ _ 0%Z Hz) as [j [Hj Hnthj]].
    rewrite (Hrows r Hr) in Hj. rewrite Hlen in Hi.
    assert (D := Hdig (i, j) (conj Hi Hj)).
    unfold cellp, cell in D. cbn [fst snd] in D.
    rewrite Hnth, Hnthj in D. lia. }
  assert (Hnone : initial_domains g = []).
  { unfold initial_domains. rewrite filter_none; auto.
    intros p Hp. apply in_all_positions in Hp.
    apply Z.eqb_neq. specialize (Hdig p Hp). lia. }
  unfold run. rewrite init_done by auto. rewrite ints_of_py_of, Hnone.
  cbn [bind]. rewrite solve_on_full.
  - eexists. split; [reflexivity|]. repeat split.
  - reflexivity.
  - cbn [board]. intros p Hp. specialize (Hdig p Hp). lia.
Qed.

(** X16. [solve] can be called again after a success: when a run on an
    accepted board whose nine rows are distinct objects has returned true,
    no domain is left, and a second call of [solve] returns true and leaves
    the solver as it is. *)
Theorem solve_again_after_success_changes_nothing
        (refs : board_ref) (brd : pyboard) (mrv fc ac3 lcv : bool)
        (fuel fuel' : nat) (s' : SudokuSolver) :
  NoDup refs -> length refs = 9 ->
  is_valid_board brd = true ->
  InPlace.run refs fuel brd mrv fc ac3 lcv = Done (true, s') ->
  domains s' = [] /\ InPlace.solve refs (S fuel') s' = Done (true, s').
Proof.
  intros Hnd Hlen Hv Hrun.
  rewrite (@run_in_place iteration refs Hnd Hlen) in Hrun.
  pose proof (@run_spec iteration fuel brd mrv fc ac3 lcv Hv) as H.
  rewrite Hrun in H. cbn [ospec fst snd] in H.
  destruct H as [Hinv [_ Hfull]]. specialize (Hfull eq_refl).
  assert (Hd : domains s' = []).
  { destruct (domains s') as [|[k dom] t] eqn:E; auto. exfalso.
    assert (Hk : In k (keys (domains s'))) by (rewrite E; left; auto).
    apply (inv_keys Hinv) in Hk as [Hr Hz]. exact (Hfull k Hr Hz). }
  split; auto.
  rewrite (@solve_in_place iteration refs Hnd Hlen _ (S fuel') s' Hinv).
  apply solve_on_full; auto.
Qed.

End FullBoard.

Lemma solve_on_a_solved_grid_returns_true_at_once_witness :
  exists s',
    run 1 (py_of solved_board) false true false true = Done (true, s') /\
    board s' = solved_board /\ domains s' = [] /\
    assignment_order s' = [] /\ history s' = [(solved_board, [])].
Proof.
  apply (@solve_on_a_solved_grid_returns_true_at_once stored_order
           solved_board false true false true 0).
  - apply wf_grid_checked. vm_compute. reflexivity.
  - vm_compute. reflexivity.
Defined.

(** The solver after the run on the board with thirty clues. *)
Definition easy_final : SudokuSolver :=
  final_solver no_solver
    (run search_budget (py_of easy_board) true true true true).

Lemma solve_again_after_success_changes_nothing_witness :
  domains easy_final = [] /\
  InPlace.solve nine_rows 1 easy_final = Done (true, easy_final).
Proof.
  apply (@solve_again_after_success_changes_nothing stored_order nine_rows
           (py_of easy_board) true true true true search_budget 0
           easy_final).
  - apply seq_NoDup.
  - reflexivity.
  - vm_compute. reflexivity.
  - vm_compute. reflexivity.
Defined.

(** ** AC-3 reaches a fixpoint *)

(** Every value stored for a cell has, in the set of each peer that has a
    set, a value different from it. *)
Definition arc_consistent (d : domain_map) : Prop :=
  forall xi xj di dj,
    dict_get xi d = Some di -> dict_get xj d = Some dj ->
    peer xi xj = true ->
    forall v, In v di -> exists w, In w dj /\ w <> v.

(** Every arc between two peers is on the worklist or is consistent. *)
Definition pending (queue : list (pos * pos)) (d : domain_map) : Prop :=
  forall xi xj di dj,
    dict_get xi d = Some di -> dict_get xj d = Some dj ->
    peer xi xj = true ->
    In (xi, xj) queue \/ forall v, In v di -> exists w, In w dj /\ w <> v.

(** What an answer of AC-3 says about the domains it leaves. *)
Definition ac3_answer (r : option (list pos)) (d : domain_map) : Prop :=
  match r with
  | None => arc_consistent d
  | Some c =>
      exists xi xj,
        c = [xi; xj] /\ peer xi xj = true /\ dict_get xi d = Some []
  end.

Lemma unsupported_value (di dj : list Z) :
  forallb (supported dj) di = false ->
  exists x, In x di /\ forall w, In w dj -> w = x.
Proof.
  induction di as [|v t IH]; cbn [forallb]; [discriminate|].
  destruct (supported dj v) eqn:E; cbn [andb].
  - intros H. destruct (IH H) as [x [Hx Hall]]. exists x. split; auto.
    right; auto.
  - intros _. exists v. split; [left; auto|]. intros w Hw.
    unfold supported in E. rewrite existsb_false in E.
    specialize (E w Hw). apply negb_false_iff, Z.eqb_eq in E. exact E.
Qed.

Section ArcFixpoint.
Context {iteration : SetIteration}.

Lemma ac3_loop_fixpoint (fuel : nat) :
  forall queue s r s',
    (forall p, In p (keys (domains s)) -> in_range p) ->
    Forall (arc_ok (keys (domains s))) queue ->
    pending queue (domains s) ->
    ac3_loop fuel queue s = Done (r, s') ->
    ac3_answer r (domains s').
Proof.
  induction fuel as [|fuel IH]; intros queue s r s' Hkeys Hq Hpend H;
    [discriminate|].
  cbn [ac3_loop] in H. destruct queue as [|[xi xj] queue'].
  - inversion H; subst. intros a b da db Ha Hb Hp.
    destruct (Hpend a b da db Ha Hb Hp) as [[]|Hc]. exact Hc.
  - inversion Hq as [|? ? Harc Hq']; subst.
    destruct Harc as [Hxi [Hxj Hpeer]]. cbn [fst snd] in Hxi, Hxj, Hpeer.
    destruct (proj1 (dict_get_keys _ _) Hxi) as [di Hi].
    destruct (proj1 (dict_get_keys _ _) Hxj) as [dj Hj].
    assert (Hne : xi <> xj) by (apply peer_same_unit in Hpeer; tauto).
    destruct (remove_inconsistent_values_char s Hi Hj Hne)
      as [s1 [H1 [H2 [H3 [H4 H5]]]]].
    rewrite H1 in H. cbn [bind] in H.
    destruct (forallb (supported dj) di) eqn:F; cbn [negb] in H.
    + specialize (H5 eq_refl). subst s1.
      apply (IH queue' s); auto.
      intros a b da db Ha Hb Hp.
      destruct (Hpend a b da db Ha Hb Hp) as [[E|Hin]|Hc]; auto.
      inversion E; subst a b. right.
      assert (da = di) by congruence. assert (db = dj) by congruence.
      subst da db. intros v Hv. rewrite forallb_forall in F.
      specialize (F v Hv). unfold supported in F.
      apply existsb_exists in F as [w [Hw E']].
      exists w. split; auto. apply negb_true_iff, Z.eqb_neq in E'. exact E'.
    + rewrite H3 in H.
      assert (K : forall p, In p (keys (domains s1)) <->
                            In p (keys (domains s))).
      { intros p. rewrite !dict_get_keys.
        destruct (pos_eq_dec p xi) as [->|Hp].
        - rewrite H3, Hi. split; eauto.
        - rewrite H4 by auto. tauto. }
      destruct (revise di dj) as [|v0 t] eqn:R.
      * inversion H; subst. exists xi, xj. split; [|split; auto].
        unfold pos_add. cbn [pos_mem existsb app].
        assert (E : pos_eqb xj xi = false)
          by (apply pos_eqb_neq; congruence).
        rewrite E. reflexivity.
      * apply IH in H; auto.
        -- intros p Hp. apply Hkeys, K, Hp.
        -- apply Forall_app. split.
           ++ apply Forall_forall. intros [a b] Hin.
              rewrite Forall_forall in Hq'.
              destruct (Hq' _ Hin) as [Ha [Hb Hp]].
              split; [|split]; auto; apply K; auto.
           ++ apply Forall_forall. intros [a b] Hin.
              apply in_map_iff in Hin as [xk [E Hin]].
              inversion E; subst a b.
              apply filter_In in Hin as [Hin _].
              rewrite In_iter_cells in Hin.
              apply get_neighbors_spec in Hin as [Hk Hp].
              split; [|split]; auto. apply K; auto.
        -- intros a b da db Ha Hb Hp.
           assert (Hab : a <> b) by (apply peer_same_unit in Hp; tauto).
           destruct (pos_eq_dec b xi) as [->|Hbne].
           ++ rewrite H3 in Hb. inversion Hb; subst db. clear Hb.
              rewrite H4 in Ha by auto.
              destruct (pos_eq_dec a xj) as [->|Hane].
              ** right. assert (da = dj) by congruence. subst da.
                 intros y Hy.
                 destruct (unsupported_value _ _ F) as [x [Hx Hall]].
                 assert (Hv0 : In v0 (revise di dj))
                   by (rewrite R; left; auto).
                 apply revise_spec in Hv0 as [_ [w [Hw Hwv]]].
                 exists v0. split; [left; auto|].
                 rewrite (Hall y Hy). rewrite <- (Hall w Hw). auto.
              ** left. apply in_app_iff. right. apply in_map_iff.
                 exists a. split; auto. apply filter_In. split.
                 --- rewrite In_iter_cells.
                     assert (Hka : In a (keys (domains s)))
                       by (apply dict_get_keys; eauto).
                     apply get_neighbors_complete; auto.
                     apply K; auto.
                 --- apply negb_true_iff, pos_eqb_neq. exact Hane.
           ++ rewrite H4 in Hb by auto.
              destruct (pos_eq_dec a xi) as [->|Hane].
              ** rewrite H3 in Ha. inversion Ha; subst da. clear Ha.
                 destruct (Hpend xi b di db Hi Hb Hp) as [[E|Hin]|Hc].
                 --- inversion E; subst b. right.
                     assert (db = dj) by congruence. subst db.
                     intros v Hv. rewrite <- R in Hv.
                     apply revise_spec in Hv as [_ Hs]. exact Hs.
                 --- left. apply in_app_iff. left. exact Hin.
                 --- right. intros v Hv. apply Hc. rewrite <- R in Hv.
                     apply revise_spec in Hv as [Hv _]. exact Hv.
              ** rewrite H4 in Ha by auto.
                 destruct (Hpend a b da db Ha Hb Hp) as [[E|Hin]|Hc].
                 --- inversion E. congruence.
                 --- left. apply in_app_iff. left. exact Hin.
                 --- right. exact Hc.
Qed.

(** X17. In every state of the search ([inv]) and with the fuel of
    [ac3_budget], [ac3_with_conflicts] returns, leaving the board alone.
    When it returns [None] the domains are arc consistent: every value
    stored for a cell has a different value in the set of each of its
    peers. When it returns a conflict set, that set holds the two ends of
    one arc, and the set stored for the first end is empty. *)
Theorem ac3_with_conflicts_reaches_arc_consistency
        (b0 : grid) (s : SudokuSolver) (fuel : nat) :
  inv b0 s -> ac3_budget <= fuel ->
  exists r s',
    ac3_with_conflicts fuel s = Done (r, s') /\
    board s' = board s /\
    match r with
    | None => arc_consistent (domains s')
    | Some c =>
        exists xi xj,
          c = [xi; xj] /\ peer xi xj = true /\
          dict_get xi (domains s') = Some []
    end.
Proof.
  intros Hinv Hfuel.
  pose proof (@ac3_with_conflicts_spec iteration b0 fuel s Hinv) as H.
  destruct (ac3_with_conflicts fuel s) as [[r s']| |] eqn:E;
    cbn [ospec] in H; [|destruct H|lia].
  exists r, s'. split; auto.
  destruct H as [_ [[Hb _] _]]. cbn [snd] in Hb. split; auto.
  assert (Hkeys : forall p, In p (keys (domains s)) -> in_range p).
  { intros p Hp. apply (@inv_key_range b0 s p Hinv Hp). }
  apply (@ac3_loop_fixpoint fuel (get_all_edges s) s r s'); auto.
  - apply Forall_forall. intros [a c] Hin.
    apply In_get_all_edges in Hin; auto.
  - intros a c da dc Ha Hc Hp. left. apply In_get_all_edges; auto.
    split; [|split; auto]; apply dict_get_keys; eauto.
Qed.

End ArcFixpoint.

Lemma ac3_with_conflicts_reaches_arc_consistency_witness :
  exists r s',
    ac3_with_conflicts ac3_budget easy_start = Done (r, s') /\
    board s' = board easy_start /\
    match r with
    | None => arc_consistent (domains s')
    | Some c =>
        exists xi xj,
          c = [xi; xj] /\ peer xi xj = true /\
          dict_get xi (domains s') = Some []
    end.
Proof.
  apply (@ac3_with_conflicts_reaches_arc_consistency stored_order
           (ints_of (py_of easy_board)) easy_start ac3_budget).
  - exact inv_easy_start.
  - apply le_n.
Defined.

(** ** Conflict sets *)

Lemma In_pos_update (t : list pos) :
  forall s q, In q (pos_update s t) <-> In q s \/ In q t.
Proof.
  unfold pos_update. induction t as [|p t IH]; intros s q; simpl.
  - tauto.
  - rewrite IH, In_pos_add. intuition auto.
Qed.

Lemma In_pos_minus (s : list pos) (p q : pos) :
  In q (pos_minus s p) <-> In q s /\ q <> p.
Proof.
  unfold pos_minus. rewrite filter_In, negb_true_iff, pos_eqb_neq. tauto.
Qed.

Lemma dict_get_set {V : Type} (d : dict V) (k : pos) (v : V) :
  dict_get k (dict_set d k v) = Some v.
Proof.
  induction d as [|[a b] t IH]; simpl.
  - rewrite pos_eqb_refl. reflexivity.
  - destruct (pos_eqb a k) eqn:E; simpl; rewrite E; auto.
Qed.

Lemma forward_check_loop_flags (var : pos) (value : Z) (cells : list pos) :
  forall s, same_flags s (snd (forward_check_loop s var value cells)).
Proof.
  induction cells as [|[i j] rest IH]; intros s; cbn [forward_check_loop].
  - cbn [snd]. apply same_flags_refl.
  - destruct ((cell (board s) i j =? 0)%Z
              && same_unit i j (fst var) (snd var)); [|apply IH].
    set (s1 := with_domains s (dict_upd (domains s) (i, j) (discard value))).
    assert (F : same_flags s s1) by (repeat split).
    destruct (dict_mem (i, j) (domains s1)
              && match dict_get (i, j) (domains s1) with
                 | Some [] => true
                 | _ => false
                 end).
    + exact F.
    + eapply same_flags_trans; [exact F | apply IH].
Qed.

Lemma restore_state_flags (s s' : SudokuSolver) (var : pos)
      (d : domain_map) (c : dict (list pos)) :
  restore_state s var d c = Done s' -> same_flags s s'.
Proof.
  unfold restore_state.
  cbn [assignment_order with_conflict_sets with_domains with_board].
  destruct (assignment_order s); [discriminate|].
  intros H. inversion H; subst. repeat split.
Qed.

Lemma assign_flags (s s' : SudokuSolver) (var : pos) (value : Z) :
  assign s var value = Done s' -> same_flags s s'.
Proof.
  unfold assign.
  cbn [domains with_assignment_order with_board assignment_order].
  destruct (dict_mem var (domains s)); [|discriminate].
  intros H. inversion H; subst. repeat split.
Qed.

Section ConflictSets.
Context {iteration : SetIteration}.

Lemma try_values_conflicts
      (recurse : SudokuSolver -> outcome search_result) (fuel : nat)
      (var : pos) :
  forall values cc0 s cc s',
    ~ In var cc0 ->
    try_values recurse fuel var values cc0 s = Done (false, cc, s') ->
    ~ In var cc /\ dict_get var (conflict_sets s') = Some cc.
Proof.
  assert (Step : forall cc0 x, ~ In var cc0 ->
                   ~ In var (pos_update cc0 (pos_minus x var))).
  { intros cc0 x H Hin. apply In_pos_update in Hin as [Hin|Hin]; auto.
    apply In_pos_minus in Hin as [_ Hin]. congruence. }
  induction values as [|value rest IH]; intros cc0 s cc s' Hcc H.
  - cbn [try_values] in H. inversion H; subst.
    split; auto. cbn [conflict_sets with_conflict_sets].
    apply dict_get_set.
  - cbn [try_values] in H.
    destruct (is_safe (board s) var value); [|eapply IH; eauto].
    destruct (assign s var value) as [s1| |]; cbn [bind] in H;
      try discriminate.
    destruct (if use_forward_checking s1
              then forward_check_with_conflicts s1 var value
              else (None, s1)) as [fc s2].
    destruct fc as [fc|].
    + destruct (restore_state s2 var (domains s) (conflict_sets s))
        as [s3| |]; cbn [bind] in H; try discriminate.
      eapply IH; [|exact H]. auto.
    + destruct (if use_ac3 s2 then ac3_with_conflicts fuel s2
                else Done (None, s2)) as [[ac s3]| |];
        cbn [bind] in H; try discriminate.
      destruct ac as [ac|].
      * destruct (restore_state s3 var (domains s) (conflict_sets s))
          as [s4| |]; cbn [bind] in H; try discriminate.
        eapply IH; [|exact H]. auto.
      * destruct (recurse s3) as [[[success nc] s4]| |];
          cbn [bind] in H; try discriminate.
        destruct success; [discriminate|].
        destruct (restore_state s4 var (domains s) (conflict_sets s))
          as [s5| |]; cbn [bind] in H; try discriminate.
        eapply IH; [|exact H]. auto.
Qed.

(** X18. When [backtrack_with_conflicts] fails, it has branched on a
    variable; the conflict set it returns never holds that variable, and it
    is the set stored under the variable in [conflict_sets]. *)
Theorem failed_search_stores_a_conflict_set_without_its_variable
        (fuel : nat) (s s' : SudokuSolver) (cc : list pos) :
  backtrack_with_conflicts fuel s = Done (false, cc, s') ->
  exists var,
    get_next_variable s = Some var /\ ~ In var cc /\
    dict_get var (conflict_sets s') = Some cc.
Proof.
  destruct fuel as [|fuel]; [discriminate|].
  cbn [backtrack_with_conflicts].
  destruct (get_next_variable s) as [var|]; [|discriminate].
  destruct (get_ordered_values s var) as [values| |]; cbn [bind];
    try discriminate.
  intros H. exists var. split; auto.
  apply (@try_values_conflicts (backtrack_with_conflicts fuel) fuel var
           values [] s cc s'); auto.
Qed.

Lemma try_values_without_ac3
      (recurse : SudokuSolver -> outcome search_result) (fuel : nat)
      (var : pos) :
  (forall s3 r, use_ac3 s3 = false -> recurse s3 = Done r ->
                snd (fst r) = [] /\ use_ac3 (snd r) = false) ->
  forall values s r,
    use_ac3 s = false ->
    try_values recurse fuel var values [] s = Done r ->
    snd (fst r) = [] /\ use_ac3 (snd r) = false.
Proof.
  intros Hrec.
  induction values as [|value rest IH]; intros s r Hs H.
  - cbn [try_values] in H. inversion H; subst. split; auto.
  - cbn [try_values] in H.
    destruct (is_safe (board s) var value); [|eapply IH; eauto].
    destruct (assign s var value) as [s1| |] eqn:Ea; cbn [bind] in H;
      try discriminate.
    assert (Hs1 : use_ac3 s1 = false).
    { apply assign_flags in Ea. destruct Ea as [_ [_ [E _]]]. congruence. }
    destruct (if use_forward_checking s1
              then forward_check_with_conflicts s1 var value
              else (None, s1)) as [fc s2] eqn:Efc.
    assert (Hfc : use_ac3 s2 = false /\
                  forall c, fc = Some c -> pos_minus c var = []).
    { destruct (use_forward_checking s1).
      - pose proof (forward_check_loop_flags var value all_positions s1)
          as F.
        destruct (forward_check_loop_char var value all_positions s1)
          as [_ [[Hn _]|[Hsome _]]];
          unfold forward_check_with_conflicts in Efc;
          rewrite Efc in *; cbn [fst snd] in *;
          destruct F as [_ [_ [F _]]]; (split; [congruence|]);
          intros c Hc; [congruence|].
        assert (c = [var]) by congruence. subst c.
        unfold pos_minus. cbn [filter]. rewrite pos_eqb_refl. reflexivity.
      - inversion Efc; subst. split; auto. discriminate. }
    destruct Hfc as [Hs2 Hfc].
    destruct fc as [fc|].
    + destruct (restore_state s2 var (domains s) (conflict_sets s))
        as [s3| |] eqn:Er; cbn [bind] in H; try discriminate.
      rewrite (Hfc fc eq_refl) in H. cbn [pos_update fold_left] in H.
      eapply IH; [|exact H].
      apply restore_state_flags in Er. destruct Er as [_ [_ [E _]]].
      congruence.
    + rewrite Hs2 in H. cbn [bind] in H.
      destruct (recurse s2) as [[[success nc] s4]| |] eqn:Erec;
        cbn [bind] in H; try discriminate.
      destruct (Hrec s2 _ Hs2 Erec) as [Hnc Hs4]. cbn [fst snd] in Hnc, Hs4.
      destruct success.
      * inversion H; subst. split; auto.
      * destruct (restore_state s4 var (domains s) (conflict_sets s))
          as [s5| |] eqn:Er; cbn [bind] in H; try discriminate.
        subst nc. cbn [pos_minus filter pos_update fold_left] in H.
        eapply IH; [|exact H].
        apply restore_state_flags in Er. destruct Er as [_ [_ [E _]]].
        congruence.
Qed.

(** X19. Without AC-3 the conflict sets carry nothing: forward checking
    blames the assigned cell alone, which the caller subtracts, so every
    conflict set that [backtrack_with_conflicts] returns is empty. *)
Theorem conflict_sets_are_empty_without_ac3
        (fuel : nat) (s s' : SudokuSolver) (success : bool)
        (cc : list pos) :
  use_ac3 s = false ->
  backtrack_with_conflicts fuel s = Done (success, cc, s') ->
  cc = [].
Proof.
  intros Hs H.
  enough (G : forall fuel s r,
             use_ac3 s = false -> backtrack_with_conflicts fuel s = Done r ->
             snd (fst r) = [] /\ use_ac3 (snd r) = false).
  { destruct (G fuel s _ Hs H) as [E _]. exact E. }
  clear. induction fuel as [|fuel IH]; intros s r Hs H; [discriminate|].
  cbn [backtrack_with_conflicts] in H.
  destruct (get_next_variable s) as [var|].
  - destruct (get_ordered_values s var) as [values| |]; cbn [bind] in H;
      try discriminate.
    apply (@try_values_without_ac3 (backtrack_with_conflicts fuel) fuel var
             (IH) values s r Hs H).
  - inversion H; subst. split; auto.
Qed.

End ConflictSets.

(** The parts of the outcome of a search; without an outcome, a failure
    with no conflict on the solver it started from. *)
Definition search_success (o : outcome search_result) : bool :=
  match o with Done r => fst (fst r) | _ => false end.
Definition search_conflicts (o : outcome search_result) : list pos :=
  match o with Done r => snd (fst r) | _ => [] end.
Definition search_solver (s0 : SudokuSolver) (o : outcome search_result)
  : SudokuSolver :=
  match o with Done r => snd r | _ => s0 end.

(** The search with AC-3 alone on the board whose first two cells both
    need a 5. *)
Definition forced_pair_ac3 : SudokuSolver :=
  constructed (init (py_of forced_pair_board) false false true false).

Lemma failed_search_stores_a_conflict_set_without_its_variable_witness :
  exists var,
    get_next_variable forced_pair_ac3 = Some var /\
    ~ In var (search_conflicts
                (backtrack_with_conflicts search_budget forced_pair_ac3)) /\
    dict_get var
      (conflict_sets
         (search_solver forced_pair_ac3
            (backtrack_with_conflicts search_budget forced_pair_ac3)))
    = Some (search_conflicts
              (backtrack_with_conflicts search_budget forced_pair_ac3)).
Proof.
  apply (@failed_search_stores_a_conflict_set_without_its_variable
           stored_order search_budget forced_pair_ac3).
  vm_compute. reflexivity.
Defined.

Lemma conflict_sets_are_empty_without_ac3_witness :
  search_conflicts (backtrack_with_conflicts search_budget forced_pair_start)
  = [].
Proof.
  apply (@conflict_sets_are_empty_without_ac3 stored_order search_budget
           forced_pair_start
           (search_solver forced_pair_start
              (backtrack_with_conflicts search_budget forced_pair_start))
           (search_success
              (backtrack_with_conflicts search_budget forced_pair_start))).
  - reflexivity.
  - vm_compute. reflexivity.
Defined.

(** ** [print_board] *)

(** The decimal digits of a text, in order, and the number of its line
    breaks. *)
Definition digit_of (c : Ascii.ascii) : option Z :=
  let n := Ascii.nat_of_ascii c in
  if (48 <=? n) && (n <=? 57) then Some (Z.of_nat (n - 48)) else None.

Fixpoint digits_of (s : String.string) : list Z :=
  match s with
  | String.EmptyString => []
  | String.String c r =>
      match digit_of c with
      | Some d => d :: digits_of r
      | None => digits_of r
      end
  end.

Fixpoint line_breaks (s : String.string) : nat :=
  match s with
  | String.EmptyString => 0
  | String.String c r =>
      (if Ascii.nat_of_ascii c =? 10 then 1 else 0) + line_breaks r
  end.

Lemma digits_of_app (s t : String.string) :
  digits_of (String.append s t) = digits_of s ++ digits_of t.
Proof.
  induction s as [|c r IH]; simpl; auto.
  destruct (digit_of c); simpl; rewrite IH; reflexivity.
Qed.

Lemma line_breaks_app (s t : String.string) :
  line_breaks (String.append s t) = line_breaks s + line_breaks t.
Proof.
  induction s as [|c r IH]; simpl; auto. rewrite IH. lia.
Qed.

Lemma str_int_digit (x : Z) :
  (0 <= x <= 9)%Z ->
  digits_of (str_int x) = [x] /\ line_breaks (str_int x) = 0.
Proof.
  intros H.
  assert (C : (x = 0 \/ x = 1 \/ x = 2 \/ x = 3 \/ x = 4 \/ x = 5
               \/ x = 6 \/ x = 7 \/ x = 8 \/ x = 9)%Z) by lia.
  repeat (destruct C as [->|C]; [split; reflexivity|]).
  subst. split; reflexivity.
Qed.

Lemma print_cells_raises (row : list Z) (js : list nat) :
  forall out,
    snd (print_cells row js out) = None <-> forall j, In j js -> j < length row.
Proof.
  induction js as [|j rest IH]; intros out; cbn [print_cells].
  - cbn [snd]. split; auto. intros _ j [].
  - destruct (nth_error row j) as [x|] eqn:E.
    + rewrite IH. assert (j < length row)
        by (apply nth_error_Some; congruence).
      split; [intros H' k [<-|Hk]; auto | intros H' k Hk; apply H'; right; auto].
    + cbn [snd]. apply nth_error_None in E. split; [discriminate|].
      intros H'. specialize (H' j (or_introl eq_refl)). lia.
Qed.

Lemma print_cells_error (row : list Z) (js : list nat) :
  forall out e, snd (print_cells row js out) = Some e -> e = IndexError.
Proof.
  induction js as [|j rest IH]; intros out e; cbn [print_cells].
  - discriminate.
  - destruct (nth_error row j); [apply IH|].
    cbn [snd]. congruence.
Qed.

Lemma print_rows_raises (board : grid) (rows : list nat) :
  forall out,
    snd (print_rows board rows out) = None <->
    forall i, In i rows -> length (hd [] board) <= length (nth i board []).
Proof.
  induction rows as [|i rest IH]; intros out; cbn [print_rows].
  - cbn [snd]. split; auto. intros _ i [].
  - match goal with
    | |- context [print_cells ?r ?js ?o] =>
        pose proof (print_cells_raises r js o) as C;
        destruct (print_cells r js o) as [out2 [e|]]
    end; cbn [snd] in *.
    + split; [discriminate|]. intros H'.
      assert (F : Some e = None); [|discriminate].
      apply C. intros j Hj. apply in_seq in Hj.
      specialize (H' i (or_introl eq_refl)). lia.
    + rewrite IH. destruct C as [C _]. specialize (C eq_refl).
      split; [intros H' k [<-|Hk]; auto | intros H' k Hk; apply H'; right; auto].
      destruct (length (hd [] board)) as [|w] eqn:W; [lia|].
      assert (w < length (nth i board [])); [|lia].
      apply C. apply in_seq. lia.
Qed.

Lemma print_rows_error (board : grid) (rows : list nat) :
  forall out e, snd (print_rows board rows out) = Some e -> e = IndexError.
Proof.
  induction rows as [|i rest IH]; intros out e; cbn [print_rows].
  - discriminate.
  - match goal with
    | |- context [print_cells ?r ?js ?o] =>
        pose proof (print_cells_error r js o) as C;
        destruct (print_cells r js o) as [out2 [e'|]]
    end; cbn [snd] in *; [|apply IH].
    intros H. inversion H; subst. apply C. reflexivity.
Qed.

Lemma print_board_raises_free (board : grid) :
  Forall (fun row => length (hd [] board) <= length row) board ->
  snd (print_board board) = None.
Proof.
  intros H. unfold print_board. apply print_rows_raises.
  rewrite Forall_forall in H. intros i Hi. apply in_seq in Hi.
  apply H. apply nth_In. lia.
Qed.

(** X20. [print_board] fails exactly when some row is shorter than the
    first row, and then with [IndexError]; rows longer than the first are
    accepted. The empty board prints nothing. *)
Theorem print_board_raises_on_a_short_row (board : grid) :
  (snd (print_board board) = None <->
   Forall (fun row => length (hd [] board) <= length row) board) /\
  (forall e, snd (print_board board) = Some e -> e = IndexError) /\
  print_board [] = (String.EmptyString, None).
Proof.
  split; [|split; [apply print_rows_error | reflexivity]].
  unfold print_board. rewrite print_rows_raises, Forall_forall. split.
  - intros H row Hrow. destruct (In_nth _ _ [] Hrow) as [i [Hi <-]].
    apply H. apply in_seq. lia.
  - intros H i Hi. apply in_seq in Hi. apply H. apply nth_In. lia.
Qed.

Lemma count_occ_seq (k n : nat) :
  forall a, count_occ Nat.eq_dec (seq a n) k
            = if (a <=? k) && (k <? a + n) then 1 else 0.
Proof.
  induction n as [|n IH]; intros a; cbn [seq count_occ].
  - destruct (a <=? k) eqn:E1, (k <? a + 0) eqn:E2; auto.
    apply Nat.leb_le in E1. apply Nat.ltb_lt in E2. lia.
  - rewrite IH. destruct (Nat.eq_dec a k) as [->|Hne].
    + rewrite Nat.leb_refl.
      assert (E1 : (S k <=? k) = false) by (apply Nat.leb_gt; lia).
      assert (E2 : (k <? k + S n) = true) by (apply Nat.ltb_lt; lia).
      rewrite E1, E2. reflexivity.
    + destruct (a <=? k) eqn:E1, (S a <=? k) eqn:E2,
               (k <? S a + n) eqn:E3, (k <? a + S n) eqn:E4; auto;
        repeat match goal with
               | H : (_ <=? _) = true |- _ => apply Nat.leb_le in H
               | H : (_ <=? _) = false |- _ => apply Nat.leb_gt in H
               | H : (_ <? _) = true |- _ => apply Nat.ltb_lt in H
               | H : (_ <? _) = false |- _ => apply Nat.ltb_ge in H
               end; lia.
Qed.

Lemma map_nth_firstn (row : list Z) :
  forall a w, a + w <= length row ->
    map (fun j => nth j row 0%Z) (seq a w) = firstn w (skipn a row).
Proof.
  intros a w. revert a. induction w as [|w IH]; intros a H; cbn [seq map].
  - reflexivity.
  - rewrite IH by lia.
    assert (E : skipn a row = nth a row 0%Z :: skipn (S a) row).
    { clear IH. revert a H. induction row as [|x t IHt]; intros a H.
      - simpl in H. lia.
      - destruct a as [|a]; [reflexivity|].
        cbn [skipn nth]. apply IHt. simpl in H. lia. }
    rewrite E. reflexivity.
Qed.

Lemma flat_map_nth {A B : Type} (f : A -> list B) (l : list A) (d : A) :
  flat_map (fun i => f (nth i l d)) (seq 0 (length l)) = flat_map f l.
Proof.
  transitivity (flat_map f (map (fun i => nth i l d) (seq 0 (length l)))).
  - generalize (seq 0 (length l)). intros js.
    induction js as [|j t IH]; simpl; congruence.
  - rewrite <- list_as_map_nth. reflexivity.
Qed.

(** A separator line is written before row [i]. *)
Definition separated (i : nat) : bool := (i mod 3 =? 0) && negb (i =? 0).

Lemma separators (n : nat) :
  length (filter separated (seq 0 n)) = (n - 1) / 3.
Proof.
  induction n as [|n IH]; [reflexivity|].
  rewrite seq_S, filter_app, length_app, IH. cbn [plus filter].
  replace (S n - 1) with n by lia. unfold separated.
  destruct n as [|n]; [reflexivity|].
  replace (S n - 1) with n by lia. cbn [Nat.eqb negb].
  rewrite andb_true_r.
  pose proof (Nat.div_mod_eq (S n) 3) as D1.
  pose proof (Nat.div_mod_eq n 3) as D2.
  pose proof (Nat.mod_upper_bound (S n) 3) as U1.
  pose proof (Nat.mod_upper_bound n 3) as U2.
  destruct (S n mod 3 =? 0) eqn:E; cbn [length].
  - apply Nat.eqb_eq in E. lia.
  - apply Nat.eqb_neq in E. lia.
Qed.

Lemma print_cells_text (row : list Z) (js : list nat) :
  (forall j, In j js -> j < length row) ->
  (forall x, In x row -> (0 <= x <= 9)%Z) ->
  forall out,
    digits_of (fst (print_cells row js out))
    = digits_of out ++ map (fun j => nth j row 0%Z) js /\
    line_breaks (fst (print_cells row js out))
    = line_breaks out + count_occ Nat.eq_dec js 8.
Proof.
  intros Hjs Hrow.
  induction js as [|j rest IH]; intros out; cbn [print_cells].
  - cbn [fst map count_occ]. rewrite app_nil_r. split; auto.
  - assert (Hj : j < length row) by (apply Hjs; left; auto).
    rewrite (nth_error_nth' row 0%Z Hj).
    destruct (str_int_digit (Hrow _ (nth_In row 0%Z Hj))) as [D L].
    assert (IH' := IH (fun k Hk => Hjs k (or_intror Hk))). clear IH.
    match goal with
    | |- context [print_cells row rest ?o] => destruct (IH' o) as [I1 I2]
    end.
    rewrite I1, I2. clear I1 I2 IH'.
    cbn [map count_occ].
    destruct ((j mod 3 =? 0) && negb (j =? 0));
      destruct (Nat.eq_dec j 8) as [->|Hne];
      try (apply Nat.eqb_neq in Hne; rewrite Hne);
      cbn [Nat.eqb];
      rewrite ?digits_of_app, ?line_breaks_app, ?D, ?L;
      cbn [digits_of line_breaks Text.bar Text.space Text.newline];
      rewrite <- ?app_assoc; split; try reflexivity; simpl; lia.
Qed.

Lemma print_rows_text (board : grid) (rows : list nat) :
  (forall i, In i rows -> i < length board) ->
  Forall (fun row => length (hd [] board) <= length row) board ->
  (forall row x, In row board -> In x row -> (0 <= x <= 9)%Z) ->
  forall out,
    digits_of (fst (print_rows board rows out))
    = digits_of out
      ++ flat_map (fun i => firstn (length (hd [] board)) (nth i board []))
                  rows /\
    line_breaks (fst (print_rows board rows out))
    = line_breaks out + length (filter separated rows)
      + (if 9 <=? length (hd [] board) then length rows else 0).
Proof.
  intros Hrows Hwide Hcells. rewrite Forall_forall in Hwide.
  induction rows as [|i rest IH]; intros out; cbn [print_rows].
  - cbn [fst flat_map filter length]. rewrite app_nil_r.
    destruct (9 <=? length (hd [] board)); split; auto; lia.
  - assert (Hi : In (nth i board []) board)
      by (apply nth_In, Hrows; left; auto).
    assert (IH' := IH (fun k Hk => Hrows k (or_intror Hk))). clear IH.
    assert (Hjs : forall j, In j (seq 0 (length (hd [] board))) ->
                            j < length (nth i board [])).
    { intros j Hj. apply in_seq in Hj. specialize (Hwide _ Hi). lia. }
    match goal with
    | |- context [print_cells ?r ?js ?o] =>
        pose proof (proj2 (print_cells_raises r js o) Hjs) as R;
        destruct (@print_cells_text r js Hjs (fun x => Hcells r x Hi) o)
          as [T1 T2];
        destruct (print_cells r js o) as [out2 [e|]]
    end; cbn [fst snd] in *; [discriminate|].
    destruct (IH' out2) as [I1 I2]. rewrite I1, I2, T1, T2. clear I1 I2.
    rewrite count_occ_seq, (map_nth_firstn _ 0) by (apply Hwide; auto).
    cbn [skipn flat_map filter]. fold (separated i).
    replace (0 <=? 8) with true by reflexivity. cbn [andb plus].
    change (8 <? length (hd [] board)) with (9 <=? length (hd [] board)).
    assert (Dsep : digits_of (String.append Text.dashes Text.newline) = [])
      by reflexivity.
    assert (Ldash : line_breaks Text.dashes = 0) by reflexivity.
    assert (Lnew : line_breaks Text.newline = 1) by reflexivity.
    destruct (separated i);
      rewrite ?digits_of_app, ?line_breaks_app, ?Dsep, ?Ldash, ?Lnew,
        ?app_nil_r, <- ?app_assoc; cbn [length];
      (split; [reflexivity|]);
      destruct (9 <=? length (hd [] board)); lia.
Qed.

(** X21. On a board whose cells hold values from 0 to 9 and whose rows are
    at least as long as the first, [print_board] raises nothing; the decimal
    digits of the text it writes are the cells, row by row, of the columns
    of the first row; and the text has one line break per separator line
    and, only if the first row has nine cells or more, one per row: the
    line break is written after the ninth cell, whatever the width. *)
Theorem print_board_writes_the_cells_in_row_major_order (board : grid) :
  Forall (fun row => length (hd [] board) <= length row) board ->
  (forall row x, In row board -> In x row -> (0 <= x <= 9)%Z) ->
  snd (print_board board) = None /\
  digits_of (fst (print_board board))
  = flat_map (firstn (length (hd [] board))) board /\
  line_breaks (fst (print_board board))
  = (length board - 1) / 3
    + (if 9 <=? length (hd [] board) then length board else 0).
Proof.
  intros Hwide Hcells. split.
  - apply print_board_raises_free. exact Hwide.
  - unfold print_board.
    destruct (@print_rows_text board (seq 0 (length board))) with
      (out := String.EmptyString) as [D L]; auto.
    { intros i Hi. apply in_seq in Hi. lia. }
    rewrite D, L, separators, length_seq. cbn [digits_of line_breaks].
    split; auto. cbn [app]. apply flat_map_nth.
Qed.

Lemma print_board_writes_the_cells_in_row_major_order_witness :
  snd (print_board easy_board) = None /\
  digits_of (fst (print_board easy_board))
  = flat_map (firstn (length (hd [] easy_board))) easy_board /\
  line_breaks (fst (print_board easy_board))
  = (length easy_board - 1) / 3
    + (if 9 <=? length (hd [] easy_board) then length easy_board else 0).
Proof.
  apply (@print_board_writes_the_cells_in_row_major_order easy_board).
  - repeat constructor.
  - intros row x Hrow Hx.
    assert (F : forallb (forallb (fun x => (0 <=? x)%Z && (x <=? 9)%Z))
                        easy_board = true) by (vm_compute; reflexivity).
    rewrite forallb_forall in F. specialize (F row Hrow).
    rewrite forallb_forall in F. specialize (F x Hx).
    apply andb_true_iff in F as [F1 F2].
    apply Z.leb_le in F1, F2. lia.
Defined.

(** ** [copy_board] *)

Lemma copy_board_loop (h : store) (b : board_ref) :
  Forall (fun a => a < length h) b ->
  forall rs acc,
    fold_left (fun (acc : store * board_ref) (a : nat) =>
                 (fst acc ++ [row_at (fst acc) a],
                  snd acc ++ [length (fst acc)]))
              b (h ++ rs, acc)
    = (h ++ rs ++ map (row_at h) b,
       acc ++ seq (length h + length rs) (length b)).
Proof.
  induction 1 as [|a t Ha Ht IH]; intros rs acc; cbn [fold_left fst snd].
  - cbn [map length seq]. rewrite !app_nil_r. reflexivity.
  - assert (E : row_at (h ++ rs) a = row_at h a)
      by (unfold row_at; apply app_nth1; auto).
    rewrite E, <- app_assoc, IH.
    replace (length h + length (rs ++ [row_at h a]))
      with (S (length h + length rs))
      by (rewrite length_app; cbn [length]; lia).
    cbn [map length seq]. rewrite <- !app_assoc, length_app. reflexivity.
Qed.

Lemma copy_board_eq (h : store) (b : board_ref) :
  Forall (fun a => a < length h) b ->
  copy_board h b = (h ++ map (row_at h) b, seq (length h) (length b)).
Proof.
  intros H. unfold copy_board.
  pose proof (@copy_board_loop h b H [] []) as E.
  rewrite app_nil_r in E. cbn [app length] in E.
  rewrite Nat.add_0_r in E. exact E.
Qed.

Lemma contents_appended (h rs : store) :
  contents (h ++ rs) (seq (length h) (length rs)) = rs.
Proof.
  unfold contents, row_at.
  apply nth_ext with (d := nth 0 (h ++ rs) []) (d' := []).
  - rewrite length_map, length_seq. reflexivity.
  - intros k Hk. rewrite length_map, length_seq in Hk.
    rewrite (map_nth (fun a => nth a (h ++ rs) [])), seq_nth by auto.
    apply app_nth2_plus.
Qed.

Lemma contents_kept (h rs : store) (b : board_ref) :
  Forall (fun a => a < length h) b -> contents (h ++ rs) b = contents h b.
Proof.
  intros H. unfold contents. apply map_ext_in. intros a Ha.
  rewrite Forall_forall in H. unfold row_at. apply app_nth1. auto.
Qed.

Lemma contents_other_row (h : store) (b : board_ref) (a : nat)
      (r : list Z) :
  ~ In a b -> contents (list_set h a r) b = contents h b.
Proof.
  intros Ha. unfold contents. apply map_ext_in. intros k Hk. unfold row_at.
  destruct (Nat.lt_ge_cases a (length h)) as [Hlt|Hge].
  - rewrite nth_list_set by auto.
    destruct (k =? a) eqn:E; auto.
    apply Nat.eqb_eq in E. subst. contradiction.
  - rewrite list_set_overflow by auto. reflexivity.
Qed.

Lemma contents_own_row (h : store) (b : board_ref) (i : nat) (r : list Z) :
  NoDup b -> i < length b -> nth i b 0 < length h ->
  contents (list_set h (nth i b 0) r) b = list_set (contents h b) i r.
Proof.
  intros Hnd Hi Ha. unfold contents.
  apply nth_ext with (d := row_at (list_set h (nth i b 0) r) 0) (d' := []).
  - rewrite list_set_length, !length_map. reflexivity.
  - intros k Hk. rewrite length_map in Hk.
    rewrite (map_nth (row_at (list_set h (nth i b 0) r))).
    rewrite nth_list_set by (rewrite length_map; auto).
    unfold row_at at 1. rewrite nth_list_set by auto.
    destruct (k =? i) eqn:E.
    + apply Nat.eqb_eq in E. subst. rewrite Nat.eqb_refl. reflexivity.
    + apply Nat.eqb_neq in E.
      assert (N : nth k b 0 <> nth i b 0).
      { intros Heq. apply E. apply (proj1 (NoDup_nth b 0) Hnd); auto. }
      apply Nat.eqb_neq in N. rewrite N. symmetry.
      rewrite (nth_indep _ [] (row_at h 0)) by (rewrite length_map; auto).
      rewrite (map_nth (row_at h)). reflexivity.
Qed.

(** X22. [copy_board] returns a board with the contents of the original,
    made of new rows only, each used once, and it leaves the original as it
    is. The two boards are independent afterwards: writing a cell of the
    copy changes that cell of the copy alone and nothing of the original,
    even when the original holds one row object several times, and writing
    a cell of the original changes nothing of the copy. *)
Theorem copy_board_is_an_independent_copy (h : store) (b : board_ref) :
  Forall (fun a => a < length h) b ->
  contents (fst (copy_board h b)) (snd (copy_board h b)) = contents h b /\
  contents (fst (copy_board h b)) b = contents h b /\
  NoDup (snd (copy_board h b)) /\
  (forall a, In a (snd (copy_board h b)) -> ~ In a b /\ length h <= a) /\
  forall i j v,
    i < length b -> j < length (nth i (contents h b) []) ->
    contents (store_cell (fst (copy_board h b)) (snd (copy_board h b)) i j v)
             (snd (copy_board h b))
    = set_cell (contents h b) i j v /\
    contents (store_cell (fst (copy_board h b)) (snd (copy_board h b)) i j v)
             b
    = contents h b /\
    contents (store_cell (fst (copy_board h b)) b i j v)
             (snd (copy_board h b))
    = contents h b.
Proof.
  intros H. rewrite (@copy_board_eq h b H). cbn [fst snd].
  set (h' := h ++ map (row_at h) b).
  set (c := seq (length h) (length b)).
  assert (Hc : contents h' c = contents h b).
  { unfold h', c. rewrite <- (length_map (row_at h) b).
    apply contents_appended. }
  assert (Hb : contents h' b = contents h b)
    by (apply contents_kept; auto).
  assert (Hfresh : forall a, In a c -> ~ In a b /\ length h <= a).
  { intros a Ha. apply in_seq in Ha. split; [|lia].
    intros Hin. rewrite Forall_forall in H. specialize (H a Hin). lia. }
  split; auto. split; auto. split; [apply seq_NoDup|]. split; auto.
  intros i j v Hi _.
  assert (Hci : nth i c 0 = length h + i) by (apply seq_nth; auto).
  assert (Hbi : nth i b 0 < length h).
  { rewrite Forall_forall in H. apply H. apply nth_In. auto. }
  unfold store_cell. split; [|split].
  - rewrite contents_own_row.
    + unfold set_cell. rewrite <- Hc. f_equal. f_equal. unfold contents.
      rewrite (nth_indep _ [] (row_at h' 0))
        by (rewrite length_map; unfold c; rewrite length_seq; auto).
      rewrite (map_nth (row_at h')). reflexivity.
    + apply seq_NoDup.
    + unfold c. rewrite length_seq. auto.
    + rewrite Hci. unfold h'. rewrite length_app, length_map. lia.
  - rewrite contents_other_row; auto.
    apply Hfresh. apply nth_In. unfold c. rewrite length_seq. auto.
  - rewrite contents_other_row; auto.
    intros Hin. apply Hfresh in Hin as [_ Hin]. lia.
Qed.

Lemma copy_board_is_an_independent_copy_witness :
  contents (fst (copy_board [[1; 2]; [3; 4]]%Z [0; 0; 1]))
           (snd (copy_board [[1; 2]; [3; 4]]%Z [0; 0; 1]))
  = contents [[1; 2]; [3; 4]]%Z [0; 0; 1] /\
  contents (fst (copy_board [[1; 2]; [3; 4]]%Z [0; 0; 1])) [0; 0; 1]
  = contents [[1; 2]; [3; 4]]%Z [0; 0; 1] /\
  NoDup (snd (copy_board [[1; 2]; [3; 4]]%Z [0; 0; 1])) /\
  (forall a, In a (snd (copy_board [[1; 2]; [3; 4]]%Z [0; 0; 1])) ->
             ~ In a [0; 0; 1] /\ length [[1; 2]; [3; 4]]%Z <= a) /\
  forall i j v,
    i < length [0; 0; 1] ->
    j < length (nth i (contents [[1; 2]; [3; 4]]%Z [0; 0; 1]) []) ->
    contents (store_cell (fst (copy_board [[1; 2]; [3; 4]]%Z [0; 0; 1]))
                         (snd (copy_board [[1; 2]; [3; 4]]%Z [0; 0; 1]))
                         i j v)
             (snd (copy_board [[1; 2]; [3; 4]]%Z [0; 0; 1]))
    = set_cell (contents [[1; 2]; [3; 4]]%Z [0; 0; 1]) i j v /\
    contents (store_cell (fst (copy_board [[1; 2]; [3; 4]]%Z [0; 0; 1]))
                         (snd (copy_board [[1; 2]; [3; 4]]%Z [0; 0; 1]))
                         i j v)
             [0; 0; 1]
    = contents [[1; 2]; [3; 4]]%Z [0; 0; 1] /\
    contents (store_cell (fst (copy_board [[1; 2]; [3; 4]]%Z [0; 0; 1]))
                         [0; 0; 1] i j v)
             (snd (copy_board [[1; 2]; [3; 4]]%Z [0; 0; 1]))
    = contents [[1; 2]; [3; 4]]%Z [0; 0; 1].
Proof.
  apply (@copy_board_is_an_independent_copy [[1; 2]; [3; 4]]%Z [0; 0; 1]).
  repeat constructor.
Defined.

(** ** The arcs of the constraint graph *)

Definition arc_eq_dec (x y : pos * pos) : {x = y} + {x <> y}.
Proof. decide equality; apply pos_eq_dec. Defined.

Section Counting.
Variables A B : Type.
Variable dec : forall x y : B, {x = y} + {x <> y}.

Lemma count_occ_flat_map_none (f : A -> list B) (l : list A) (y : B) :
  (forall x, In x l -> ~ In y (f x)) -> count_occ dec (flat_map f l) y = 0.
Proof.
  intros H. apply count_occ_not_In. rewrite in_flat_map.
  intros [x [Hx Hy]]. exact (H x Hx Hy).
Qed.

Lemma count_occ_flat_map_one (f : A -> list B) (l : list A) (a : A)
      (y : B) :
  NoDup l -> In a l -> (forall x, x <> a -> ~ In y (f x)) ->
  count_occ dec (flat_map f l) y = count_occ dec (f a) y.
Proof.
  intros Hnd Ha Hf. induction Hnd as [|x t Hx Ht IH]; [destruct Ha|].
  cbn [flat_map]. rewrite count_occ_app. destruct Ha as [->|Ha].
  - rewrite count_occ_flat_map_none; [lia|].
    intros x Hin. apply Hf. intros ->. contradiction.
  - rewrite IH by auto.
    rewrite (proj1 (count_occ_not_In dec (f x) y)); [lia|].
    apply Hf. intros ->. contradiction.
Qed.

Lemma count_occ_b2n (l : list B) (y : B) (b : bool) :
  NoDup l -> (In y l <-> b = true) -> count_occ dec l y = Nat.b2n b.
Proof.
  intros Hnd H. destruct b; cbn [Nat.b2n].
  - assert (Hin : In y l) by (apply H; auto).
    pose proof (proj1 (NoDup_count_occ dec l) Hnd y).
    pose proof (proj1 (count_occ_In dec l y) Hin). lia.
  - apply count_occ_not_In. intros Hin. apply H in Hin. discriminate.
Qed.

Lemma In_select (g : A -> bool) (h : A -> B) (l : list A) (y : B) :
  In y (flat_map (fun k => if g k then [h k] else []) l) <->
  exists k, In k l /\ g k = true /\ y = h k.
Proof.
  rewrite in_flat_map. split; intros [k [Hk H]]; exists k.
  - destruct (g k); [|destruct H]. destruct H as [<-|[]]. auto.
  - destruct H as [-> ->]. split; auto. left; auto.
Qed.

Lemma NoDup_select (g : A -> bool) (h : A -> B) (l : list A) :
  NoDup l -> (forall k k', h k = h k' -> k = k') ->
  NoDup (flat_map (fun k => if g k then [h k] else []) l).
Proof.
  intros Hnd Hinj. induction Hnd as [|k t Hk Ht IH]; cbn [flat_map].
  - constructor.
  - destruct (g k); cbn [app]; auto. constructor; auto.
    intros Hin. apply In_select in Hin as [k' [Hk' [_ E]]].
    apply Hinj in E. subst. contradiction.
Qed.

Lemma NoDup_flat_map_disjoint (f : A -> list B) (l : list A) :
  NoDup l -> (forall k, NoDup (f k)) ->
  (forall k k' y, In y (f k) -> In y (f k') -> k = k') ->
  NoDup (flat_map f l).
Proof.
  intros Hnd Hf Hd. induction Hnd as [|k t Hk Ht IH]; cbn [flat_map].
  - constructor.
  - apply NoDup_app; auto.
    intros y Hy Hin. apply in_flat_map in Hin as [k' [Hk' Hy']].
    rewrite (Hd _ _ _ Hy Hy') in Hk. contradiction.
Qed.

End Counting.

(** X23. [get_all_edges] lists the arc from a cell to a peer once for each
    unit that the two cells share: once when they share a row, a column or
    a box only, and twice when they share a box and, in it, a row or a
    column. *)
Theorem get_all_edges_lists_an_arc_once_per_shared_unit
        (s : SudokuSolver) (a c : pos) :
  (forall p, In p (keys (domains s)) -> in_range p) ->
  In a (keys (domains s)) -> In c (keys (domains s)) -> peer a c = true ->
  count_occ arc_eq_dec (get_all_edges s) (a, c)
  = Nat.b2n (fst a =? fst c) + Nat.b2n (snd a =? snd c)
    + Nat.b2n ((fst a / 3 =? fst c / 3) && (snd a / 3 =? snd c / 3)).
Proof.
  intros Hkeys Ha Hc Hpeer.
  apply peer_same_unit in Hpeer as [Hne _].
  pose proof (Hkeys a Ha) as Hra. pose proof (Hkeys c Hc) as [Hrc1 Hrc2].
  apply dict_mem_keys in Ha, Hc.
  unfold get_all_edges.
  rewrite (@count_occ_flat_map_one _ _ arc_eq_dec _ all_positions a).
  2: apply NoDup_all_positions.
  2: apply in_all_positions; exact Hra.
  2:{ intros [i j] Hx Hin. destruct (dict_mem (i, j) (domains s));
        [|destruct Hin].
      rewrite !in_app_iff in Hin. destruct Hin as [Hin|[Hin|Hin]].
      - apply In_select in Hin as [k [_ [_ E]]]. inversion E. congruence.
      - apply In_select in Hin as [k [_ [_ E]]]. inversion E. congruence.
      - apply in_flat_map in Hin as [k [_ Hin]].
        apply In_select in Hin as [l [_ [_ E]]]. inversion E. congruence. }
  destruct a as [i j], c as [k l]. cbn [fst snd] in *. rewrite Ha.
  rewrite !count_occ_app, Nat.add_assoc. f_equal; [f_equal|].
  - apply count_occ_b2n.
    + apply NoDup_select; [apply seq_NoDup|]. intros x y E. congruence.
    + rewrite In_select, Nat.eqb_eq. split.
      * intros [x [_ [_ E]]]. congruence.
      * intros <-. exists l. split; [apply in_range9; auto|].
        split; auto. rewrite Hc, andb_true_r.
        apply negb_true_iff, Nat.eqb_neq. congruence.
  - apply count_occ_b2n.
    + apply NoDup_select; [apply seq_NoDup|]. intros x y E. congruence.
    + rewrite In_select, Nat.eqb_eq. split.
      * intros [x [_ [_ E]]]. congruence.
      * intros <-. exists k. split; [apply in_range9; auto|].
        split; auto. rewrite Hc, andb_true_r.
        apply negb_true_iff, Nat.eqb_neq. congruence.
  - apply count_occ_b2n.
    + apply NoDup_flat_map_disjoint; [apply seq_NoDup| |].
      * intros x. apply NoDup_select; [apply seq_NoDup|].
        intros y z E. congruence.
      * intros x x' y Hy Hy'.
        apply In_select in Hy as [z [_ [_ ->]]].
        apply In_select in Hy' as [z' [_ [_ E]]]. congruence.
    + rewrite in_flat_map, andb_true_iff, !Nat.eqb_eq. split.
      * intros [x [Hx Hin]]. apply In_select in Hin as [y [Hy [_ E]]].
        inversion E; subst x y.
        apply in_box_seq in Hx, Hy. auto.
      * intros [E1 E2]. exists k. split; [apply in_box_seq; auto|].
        apply In_select. exists l. split; [apply in_box_seq; auto|].
        split; auto. rewrite Hc, andb_true_r.
        apply negb_true_iff, pos_eqb_neq. congruence.
Qed.

Lemma get_all_edges_lists_an_arc_once_per_shared_unit_witness :
  count_occ arc_eq_dec (get_all_edges easy_start) ((0, 2), (0, 3))
  = Nat.b2n (0 =? 0) + Nat.b2n (2 =? 3)
    + Nat.b2n ((0 / 3 =? 0 / 3) && (2 / 3 =? 3 / 3)).
Proof.
  apply (@get_all_edges_lists_an_arc_once_per_shared_unit
           easy_start (0, 2) (0, 3)).
  - intros p Hp. exact (proj1 (proj1 (inv_keys inv_easy_start p) Hp)).
  - assert (E : dict_mem (0, 2) (domains easy_start) = true)
      by (vm_compute; reflexivity).
    exact (proj1 (dict_mem_keys _ _) E).
  - assert (E : dict_mem (0, 3) (domains easy_start) = true)
      by (vm_compute; reflexivity).
    exact (proj1 (dict_mem_keys _ _) E).
  - reflexivity.
Defined.

(** ** The answer of [solve], and what forward checking is for *)

(** X24. On an accepted board whose nine rows are distinct objects and
    whose clues do not clash, under every configuration and with the fuel
    of [search_budget], [solve] returns true exactly when the puzzle has a
    solution, and then the board it leaves is one. *)
Theorem solve_decides_solvability (iteration : SetIteration)
      (refs : board_ref) (brd : pyboard) (mrv fc ac3 lcv : bool)
      (fuel : nat) :
  NoDup refs -> length refs = 9 ->
  is_valid_board brd = true -> consistent (ints_of brd) ->
  search_budget <= fuel ->
  exists b s',
    InPlace.run refs fuel brd mrv fc ac3 lcv = Done (b, s') /\
    (b = true <-> exists g, solution brd g) /\
    (b = true -> solution brd (board s')).
Proof.
  intros Hnd Hlen Hv Hc Hfuel.
  rewrite (@run_in_place iteration refs Hnd Hlen).
  pose proof (@run_spec iteration fuel brd mrv fc ac3 lcv Hv) as H.
  destruct (run fuel brd mrv fc ac3 lcv) as [[b s']| |] eqn:Hrun;
    simpl in H; [|destruct H|lia].
  exists b, s'. split; auto.
  destruct H as [Hinv [Hfalse Htrue]].
  assert (Sol : b = true -> solution brd (board s')).
  { intros ->. specialize (Htrue eq_refl).
    destruct (inv_placed Hinv) as [Hclue Hplaced].
    split; [apply (inv_wf Hinv)|]. split.
    - intros i j Hi Hj Hnz. apply (Hclue (i, j)); [split|]; auto.
    - apply validate_full.
      + apply (inv_wf Hinv).
      + intros p Hp.
        destruct (Z.eq_dec (cellp (ints_of brd) p) 0) as [Hp0|Hp0].
        * apply Hplaced; auto.
        * rewrite (Hclue p Hp Hp0).
          pose proof (@ints_of_range brd p Hv Hp). lia.
      + intros p q Hp Hq Hpeer.
        apply (consistent_of_placed (inv_placed Hinv) Hc); auto. }
  split; auto. split.
  - intros E. exists (board s'). auto.
  - intros [g Hg]. destruct b; auto.
    destruct (Hfalse eq_refl) as [_ N].
    destruct (N g (fills_of_solution Hg)).
Qed.

Lemma solve_decides_solvability_witness :
  exists b s',
    InPlace.run nine_rows search_budget (py_of easy_board)
                true true true true = Done (b, s') /\
    (b = true <-> exists g, solution (py_of easy_board) g) /\
    (b = true -> solution (py_of easy_board) (board s')).
Proof.
  apply (@solve_decides_solvability stored_order nine_rows (py_of easy_board)
           true true true true search_budget).
  - apply seq_NoDup.
  - reflexivity.
  - vm_compute. reflexivity.
  - apply consistentb_sound. vm_compute. reflexivity.
  - apply le_n.
Defined.

Lemma domains_fresh_of_dom_ok (b : grid) (d : domain_map) :
  dom_ok b d -> domains_fresh (b, d).
Proof.
  intros H p dom v q Hin _ Hv Hq Hu. cbn [fst snd] in *.
  destruct (H p dom Hin) as [_ Hvals].
  destruct (Hvals v Hv) as [_ Hfree]. exact (Hfree q Hq Hu).
Qed.

Lemma easy_start_board : board easy_start = ints_of (py_of easy_board).
Proof. vm_compute. reflexivity. Qed.

Lemma easy_start_wf : wf_grid (board easy_start).
Proof. apply wf_grid_checked. vm_compute. reflexivity. Qed.

Lemma easy_start_keys (p : pos) :
  In p (keys (domains easy_start)) -> in_range p.
Proof. intros Hp. exact (proj1 (proj1 (inv_keys inv_easy_start p) Hp)). Qed.

Lemma easy_start_fresh : domains_fresh (board easy_start, domains easy_start).
Proof.
  apply domains_fresh_of_dom_ok. rewrite easy_start_board.
  exact (inv_dom inv_easy_start).
Qed.

Lemma easy_assigned_eq : assign easy_start (0, 2) 4%Z = Done easy_assigned.
Proof. vm_compute. reflexivity. Qed.

Lemma easy_assigned_checked :
  fst (forward_check_with_conflicts easy_assigned (0, 2) 4%Z) = None.
Proof. vm_compute. reflexivity. Qed.

Lemma easy_assigned_in_place :
  InPlace.assign nine_rows easy_start (0, 2) 4%Z = Done easy_assigned.
Proof. vm_compute. reflexivity. Qed.

(** X25. What forward checking is for, on a board whose nine rows are
    distinct objects: when the stored sets hold no value that a cell of
    their unit carries, an assignment followed by a forward check that
    returns none leaves them so again. Without the forward check they are
    stale after the assignment, as the run on the board with four blanks
    shows. *)
Theorem forward_check_refreshes_domains (refs : board_ref)
      (s s1 : SudokuSolver) (var : pos) (value : Z) :
  NoDup refs -> length refs = 9 ->
  wf_grid (board s) -> in_range var ->
  (forall p, In p (keys (domains s)) -> in_range p) ->
  domains_fresh (board s, domains s) ->
  InPlace.assign refs s var value = Done s1 ->
  fst (forward_check_with_conflicts s1 var value) = None ->
  domains_fresh
    (board (snd (forward_check_with_conflicts s1 var value)),
     domains (snd (forward_check_with_conflicts s1 var value))).
Proof.
  intros Hnd Hlen Hwf Hvar Hkeys Hfresh Ha Hnone.
  rewrite (@assign_in_place refs Hnd Hlen s var value Hwf Hvar) in Ha.
  apply (@forward_check_fresh (board s) (domains s) s1 var value);
    auto; unfold assign in Ha;
    destruct (dict_mem var _); try discriminate;
    inversion Ha; reflexivity.
Qed.

(* The statement below unfolds to a quantified formula over a computed
   run; its implicit arguments are not to be computed. *)
Unset Implicit Arguments.

Lemma forward_check_refreshes_domains_witness :
  domains_fresh
    (board (snd (forward_check_with_conflicts easy_assigned (0, 2) 4%Z)),
     domains (snd (forward_check_with_conflicts easy_assigned (0, 2) 4%Z))).
Proof.
  apply (@forward_check_refreshes_domains nine_rows easy_start easy_assigned
           (0, 2) 4%Z).
  - apply seq_NoDup.
  - reflexivity.
  - exact easy_start_wf.
  - split; simpl; lia.
  - exact easy_start_keys.
  - exact easy_start_fresh.
  - exact easy_assigned_in_place.
  - exact easy_assigned_checked.
Defined.

Set Implicit Arguments.

(** ** The order of the assignments *)

Lemma forward_check_loop_frame (var : pos) (value : Z) (cells : list pos) :
  forall s,
    assignment_order (snd (forward_check_loop s var value cells))
    = assignment_order s /\
    keys (domains (snd (forward_check_loop s var value cells)))
    = keys (domains s).
Proof.
  induction cells as [|[i j] rest IH]; intros s; cbn [forward_check_loop].
  - split; reflexivity.
  - destruct ((cell (board s) i j =? 0)%Z
              && same_unit i j (fst var) (snd var)); [|apply IH].
    set (s1 := with_domains s (dict_upd (domains s) (i, j) (discard value))).
    assert (F : assignment_order s1 = assignment_order s /\
                keys (domains s1) = keys (domains s))
      by (split; [reflexivity | apply keys_dict_upd]).
    destruct (dict_mem (i, j) (domains s1)
              && match dict_get (i, j) (domains s1) with
                 | Some [] => true
                 | _ => false
                 end).
    + exact F.
    + destruct (IH s1) as [A B]. destruct F as [FA FB].
      split; congruence.
Qed.

Lemma restore_state_frame (s s' : SudokuSolver) (var : pos)
      (d : domain_map) (c : dict (list pos)) :
  restore_state s var d c = Done s' ->
  assignment_order s' = removelast (assignment_order s) /\ domains s' = d.
Proof.
  unfold restore_state.
  cbn [assignment_order with_conflict_sets with_domains with_board].
  destruct (assignment_order s) eqn:E; [discriminate|].
  intros H. inversion H; subst. split; reflexivity.
Qed.

Lemma assign_frame (s s' : SudokuSolver) (var : pos) (value : Z) :
  assign s var value = Done s' ->
  assignment_order s' = assignment_order s ++ [var] /\
  domains s' = dict_del (domains s) var /\
  In var (keys (domains s)).
Proof.
  unfold assign.
  cbn [domains with_assignment_order with_board assignment_order].
  destruct (dict_mem var (domains s)) eqn:E; [|discriminate].
  intros H. inversion H; subst. split; [reflexivity|]. split; [reflexivity|].
  apply dict_mem_keys. exact E.
Qed.

Lemma Permutation_remove (ks : list pos) (var : pos) :
  NoDup ks -> In var ks ->
  Permutation (var :: filter (fun p => negb (pos_eqb p var)) ks) ks.
Proof.
  induction 1 as [|k t Hk Ht IH]; intros Hin; [destruct Hin|].
  cbn [filter]. destruct Hin as [->|Hin].
  - rewrite pos_eqb_refl. cbn [negb]. apply perm_skip.
    rewrite forallb_filter_id; auto.
    apply forallb_forall. intros p Hp.
    apply negb_true_iff, pos_eqb_neq. intros ->. contradiction.
  - assert (E : pos_eqb k var = false).
    { apply pos_eqb_neq. intros ->. contradiction. }
    rewrite E. cbn [negb].
    etransitivity; [apply perm_swap|]. apply perm_skip. apply IH. exact Hin.
Qed.

(** What a call of the search does to [assignment_order]: after a failure
    it is, like the domains, what it was; after a success it has grown by
    the cells whose keys have left the domain map. *)
Definition order_post (s : SudokuSolver) (r : search_result) : Prop :=
  if fst (fst r)
  then exists added,
         assignment_order (snd r) = assignment_order s ++ added /\
         Permutation (added ++ keys (domains (snd r))) (keys (domains s))
  else assignment_order (snd r) = assignment_order s /\
       domains (snd r) = domains s.

Lemma order_post_same (s s0 : SudokuSolver) (r : search_result) :
  assignment_order s0 = assignment_order s -> domains s0 = domains s ->
  order_post s0 r -> order_post s r.
Proof. unfold order_post. intros -> ->. auto. Qed.

Section AssignmentOrder.
Context {iteration : SetIteration}.

Lemma remove_inconsistent_loop_frame (xi xj : pos) (xs : list Z) :
  forall s removed r,
    remove_inconsistent_loop s xi xj xs removed = Done r ->
    assignment_order (snd r) = assignment_order s /\
    keys (domains (snd r)) = keys (domains s).
Proof.
  induction xs as [|x rest IH]; intros s removed r H;
    cbn [remove_inconsistent_loop] in H.
  - inversion H; subst. split; reflexivity.
  - destruct (dict_get xj (domains s)) as [dj|]; [|discriminate].
    destruct (negb (existsb (fun y => negb (y =? x)%Z) dj)).
    + apply IH in H as [A B].
      cbn [assignment_order domains with_domains] in A, B.
      rewrite keys_dict_upd in B. split; auto.
    + apply IH in H. exact H.
Qed.

Lemma ac3_loop_frame (fuel : nat) :
  forall queue s r,
    ac3_loop fuel queue s = Done r ->
    assignment_order (snd r) = assignment_order s /\
    keys (domains (snd r)) = keys (domains s).
Proof.
  induction fuel as [|fuel IH]; intros queue s r H; [discriminate|].
  cbn [ac3_loop] in H. destruct queue as [|[xi xj] queue'].
  - inversion H; subst. split; reflexivity.
  - destruct (remove_inconsistent_values s xi xj) as [[removed s1]| |] eqn:E;
      cbn [bind] in H; try discriminate.
    assert (F : assignment_order s1 = assignment_order s /\
                keys (domains s1) = keys (domains s)).
    { unfold remove_inconsistent_values in E.
      destruct (dict_get xi (domains s)); [|discriminate].
      apply remove_inconsistent_loop_frame in E. exact E. }
    destruct F as [FA FB]. destruct removed.
    + destruct (dict_get xi (domains s1)) as [[|v t]|]; try discriminate.
      * inversion H; subst. split; auto.
      * apply IH in H as [A B]. split; congruence.
    + apply IH in H as [A B]. split; congruence.
Qed.

Lemma try_values_order
      (recurse : SudokuSolver -> outcome search_result) (fuel : nat)
      (var : pos) :
  (forall s3 r, NoDup (keys (domains s3)) -> recurse s3 = Done r ->
                order_post s3 r) ->
  forall values cc s r,
    NoDup (keys (domains s)) ->
    try_values recurse fuel var values cc s = Done r ->
    order_post s r.
Proof.
  intros Hrec.
  induction values as [|value rest IH]; intros cc s r Hnd H.
  - cbn [try_values] in H. inversion H; subst. split; reflexivity.
  - cbn [try_values] in H.
    destruct (is_safe (board s) var value); [|eapply IH; eauto].
    destruct (assign s var value) as [s1| |] eqn:Ea; cbn [bind] in H;
      try discriminate.
    apply assign_frame in Ea as [A1 [D1 K]].
    destruct (if use_forward_checking s1
              then forward_check_with_conflicts s1 var value
              else (None, s1)) as [fc s2] eqn:Efc.
    assert (F2 : assignment_order s2 = assignment_order s1 /\
                 keys (domains s2) = keys (domains s1)).
    { destruct (use_forward_checking s1).
      - pose proof (forward_check_loop_frame var value all_positions s1) as F.
        unfold forward_check_with_conflicts in Efc. rewrite Efc in F.
        exact F.
      - inversion Efc; subst. split; reflexivity. }
    destruct F2 as [A2 K2].
    assert (Back : forall s_in s_out,
               assignment_order s_in = assignment_order s1 ->
               restore_state s_in var (domains s) (conflict_sets s)
               = Done s_out ->
               assignment_order s_out = assignment_order s /\
               domains s_out = domains s).
    { intros s_in s_out Hin Hr. apply restore_state_frame in Hr as [R1 R2].
      split; auto. rewrite R1, Hin, A1. apply removelast_last. }
    destruct fc as [fc|].
    + destruct (restore_state s2 var (domains s) (conflict_sets s))
        as [s3| |] eqn:Er; cbn [bind] in H; try discriminate.
      destruct (Back _ _ A2 Er) as [B1 B2].
      apply (@order_post_same s s3 r B1 B2).
      eapply IH; [|exact H]. rewrite B2. exact Hnd.
    + destruct (if use_ac3 s2 then ac3_with_conflicts fuel s2
                else Done (None, s2)) as [[ac s3]| |] eqn:Eac;
        cbn [bind] in H; try discriminate.
      assert (F3 : assignment_order s3 = assignment_order s2 /\
                   keys (domains s3) = keys (domains s2)).
      { destruct (use_ac3 s2).
        - apply ac3_loop_frame in Eac. exact Eac.
        - inversion Eac; subst. split; reflexivity. }
      destruct F3 as [A3 K3].
      destruct ac as [ac|].
      * destruct (restore_state s3 var (domains s) (conflict_sets s))
          as [s4| |] eqn:Er; cbn [bind] in H; try discriminate.
        assert (A : assignment_order s3 = assignment_order s1)
          by congruence.
        destruct (Back _ _ A Er) as [B1 B2].
        apply (@order_post_same s s4 r B1 B2).
        eapply IH; [|exact H]. rewrite B2. exact Hnd.
      * assert (K13 : keys (domains s3)
                      = filter (fun p => negb (pos_eqb p var))
                               (keys (domains s))).
        { rewrite K3, K2, D1. apply keys_dict_del. }
        assert (Hnd3 : NoDup (keys (domains s3)))
          by (rewrite K13; apply NoDup_filter; exact Hnd).
        destruct (recurse s3) as [[[success nc] s4]| |] eqn:Erec;
          cbn [bind] in H; try discriminate.
        pose proof (Hrec s3 _ Hnd3 Erec) as P. unfold order_post in P.
        cbn [fst snd] in P. destruct success.
        -- inversion H; subst r. unfold order_post. cbn [fst snd].
           destruct P as [added [PA PP]].
           exists (var :: added). split.
           ++ rewrite PA, A3, A2, A1, <- app_assoc. reflexivity.
           ++ cbn [app]. etransitivity; [apply perm_skip, PP|].
              rewrite K13. apply Permutation_remove; auto.
        -- destruct P as [PA PD].
           destruct (restore_state s4 var (domains s) (conflict_sets s))
             as [s5| |] eqn:Er; cbn [bind] in H; try discriminate.
           assert (A : assignment_order s4 = assignment_order s1)
             by congruence.
           destruct (Back _ _ A Er) as [B1 B2].
           apply (@order_post_same s s5 r B1 B2).
           eapply IH; [|exact H]. rewrite B2. exact Hnd.
Qed.

Lemma backtrack_order (fuel : nat) :
  forall s r,
    NoDup (keys (domains s)) ->
    backtrack_with_conflicts fuel s = Done r -> order_post s r.
Proof.
  induction fuel as [|fuel IH]; intros s r Hnd H; [discriminate|].
  cbn [backtrack_with_conflicts] in H.
  destruct (get_next_variable s) as [var|].
  - destruct (get_ordered_values s var) as [values| |]; cbn [bind] in H;
      try discriminate.
    apply (@try_values_order (backtrack_with_conflicts fuel) fuel var IH
             values [] s r Hnd H).
  - inversion H; subst. unfold order_post. cbn [fst snd].
    exists []. split; [rewrite app_nil_r; reflexivity | reflexivity].
Qed.

Lemma run_success_no_domain (brd : pyboard) (mrv fc ac3 lcv : bool)
      (fuel : nat) (s' : SudokuSolver) :
  is_valid_board brd = true ->
  run fuel brd mrv fc ac3 lcv = Done (true, s') ->
  domains s' = [] /\ forall p, in_range p -> cellp (board s') p <> 0%Z.
Proof.
  intros Hv Hrun.
  pose proof (@run_spec iteration fuel brd mrv fc ac3 lcv Hv) as H.
  rewrite Hrun in H. cbn [ospec fst snd] in H.
  destruct H as [Hinv [_ Hfull]]. specialize (Hfull eq_refl).
  split; auto.
  destruct (domains s') as [|[k dom] t] eqn:E; auto. exfalso.
  assert (Hk : In k (keys (domains s'))) by (rewrite E; left; auto).
  apply (inv_keys Hinv) in Hk as [Hr Hz]. exact (Hfull k Hr Hz).
Qed.

(** X26. After [solve] has returned true on an accepted board whose nine
    rows are distinct objects, [assignment_order] lists the cells that were
    empty at construction, each of them once; after it has returned false,
    [assignment_order] is empty again. *)
Theorem assignment_order_lists_the_cells_that_were_empty
        (refs : board_ref) (brd : pyboard) (mrv fc ac3 lcv : bool)
        (fuel : nat) (b : bool) (s' : SudokuSolver) :
  NoDup refs -> length refs = 9 ->
  is_valid_board brd = true ->
  InPlace.run refs fuel brd mrv fc ac3 lcv = Done (b, s') ->
  if b
  then Permutation (assignment_order s')
         (filter (fun p => (cellp (ints_of brd) p =? 0)%Z) all_positions) /\
       NoDup (assignment_order s')
  else assignment_order s' = [].
Proof.
  intros Hnd Hlen Hv Hrun.
  rewrite (@run_in_place iteration refs Hnd Hlen) in Hrun.
  assert (Hd : b = true -> domains s' = []).
  { intros ->.
    apply (@run_success_no_domain brd mrv fc ac3 lcv fuel s' Hv Hrun). }
  unfold run in Hrun. rewrite init_done in Hrun by auto.
  cbn [bind] in Hrun. unfold solve in Hrun.
  set (s0 := mkSolver (ints_of brd) mrv fc ac3 lcv
                      (initial_domains (ints_of brd)) [] []
                      [(ints_of brd, initial_domains (ints_of brd))]) in *.
  assert (K0 : keys (domains s0)
               = filter (fun p => (cellp (ints_of brd) p =? 0)%Z)
                        all_positions)
    by apply keys_initial_domains.
  assert (N0 : NoDup (filter (fun p => (cellp (ints_of brd) p =? 0)%Z)
                             all_positions))
    by apply NoDup_filter, NoDup_all_positions.
  destruct (if use_ac3 s0 then ac3_with_conflicts fuel s0
            else Done (None, s0)) as [[ic s1]| |] eqn:Eac;
    cbn [bind] in Hrun; try discriminate.
  assert (F1 : assignment_order s1 = [] /\
               keys (domains s1) = keys (domains s0)).
  { destruct (use_ac3 s0).
    - apply ac3_loop_frame in Eac. exact Eac.
    - inversion Eac; subst. split; reflexivity. }
  destruct F1 as [A1 K1].
  destruct ic as [ic|].
  - inversion Hrun; subst. exact A1.
  - destruct (backtrack_with_conflicts fuel s1)
      as [[[success nc] s2]| |] eqn:Eb; cbn [bind] in Hrun;
      try discriminate.
    inversion Hrun; subst b s'. clear Hrun.
    assert (Hnd1 : NoDup (keys (domains s1)))
      by (rewrite K1, K0; exact N0).
    pose proof (@backtrack_order fuel s1 _ Hnd1 Eb) as P.
    unfold order_post in P. cbn [fst snd] in P. destruct success.
    + destruct P as [added [PA PP]].
      rewrite (Hd eq_refl) in PP. cbn [keys map] in PP.
      rewrite app_nil_r, K1, K0 in PP. rewrite A1 in PA. cbn [app] in PA.
      rewrite PA. split; auto.
      apply (Permutation_NoDup (Permutation_sym PP)). exact N0.
    + destruct P as [PA _]. congruence.
Qed.

End AssignmentOrder.

Lemma assignment_order_lists_the_cells_that_were_empty_witness :
  Permutation (assignment_order easy_final)
    (filter (fun p => (cellp (ints_of (py_of easy_board)) p =? 0)%Z)
            all_positions) /\
  NoDup (assignment_order easy_final).
Proof.
  apply (@assignment_order_lists_the_cells_that_were_empty stored_order
           nine_rows (py_of easy_board) true true true true search_budget
           true easy_final).
  - apply seq_NoDup.
  - reflexivity.
  - vm_compute. reflexivity.
  - vm_compute. reflexivity.
Defined.
